(** * Lead scraping engine of google-places-lead-scraper

    A shallow embedding of [main.js] (cost guard, cohort scheduler, geo
    partitioner, checkpointed search loop) and of [helpers.js] (phone
    normalisation, contact extraction and scoring, place enrichment),
    followed by the properties established about them.

    Conventions of the embedding:
    - JavaScript strings are [string]s of 8-bit characters;
    - the call counter and millisecond clock are integers ([Z]);
    - monetary amounts, which the source computes in binary floating point,
      are exact rationals ([Q]); coordinates are real numbers ([R]);
    - everything the program obtains from outside (HTTP responses, DNS, the
      HTML library, the URL parser) is a field of the [World] record. *)

From Stdlib Require Import ZArith QArith List String Ascii Bool Lia.
From Stdlib Require Import Reals Lra Permutation Sorted.
Import ListNotations.

Set Implicit Arguments.
Close Scope Q_scope.
Open Scope nat_scope.

(* ================================================================= *)
(** ** JavaScript string primitives *)

Module Js.

Definition ltb_ascii_range (lo hi c : ascii) : bool :=
  (nat_of_ascii lo <=? nat_of_ascii c)%nat && (nat_of_ascii c <=? nat_of_ascii hi)%nat.

Definition isDigit (c : ascii) : bool := ltb_ascii_range "0" "9" c.
Definition isLower (c : ascii) : bool := ltb_ascii_range "a" "z" c.
Definition isUpper (c : ascii) : bool := ltb_ascii_range "A" "Z" c.
Definition isAlpha (c : ascii) : bool := isLower c || isUpper c.
Definition isAlnum (c : ascii) : bool := isAlpha c || isDigit c.
Definition isHex (c : ascii) : bool :=
  isDigit c || ltb_ascii_range "a" "f" c || ltb_ascii_range "A" "F" c.
Definition isChar (a c : ascii) : bool := Ascii.eqb a c.

(** [String.prototype.toLowerCase] on the ASCII range. *)
Definition lowerChar (c : ascii) : ascii :=
  if isUpper c then ascii_of_nat (nat_of_ascii c + 32) else c.

Fixpoint toLowerCase (s : string) : string :=
  match s with
  | EmptyString => EmptyString
  | String c s' => String (lowerChar c) (toLowerCase s')
  end.

Fixpoint filterChars (p : ascii -> bool) (s : string) : string :=
  match s with
  | EmptyString => EmptyString
  | String c s' => if p c then String c (filterChars p s') else filterChars p s'
  end.

Fixpoint allChars (p : ascii -> bool) (s : string) : bool :=
  match s with
  | EmptyString => true
  | String c s' => p c && allChars p s'
  end.

Fixpoint countChars (p : ascii -> bool) (s : string) : nat :=
  match s with
  | EmptyString => 0
  | String c s' => (if p c then 1 else 0) + countChars p s'
  end.

Fixpoint startsWith (prefix s : string) : bool :=
  match prefix, s with
  | EmptyString, _ => true
  | String a p', String b s' => Ascii.eqb a b && startsWith p' s'
  | String _ _, EmptyString => false
  end.

Fixpoint includes (needle s : string) : bool :=
  startsWith needle s ||
  match s with
  | EmptyString => false
  | String _ s' => includes needle s'
  end.

Fixpoint endsWith (suffix s : string) : bool :=
  String.eqb suffix s ||
  match s with
  | EmptyString => false
  | String _ s' => endsWith suffix s'
  end.

Fixpoint dropChars (n : nat) (s : string) : string :=
  match n, s with
  | O, _ => s
  | S n', String _ s' => dropChars n' s'
  | S _, EmptyString => EmptyString
  end.

(** [s.split(sep)[0]] : the text before the first separator. *)
Fixpoint beforeFirst (sep : ascii) (s : string) : string :=
  match s with
  | EmptyString => EmptyString
  | String c s' => if Ascii.eqb c sep then EmptyString else String c (beforeFirst sep s')
  end.

(** The text after the first separator, when there is one. *)
Fixpoint afterFirst (sep : ascii) (s : string) : option string :=
  match s with
  | EmptyString => None
  | String c s' => if Ascii.eqb c sep then Some s' else afterFirst sep s'
  end.

(** [s.split(sep)[1]], with [undefined] as [None]. *)
Definition secondField (sep : ascii) (s : string) : option string :=
  match afterFirst sep s with
  | None => None
  | Some rest => Some (beforeFirst sep rest)
  end.

(** [s.replace(lit, '')]: removes the first occurrence of a literal. *)
Fixpoint removeFirst (lit s : string) : string :=
  if startsWith lit s then dropChars (String.length lit) s
  else match s with
       | EmptyString => EmptyString
       | String c s' => String c (removeFirst lit s')
       end.

Fixpoint takeWhile (p : ascii -> bool) (s : string) : string :=
  match s with
  | EmptyString => EmptyString
  | String c s' => if p c then String c (takeWhile p s') else EmptyString
  end.

(** [Array.prototype.includes] for an array of strings. *)
Definition arrayIncludes (arr : list string) (s : string) : bool :=
  existsb (String.eqb s) arr.

(** A value is truthy when it is a non-empty string. *)
Definition truthy (s : string) : bool := negb (String.eqb s EmptyString).

(** [a || b] on strings. *)
Definition orElse (a b : string) : string := if truthy a then a else b.

(** [Array.from(new Set(l))]: first occurrences, in insertion order. *)
Fixpoint setAdd (x : string) (l : list string) : list string :=
  match l with
  | [] => [x]
  | y :: l' => if String.eqb x y then l else y :: setAdd x l'
  end.

Definition setAddAll (xs : list string) (set : list string) : list string :=
  fold_left (fun acc x => setAdd x acc) xs set.

(** [arr.slice(start, stop)] for non-negative indices. *)
Definition slice {A : Type} (start stop : nat) (l : list A) : list A :=
  firstn (stop - start) (skipn start l).

End Js.

(* ================================================================= *)
(** ** Regular expressions

    The anchored patterns of [helpers.js] are written in a small regular
    expression syntax and matched with derivatives. *)

Module Re.

Inductive regex : Type :=
| Void
| Eps
| Cls (p : ascii -> bool)
| Cat (r s : regex)
| Alt (r s : regex)
| Star (r : regex).

Fixpoint nullable (r : regex) : bool :=
  match r with
  | Void => false
  | Eps => true
  | Cls _ => false
  | Cat r s => nullable r && nullable s
  | Alt r s => nullable r || nullable s
  | Star _ => true
  end.

Definition cat (r s : regex) : regex :=
  match r, s with
  | Void, _ => Void
  | _, Void => Void
  | Eps, _ => s
  | _, _ => Cat r s
  end.

Definition alt (r s : regex) : regex :=
  match r, s with
  | Void, _ => s
  | _, Void => r
  | _, _ => Alt r s
  end.

Fixpoint deriv (c : ascii) (r : regex) : regex :=
  match r with
  | Void => Void
  | Eps => Void
  | Cls p => if p c then Eps else Void
  | Cat r s =>
      if nullable r then alt (cat (deriv c r) s) (deriv c s)
      else cat (deriv c r) s
  | Alt r s => alt (deriv c r) (deriv c s)
  | Star r => cat (deriv c r) (Star r)
  end.

(** [matches r s]: the whole of [s] is in the language of [r] ([/^r$/]). *)
Fixpoint matches (r : regex) (s : string) : bool :=
  match s with
  | EmptyString => nullable r
  | String c s' => matches (deriv c r) s'
  end.

Fixpoint lit (s : string) : regex :=
  match s with
  | EmptyString => Eps
  | String c s' => Cat (Cls (Js.isChar c)) (lit s')
  end.

Fixpoint alts (rs : list regex) : regex :=
  match rs with
  | [] => Void
  | [r] => r
  | r :: rs' => Alt r (alts rs')
  end.

Definition oneOf (ss : list string) : regex := alts (map lit ss).

Definition plus (r : regex) : regex := Cat r (Star r).
Definition opt (r : regex) : regex := Alt r Eps.

Fixpoint rep (n : nat) (r : regex) : regex :=
  match n with
  | O => Eps
  | S n' => Cat r (rep n' r)
  end.

(** [r{n,}] and [r{n,m}]. *)
Definition atLeast (n : nat) (r : regex) : regex := Cat (rep n r) (Star r).
Definition between (n m : nat) (r : regex) : regex := Cat (rep n r) (rep (m - n) (opt r)).

Definition anyChar : regex := Cls (fun _ => true).

(** [.] : any character but a line terminator. *)
Definition dot : regex :=
  Cls (fun c => negb (Ascii.eqb c "010" || Ascii.eqb c "013")).

(** [/^r/], [/r$/] and [/r/]. *)
Definition testPrefix (r : regex) (s : string) : bool := matches (Cat r (Star anyChar)) s.
Definition testSuffix (r : regex) (s : string) : bool := matches (Cat (Star anyChar) r) s.
Definition testAnywhere (r : regex) (s : string) : bool :=
  matches (Cat (Star anyChar) (Cat r (Star anyChar))) s.

(** The language of a regular expression. *)
Inductive Lang : regex -> string -> Prop :=
| LangEps : Lang Eps EmptyString
| LangCls (p : ascii -> bool) (c : ascii) : p c = true -> Lang (Cls p) (String c EmptyString)
| LangCat (r s : regex) (u v : string) : Lang r u -> Lang s v -> Lang (Cat r s) (u ++ v)
| LangAltL (r s : regex) (u : string) : Lang r u -> Lang (Alt r s) u
| LangAltR (r s : regex) (u : string) : Lang s u -> Lang (Alt r s) u
| LangStarNil (r : regex) : Lang (Star r) EmptyString
| LangStarCons (r : regex) (u v : string) :
    Lang r u -> Lang (Star r) v -> Lang (Star r) (u ++ v).

End Re.

(* ================================================================= *)
(** ** Errors that terminate a run *)

Inductive error : Type :=
| DailyCostLimitReached (currentCost ceiling : Q)
| LocationNotFound
| InputRequired (field : string).

(* ================================================================= *)
(** ** 4.1 Cost guard: [class APIRateLimiter] *)

Module CostGuard.

Record APIRateLimiter : Type := mkLimiter {
  apiCalls : Z;
  lastCallTime : Z;
  maxDailyCost : Q;
  minInterval : Z;
  startTime : Z
}.

(** [constructor(maxDailyCost = 20)], created at clock reading [now]. *)
Definition newLimiter (ceiling : Q) (now : Z) : APIRateLimiter :=
  {| apiCalls := 0; lastCallTime := 0; maxDailyCost := ceiling;
     minInterval := 100; startTime := now |}.

Definition estimateCost (rl : APIRateLimiter) : Q :=
  (let textSearchCalls := inject_Z (apiCalls rl) * 0.6 in
   let placeDetailsCalls := inject_Z (apiCalls rl) * 0.35 in
   let geocodingCalls := inject_Z (apiCalls rl) * 0.05 in
   let textSearchCost := (textSearchCalls / 1000) * 32 in
   let placeDetailsCost := (placeDetailsCalls / 1000) * 17 in
   let geocodingCost := (geocodingCalls / 1000) * 5 in
   textSearchCost + placeDetailsCost + geocodingCost)%Q.

(** [checkLimits()] entered at clock reading [now].  On success it returns
    the updated limiter and the clock reading on exit (after the sleep that
    enforces [minInterval]); on failure nothing has been written. *)
Definition checkLimits (now : Z) (rl : APIRateLimiter) : error + (APIRateLimiter * Z) :=
  let timeSinceLastCall := (now - lastCallTime rl)%Z in
  let currentCost := estimateCost rl in
  if Qle_bool (maxDailyCost rl) currentCost then
    inl (DailyCostLimitReached currentCost (maxDailyCost rl))
  else
    let woke :=
      if (timeSinceLastCall <? minInterval rl)%Z
      then (now + (minInterval rl - timeSinceLastCall))%Z
      else now in
    inr ({| apiCalls := (apiCalls rl + 1)%Z;
            lastCallTime := woke;
            maxDailyCost := maxDailyCost rl;
            minInterval := minInterval rl;
            startTime := startTime rl |}, woke).

Definition getUsageStats (rl : APIRateLimiter) : Z * Q :=
  (apiCalls rl, estimateCost rl).


End CostGuard.

(* ================================================================= *)
(** ** 4.3 Cohort scheduler *)

Module Cohort.

(** [Math.ceil(a / b)] on non-negative integers. *)
Definition ceilDiv (a b : nat) : nat := (a + (b - 1)) / b.

(** [calculateDailyCohort]; the day of the year is read from the clock. *)
Definition calculateDailyCohort (dayOfYear : nat) (cityCohortIndex : Z) (cohortCount : nat) : nat :=
  if negb (cityCohortIndex =? -1)%Z && (0 <=? cityCohortIndex)%Z
  then Z.to_nat cityCohortIndex
  else dayOfYear mod cohortCount.

Definition getCitiesForCohort {A : Type} (allCities : list A) (cohortIndex cohortCount : nat) : list A :=
  let citiesPerCohort := ceilDiv (List.length allCities) cohortCount in
  let startIndex := cohortIndex * citiesPerCohort in
  let endIndex := Nat.min (startIndex + citiesPerCohort) (List.length allCities) in
  Js.slice startIndex endIndex allCities.

(** The bounds [startIndex] and [endIndex] of a cohort's slice. *)
Definition cohortStart (len cohortIndex cohortCount : nat) : nat :=
  cohortIndex * ceilDiv len cohortCount.
Definition cohortEnd (len cohortIndex cohortCount : nat) : nat :=
  Nat.min (cohortStart len cohortIndex cohortCount + ceilDiv len cohortCount) len.

(** The cohorts [0 .. cohortCount-1], concatenated in order. *)
Definition allCohorts {A : Type} (allCities : list A) (cohortCount : nat) : list A :=
  List.concat (map (fun i => getCitiesForCohort allCities i cohortCount) (seq 0 cohortCount)).

End Cohort.

(* ================================================================= *)
(** ** Phone normalisation: [normalizePhone] *)

Module Phone.

Definition normalizePhone (phone : string) : string :=
  if negb (Js.truthy phone) then EmptyString
  else
    let digits := Js.filterChars Js.isDigit phone in
    let digits :=
      if (String.length digits =? 10)%nat then String "1" digits else digits in
    if (String.length digits =? 11)%nat && Js.startsWith "1" digits
    then String "+" digits
    else if Js.startsWith "00" digits
    then String "+" (Js.dropChars 2 digits)
    else String "+" digits.

End Phone.

(* ================================================================= *)
(** ** 4.2 Geo partitioner *)

Module Geo.

Local Open Scope R_scope.

Record LatLng : Type := mkLatLng { lat : R; lng : R }.

Definition earthRadius : R := 6378137.

(** [Math.ceil(a / b)] for integers [a] and [b > 0]. *)
Definition ceilZ (a b : Z) : Z := (- ((- a) / b))%Z.

(** The six centers of one ring (the body of the outer [for] loop). *)
Definition ringCenters (centerLat centerLng : R) (boxRadius : Z) (ring : nat) : list LatLng :=
  let ringRadius := INR ring * IZR boxRadius in
  let ringLat := ringRadius / earthRadius * (180 / PI) in
  let ringLng := ringRadius / (earthRadius * cos (PI * centerLat / 180)) * (180 / PI) in
  map (fun i : nat =>
         let angle := (INR i * PI) / 3 in
         {| lat := centerLat + ringLat * cos angle;
            lng := centerLng + ringLng * sin angle |})
      (seq 0 6).

(** [generateHexagonalGeoboxCenters]; the unused locals [dLat] and [dLng]
    are left out. *)
Definition generateHexagonalGeoboxCenters
    (centerLat centerLng : R) (radiusMeters boxRadius : Z) : list LatLng :=
  let numRings := Z.to_nat (ceilZ radiusMeters boxRadius) in
  {| lat := centerLat; lng := centerLng |}
    :: flat_map (ringCenters centerLat centerLng boxRadius) (seq 1 numRings).

(** The cell radius and the cells chosen by [Actor.main] for one center. *)
Definition boxRadiusFor (radiusMeters : Z) : Z :=
  if (radiusMeters >? 5000)%Z then 5000%Z else radiusMeters.

Definition geoboxCentersFor (center : LatLng) (radiusMeters : Z) : list LatLng :=
  if (radiusMeters >? 5000)%Z
  then generateHexagonalGeoboxCenters (lat center) (lng center) radiusMeters
         (boxRadiusFor radiusMeters)
  else [ {| lat := lat center; lng := lng center |} ].

(** Degrees of latitude spanned by [meters] along a meridian, degrees of
    longitude spanned by [meters] along the parallel at latitude [atLat],
    and a bearing in degrees turned into radians. *)
Definition metersToLatDegrees (meters : R) : R := meters / earthRadius * (180 / PI).
Definition metersToLngDegrees (atLat meters : R) : R :=
  meters / (earthRadius * cos (PI * atLat / 180)) * (180 / PI).
Definition degToRad (deg : R) : R := deg * PI / 180.

End Geo.

(* ================================================================= *)
(** ** 4.6 Contact scoring: [filterBusinessEmails] and its helpers *)

Module Contacts.

Import Js Re.

Definition chr (c : ascii) : regex := Cls (isChar c).
Definition lower : regex := Cls isLower.

Fixpoint cats (rs : list regex) : regex :=
  match rs with
  | [] => Eps
  | [r] => r
  | r :: rs' => Cat r (cats rs')
  end.

(** [/^[a-zA-Z0-9]([a-zA-Z0-9._-]*[a-zA-Z0-9])?@[a-zA-Z0-9]([a-zA-Z0-9.-]*[a-zA-Z0-9])?\.[a-zA-Z]{2,}$/] *)
Definition EMAIL_REGEX : regex :=
  cats [ Cls isAlnum;
         opt (Cat (Star (Cls (fun c => isAlnum c || isChar "." c || isChar "_" c || isChar "-" c)))
                  (Cls isAlnum));
         chr "@";
         Cls isAlnum;
         opt (Cat (Star (Cls (fun c => isAlnum c || isChar "." c || isChar "-" c)))
                  (Cls isAlnum));
         chr ".";
         atLeast 2 (Cls isAlpha) ].

Definition DISPOSABLE_DOMAINS : list string :=
  [ "10minutemail.com"; "guerrillamail.com"; "mailinator.com"; "tempmail.org";
    "throwaway.email"; "yopmail.com"; "temp-mail.org"; "sharklasers.com";
    "getairmail.com"; "mailnesia.com"; "tempr.email"; "tmpmail.org";
    "maildrop.cc"; "spam4.me"; "fakeinbox.com"; "mailmetrash.com";
    "trashmail.com"; "mailnull.com"; "spamspot.com"; "spam.la";
    "example.com"; "example.org"; "test.com"; "demo.com"; "sample.com";
    "placeholder.com"; "domain.com"; "yourdomain.com"; "company.com";
    "mail.com"; "email.com"; "fakemail.com" ]%string.

Definition isValidEmailFormat (email : string) : bool := matches EMAIL_REGEX email.

Definition isDisposableDomain (domain : string) : bool :=
  existsb (fun disposable => includes (toLowerCase disposable) (toLowerCase domain))
          DISPOSABLE_DOMAINS.

(** [const [local, domain] = s.split('@')]; an absent component
    ([undefined]) is the empty string, which is as falsy. *)
Definition localOf (s : string) : string := beforeFirst "@" s.
Definition domainOf (s : string) : string :=
  match secondField "@" s with
  | Some d => d
  | None => EmptyString
  end.

Definition tlds : regex :=
  oneOf [ "com"; "org"; "net"; "co"; "biz"; "io"; "ai"; "app" ]%string.

(** The five [businessPatterns], in order. *)
Definition businessPatterns : list (string -> bool) :=
  [ testPrefix (cats [ plus lower; chr "."; plus lower; chr "@" ]);
    matches (cats [ plus lower; chr "@"; plus lower; chr "."; tlds ]);
    matches (cats [ plus lower; chr "@"; plus lower;
                    Star (Cls (fun c => isLower c || isDigit c)); chr "."; tlds ]);
    matches (cats [ plus lower; chr "@"; plus lower; chr ".";
                    oneOf [ "co"; "biz"; "io"; "ai"; "app" ]%string ]);
    matches (cats [ plus lower; chr "@"; plus lower; chr ".";
                    oneOf [ "com"; "org"; "net" ]%string ]) ].

Definition businessDomains : list string :=
  [ "company.com"; "business.com"; "corp.com"; "inc.com"; "llc.com";
    "enterprise.com"; "firm.com"; "group.com"; "team.com"; "studio.com";
    "clinic.com"; "salon.com"; "spa.com"; "gym.com"; "fitness.com";
    "restaurant.com"; "cafe.com"; "bar.com"; "pub.com"; "shop.com";
    "store.com"; "market.com"; "office.com"; "agency.com"; "consulting.com" ]%string.

(** The names inside the negative lookahead of the domain pattern. *)
Definition personalNames : regex :=
  oneOf [ "gmail"; "yahoo"; "outlook"; "hotmail"; "aol"; "icloud"; "protonmail";
          "zoho"; "yandex"; "mail.ru"; "live"; "msn"; "me"; "mac" ]%string.

(** [/^(?!.*(gmail|...|mac)).*\.(com|org|net|co|biz|io|ai|app)$/] *)
Definition businessDomainPattern (domain : string) : bool :=
  negb (testPrefix (Cat (Star dot) personalNames) domain)
  && matches (cats [ Star dot; chr "."; tlds ]) domain.

Definition PERSONAL_PROVIDERS : list string :=
  [ "gmail.com"; "yahoo.com"; "outlook.com"; "hotmail.com"; "aol.com";
    "icloud.com"; "protonmail.com"; "zoho.com"; "yandex.com"; "mail.ru";
    "live.com"; "msn.com"; "me.com"; "mac.com" ]%string.

(** [isBusinessEmailPattern]; its local [personalProviders] array has the
    entries of [PERSONAL_PROVIDERS].  The patterns are tested on [email]
    as given, the domain is taken from the lowercased address. *)
Definition isBusinessEmailPattern (email : string) : bool :=
  let domain := domainOf (toLowerCase email) in
  let hasBusinessPattern := existsb (fun pattern => pattern email) businessPatterns in
  let hasBusinessDomain := existsb (fun bd => includes bd domain) businessDomains in
  let hasBusinessDomainPattern := businessDomainPattern domain in
  let isPersonalProvider := arrayIncludes PERSONAL_PROVIDERS domain in
  negb isPersonalProvider
  && (hasBusinessPattern || hasBusinessDomain || hasBusinessDomainPattern).

Definition AGGREGATOR_DOMAINS : list string :=
  [ "weomedia.com"; "wixpress.com"; "sentry-next.wixpress.com"; "sentry.wixpress.com";
    "sentry.io"; "wordpress.com"; "godaddy.com"; "mailchimp.com"; "hubspot.com";
    "squareup.com"; "weebly.com"; "shopify.com"; "squarespace.com";
    "google-analytics.com"; "googletagmanager.com" ]%string.

Definition name2_15 : regex := between 2 15 lower.

Definition personPatterns : list regex :=
  [ name2_15;
    cats [ name2_15; chr "."; name2_15 ];
    cats [ name2_15; name2_15 ];
    cats [ lower; chr "."; name2_15 ];
    cats [ name2_15; chr "."; lower; chr "." ];
    cats [ name2_15; chr "_"; name2_15 ];
    cats [ name2_15; chr "-"; name2_15 ];
    cats [ name2_15; between 1 3 (Cls isDigit) ] ].

Definition looksLikePersonNameLocalPart (local : string) : bool :=
  existsb (fun pattern => matches pattern local) personPatterns.

Definition fileExtensions : regex :=
  oneOf [ "png"; "jpg"; "jpeg"; "gif"; "svg"; "webp"; "bmp"; "tiff"; "pdf"; "doc"; "docx" ]%string.

Definition placeholders : list string :=
  [ "your@email.com"; "user@domain.com"; "hi@mystore.com"; "test@domain.com";
    "demo@domain.com"; "sample@domain.com"; "email@example.com"; "contact@domain.com";
    "mail@domain.com"; "admin@domain.com"; "info@domain.com"; "example@domain.com";
    "test@test.com"; "admin@admin.com"; "user@user.com"; "contact@contact.com" ]%string.

Definition fillerPrefixes : list string :=
  [ "filler"; "placeholder"; "temp"; "temporary"; "fake"; "dummy"; "sample" ]%string.

Definition devDomains : list string :=
  [ "godaddy.com"; "hostgator.com"; "bluehost.com"; "lab6.com"; "dev.com"; "localhost" ]%string.

Definition excludedPrefixes : list string :=
  [ "noreply"; "no-reply"; "donotreply"; "do-not-reply"; "bounce"; "mailer-daemon";
    "postmaster"; "abuse"; "spam"; "webmaster"; "root"; "sysadmin"; "system";
    "daemon"; "nobody"; "www-data"; "apache"; "nginx"; "ftp"; "mail"; "alerts";
    "notifications"; "automated"; "robot"; "bot"; "crawler"; "spider" ]%string.

Record Scored : Type := mkScored { email : string; score : Z }.

Definition isSocialContact (contact : string) : bool :=
  startsWith "instagram:" contact || startsWith "facebook:" contact
  || startsWith "twitter:" contact.

(** The rejection rules that precede the MX lookup, in source order. *)
Definition rejectedBeforeDns (contact : string) : bool :=
  let local := localOf (toLowerCase contact) in
  let domain := domainOf (toLowerCase contact) in
  (negb (truthy local) || negb (truthy domain) || negb (isValidEmailFormat contact))
  || isDisposableDomain domain
  || testSuffix (Cat (chr ".") fileExtensions) (toLowerCase contact)
  || matches (atLeast 24 (Cls isHex)) local
  || matches (rep 32 (Cls isHex)) local
  || ((15 <? String.length local) && matches (atLeast 15 (Cls isAlnum)) local)
  || (String.length local <? 2 * countChars isDigit local)
  || (includes "sentry" domain || includes "sentry" local)
  || arrayIncludes placeholders (toLowerCase contact)
  || existsb (fun prefix => startsWith prefix local) fillerPrefixes
  || existsb (fun devDomain => includes devDomain domain) devDomains
  || String.eqb local (beforeFirst "." domain).

(** The tier of an address that passed the rules above. *)
Definition tierScore (websiteDomain : option string) (contact : string) : Z :=
  let local := localOf (toLowerCase contact) in
  let domain := domainOf (toLowerCase contact) in
  let isBusinessPattern := isBusinessEmailPattern contact in
  let isPersonName := looksLikePersonNameLocalPart local in
  if isBusinessPattern then
    match websiteDomain with
    | Some wd => if truthy wd && endsWith wd domain then (100 + 10)%Z else 100%Z
    | None => 100%Z
    end
  else if arrayIncludes PERSONAL_PROVIDERS domain && isPersonName then 50%Z
  else 10%Z.

Definition isAggregatorDomain (domain : string) : bool :=
  existsb (fun d => endsWith d domain) AGGREGATOR_DOMAINS.

(** One iteration of the [for (const email of emailList)] loop: [None] is
    [continue], [Some] is the entry pushed on [validEmails].  [resolveMx]
    is [validateDomainDNS]: whether the domain has a mail exchanger. *)
Definition scoreContact (resolveMx : string -> bool) (websiteDomain : option string)
    (contact : string) : option Scored :=
  if isSocialContact contact then Some {| email := contact; score := 30 |}
  else
    let local := localOf (toLowerCase contact) in
    let domain := domainOf (toLowerCase contact) in
    if rejectedBeforeDns contact then None
    else if negb (resolveMx domain) then None
    else
      let score := tierScore websiteDomain contact in
      if arrayIncludes excludedPrefixes local then None
      else
        let score := if isAggregatorDomain domain then (score - 50)%Z else score in
        Some {| email := contact; score := score |}.

Fixpoint validEmails (resolveMx : string -> bool) (websiteDomain : option string)
    (emailList : list string) : list Scored :=
  match emailList with
  | [] => []
  | contact :: rest =>
      match scoreContact resolveMx websiteDomain contact with
      | Some entry => entry :: validEmails resolveMx websiteDomain rest
      | None => validEmails resolveMx websiteDomain rest
      end
  end.

(** [arr.sort((a, b) => b.score - a.score)]: a stable sort, highest score
    first. *)
Fixpoint insertByScore (x : Scored) (l : list Scored) : list Scored :=
  match l with
  | [] => [x]
  | y :: l' => if (score y <=? score x)%Z then x :: l else y :: insertByScore x l'
  end.

Definition sortByScoreDesc (l : list Scored) : list Scored :=
  fold_right insertByScore [] l.

(** [filterBusinessEmails(emailList, { websiteDomain })] for an array
    argument. *)
Definition filterBusinessEmails (resolveMx : string -> bool) (websiteDomain : option string)
    (emailList : list string) : list string :=
  slice 0 6 (map email (sortByScoreDesc (validEmails resolveMx websiteDomain emailList))).

(** An address that no rule of the loop other than the aggregator penalty
    turns away: it is not a social handle, passes the rules before the MX
    lookup, has a mail exchanger, and its local part is not an excluded
    prefix. *)
Definition passesOtherRules (resolveMx : string -> bool) (contact : string) : bool :=
  negb (isSocialContact contact)
  && negb (rejectedBeforeDns contact)
  && resolveMx (domainOf (toLowerCase contact))
  && negb (arrayIncludes excludedPrefixes (localOf (toLowerCase contact))).

(** Highest score first. *)
Definition scoreDescending (a b : Scored) : Prop := (score b <= score a)%Z.

End Contacts.

(* ================================================================= *)
(** ** The outside world *)

(** A fetched HTML page, described by what the HTML library ([cheerio]) and
    the global regular expressions of the source find in it. *)
Record JsonLd : Type := mkJsonLd {
  ldEmail : string;               (* data.email, empty when absent *)
  ldContactPointEmail : string;   (* data.contactPoint.email *)
  ldAuthorEmail : string          (* data.author.email *)
}.

Record Document : Type := mkDocument {
  (* read by extractEmails *)
  mailtoHrefs : list string;            (* href of every a[href^="mailto:"] *)
  patternMatches : list (list string);  (* html.match(p) for each entry of emailPatterns *)
  ldJsonBlocks : list (option JsonLd);  (* each ld+json script; None when JSON.parse throws *)
  dataAttributes : list (string * string * string);
                                        (* data-email, data-contact, data-mail of each selected element *)
  base64Decoded : list string;          (* each base64-looking token, decoded *)
  (* read by enrichPlaceDetails *)
  textEmails : list string;             (* addresses matched in $.text() *)
  markupMatches : list (list string);   (* homepageHtml.match(p) for mailto:/email/contact patterns *)
  sectionEmails : list (list string);   (* addresses matched in the text of each contact selector *)
  socialLinks : list string;            (* href of anchors mentioning instagram, facebook, twitter *)
  contactPageUrls : list string         (* same-host contact/about links, absolute, in page order *)
}.

Record DetailsResponse : Type := mkDetails {
  websiteUri : string;
  internationalPhoneNumber : string;
  legacy_website : string;                       (* result.website *)
  legacy_websiteUri : string;                    (* result.websiteUri *)
  legacy_international_phone_number : string;    (* result.international_phone_number *)
  legacy_internationalPhoneNumber : string       (* result.internationalPhoneNumber *)
}.

(** One entry of a search response, with the fields the run reads; the
    legacy response is already translated to these names. *)
Record RawPlace : Type := mkRawPlace {
  rawId : string;
  rawDisplayName : string;
  rawFormattedAddress : string;
  rawWebsiteUri : string;
  rawPhoneNumber : string
}.

Record World : Type := mkWorld {
  (* dns.resolveMx(domain) answers with at least one record *)
  resolveMx : string -> bool;
  (* the three chained replace() calls that undo [at]/[dot] and remove spaces *)
  cleanObfuscated : string -> string;
  (* s.match(/[a-zA-Z0-9._%+-]+@[a-zA-Z0-9.-]+\.[a-zA-Z]{2,}/)[0] *)
  firstEmailIn : string -> option string;
  (* new URL(u).hostname; None when the constructor throws *)
  urlHostname : string -> option string;
  (* axios.get(url).data; None when the request throws *)
  httpGet : string -> option Document;
  (* the Place Details endpoint; None when the request throws *)
  placeDetails : string -> option DetailsResponse;
  (* the Geocoding endpoint: results[0].geometry.location, None when empty *)
  geocode : string -> option Geo.LatLng;
  (* Number() of the two halves of a "lat,lng" literal *)
  parseLatLng : string -> Geo.LatLng;
  (* the pages served for one (cell center, cell radius, term) query by the
     text search or its legacy fallback; a further page means a page token *)
  textSearch : Geo.LatLng -> Z -> string -> list (list RawPlace);
  (* day of the year at start, and the run identifier *)
  dayOfYear : nat;
  actorRunId : string
}.

(* ================================================================= *)
(** ** Raw extraction: [extractEmails] *)

Module Harvest.

Import Js.

Definition addMailto (emails : list string) (href : string) : list string :=
  let email := beforeFirst "&" (beforeFirst "?" (removeFirst "mailto:" href)) in
  if truthy email then setAdd (toLowerCase email) emails else emails.

Definition addPatternMatch (w : World) (emails : list string) (m : string) : list string :=
  let cleanEmail := toLowerCase (cleanObfuscated w m) in
  if includes "@" cleanEmail && includes "." cleanEmail
  then setAdd cleanEmail emails else emails.

Definition addJsonLd (emails : list string) (block : option JsonLd) : list string :=
  match block with
  | None => emails
  | Some data =>
      let emails :=
        if truthy (ldEmail data) then setAdd (toLowerCase (ldEmail data)) emails else emails in
      let emails :=
        if truthy (ldContactPointEmail data)
        then setAdd (toLowerCase (ldContactPointEmail data)) emails else emails in
      if truthy (ldAuthorEmail data)
      then setAdd (toLowerCase (ldAuthorEmail data)) emails else emails
  end.

Definition addDataAttribute (emails : list string) (attrs : string * string * string)
    : list string :=
  let '(dataEmailAttr, dataContactAttr, dataMailAttr) := attrs in
  let dataEmail := orElse dataEmailAttr (orElse dataContactAttr dataMailAttr) in
  if truthy dataEmail && includes "@" dataEmail
  then setAdd (toLowerCase dataEmail) emails else emails.

Definition addDecoded (w : World) (emails : list string) (decoded : string) : list string :=
  if includes "@" decoded && includes "." decoded then
    match firstEmailIn w decoded with
    | Some emailMatch => setAdd (toLowerCase emailMatch) emails
    | None => emails
    end
  else emails.


Definition extractEmails (w : World) (html : Document) : list string :=
  let emails := [] in
  let emails := fold_left addMailto (mailtoHrefs html) emails in
  let emails :=
    fold_left (fun acc ms => fold_left (addPatternMatch w) ms acc) (patternMatches html) emails in
  let emails := fold_left addJsonLd (ldJsonBlocks html) emails in
  let emails := fold_left addDataAttribute (dataAttributes html) emails in
  let emails := fold_left (addDecoded w) (base64Decoded html) emails in
  slice 0 8 emails.

End Harvest.

(* ================================================================= *)
(** ** Run state and the monad of the run

    [Actor.main] and [enrichPlaceDetails] are asynchronous procedures over
    shared mutable objects.  They are embedded as state transformers that
    either return or throw; what was written before a throw stays written.
    The two-worker [asyncPool] is run in array order. *)

Module Run.

Import Js.

(** A lead as built in the search loop.  The fields the run only copies
    to the output (coordinates, rating, rating count, map URL) are left
    out. *)
Record Place : Type := mkPlace {
  name : string;
  searchTerm : string;
  formattedAddress : string;
  placeId : string;
  website : string;
  phone : string;
  emailList : list string
}.

(** A row of the output dataset. *)
Record Lead : Type := mkLead {
  leadPlace : Place;
  cityProcessed : string;
  apifyRunId : string;
  scrapedAt : Z
}.

(** The checkpoint record, without its [completedTerms] (always empty) and
    its time stamp. *)
Record Checkpoint : Type := mkCheckpoint {
  processedCities : list nat;
  currentCityIndex : nat;
  currentSearchTermIndex : nat
}.

Definition initialCheckpoint : Checkpoint :=
  {| processedCities := []; currentCityIndex := 0; currentSearchTermIndex := 0 |}.

(** Which [saveCheckpoint] call wrote a checkpoint: the one after a full
    batch was saved, the one after a search term, the one after a city. *)
Inductive checkpointKind : Type := AfterBatch | AfterTerm | AfterCity.

(** Observable steps of a run, in order. *)
Inductive event : Type :=
| EvGeocode (address : string)
| EvSearch (cityIndex : option nat) (cityIdx boxIdx termIdx : nat)
| EvPlaceDetails (id : string)
| EvFetch (url : string)
| EvPushData (ids : list string)
| EvCheckpoint (kind : checkpointKind) (cityIndex termIndex : nat) (unflushed : list string).

Record State : Type := mkState {
  limiter : option CostGuard.APIRateLimiter;   (* rateLimiter, null when disabled *)
  clock : Z;                                   (* Date.now() *)
  checkpoint : Checkpoint;                     (* the variable of Actor.main *)
  checkpointStore : option Checkpoint;         (* key 'current-progress' *)
  dataset : list Lead;                         (* rows pushed with Actor.pushData *)
  dedupeStore : list (string * Z);             (* 'place:<id>' -> lastSeen *)
  allPlaces : list string;                     (* keys of the allPlaces map *)
  batchLeads : list Place;
  saveCounter : nat;
  skippedDueToCooldown : nat;
  trace : list event
}.

Definition setLimiter v s :=
  mkState v (clock s) (checkpoint s) (checkpointStore s) (dataset s) (dedupeStore s)
          (allPlaces s) (batchLeads s) (saveCounter s) (skippedDueToCooldown s) (trace s).
Definition setClock v s :=
  mkState (limiter s) v (checkpoint s) (checkpointStore s) (dataset s) (dedupeStore s)
          (allPlaces s) (batchLeads s) (saveCounter s) (skippedDueToCooldown s) (trace s).
Definition setCheckpoint v s :=
  mkState (limiter s) (clock s) v (checkpointStore s) (dataset s) (dedupeStore s)
          (allPlaces s) (batchLeads s) (saveCounter s) (skippedDueToCooldown s) (trace s).
Definition setCheckpointStore v s :=
  mkState (limiter s) (clock s) (checkpoint s) v (dataset s) (dedupeStore s)
          (allPlaces s) (batchLeads s) (saveCounter s) (skippedDueToCooldown s) (trace s).
Definition setDataset v s :=
  mkState (limiter s) (clock s) (checkpoint s) (checkpointStore s) v (dedupeStore s)
          (allPlaces s) (batchLeads s) (saveCounter s) (skippedDueToCooldown s) (trace s).
Definition setDedupeStore v s :=
  mkState (limiter s) (clock s) (checkpoint s) (checkpointStore s) (dataset s) v
          (allPlaces s) (batchLeads s) (saveCounter s) (skippedDueToCooldown s) (trace s).
Definition setAllPlaces v s :=
  mkState (limiter s) (clock s) (checkpoint s) (checkpointStore s) (dataset s) (dedupeStore s)
          v (batchLeads s) (saveCounter s) (skippedDueToCooldown s) (trace s).
Definition setBatchLeads v s :=
  mkState (limiter s) (clock s) (checkpoint s) (checkpointStore s) (dataset s) (dedupeStore s)
          (allPlaces s) v (saveCounter s) (skippedDueToCooldown s) (trace s).
Definition setSaveCounter v s :=
  mkState (limiter s) (clock s) (checkpoint s) (checkpointStore s) (dataset s) (dedupeStore s)
          (allPlaces s) (batchLeads s) v (skippedDueToCooldown s) (trace s).
Definition setSkipped v s :=
  mkState (limiter s) (clock s) (checkpoint s) (checkpointStore s) (dataset s) (dedupeStore s)
          (allPlaces s) (batchLeads s) (saveCounter s) v (trace s).
Definition setTrace v s :=
  mkState (limiter s) (clock s) (checkpoint s) (checkpointStore s) (dataset s) (dedupeStore s)
          (allPlaces s) (batchLeads s) (saveCounter s) (skippedDueToCooldown s) v.

(** Exceptions: the errors of the run, or anything else thrown on the way
    (a failed request, a property read on [null]). *)
Inductive exn : Type :=
| Fatal (e : error)
| RequestFailed
| NullLimiter.

Definition M (A : Type) : Type := State -> (exn + A) * State.

Definition ret {A : Type} (a : A) : M A := fun s => (inr a, s).

Definition bind {A B : Type} (m : M A) (k : A -> M B) : M B :=
  fun s =>
    match m s with
    | (inl e, s') => (inl e, s')
    | (inr a, s') => k a s'
    end.

Definition throw {A : Type} (e : exn) : M A := fun s => (inl e, s).

(** [try { body } catch { handler }] *)
Definition tryCatch {A : Type} (body handler : M A) : M A :=
  fun s =>
    match body s with
    | (inl _, s') => handler s'
    | (inr a, s') => (inr a, s')
    end.

Definition gets {A : Type} (f : State -> A) : M A := fun s => (inr (f s), s).
Definition modify (f : State -> State) : M unit := fun s => (inr tt, f s).

Notation "x <- m ;; k" := (bind m (fun x => k))
  (at level 61, m at next level, right associativity).
Notation "m ;;; k" := (bind m (fun _ => k))
  (at level 61, right associativity).

Definition emit (e : event) : M unit :=
  modify (fun s => setTrace (trace s ++ [e]) s).

Definition sleep (ms : Z) : M unit :=
  modify (fun s => setClock (clock s + ms)%Z s).

Fixpoint forEach {A : Type} (l : list A) (body : A -> M unit) : M unit :=
  match l with
  | [] => ret tt
  | x :: l' => body x ;;; forEach l' body
  end.

Fixpoint mapM {A B : Type} (f : A -> M B) (l : list A) : M (list B) :=
  match l with
  | [] => ret []
  | x :: l' => y <- f x ;; ys <- mapM f l' ;; ret (y :: ys)
  end.

(** [arr.entries()]: the elements with their indices. *)
Definition indexed {A : Type} (l : list A) : list (nat * A) :=
  combine (seq 0 (List.length l)) l.

(** [await rateLimiter.checkLimits()] *)
Definition checkLimits : M unit :=
  fun s =>
    match limiter s with
    | None => (inl NullLimiter, s)
    | Some rl =>
        match CostGuard.checkLimits (clock s) rl with
        | inl e => (inl (Fatal e), s)
        | inr (rl', woke) => (inr tt, setClock woke (setLimiter (Some rl') s))
        end
    end.

(** [if (rateLimiter) await rateLimiter.checkLimits()] *)
Definition checkLimitsIfEnabled : M unit :=
  enabled <- gets (fun s => match limiter s with Some _ => true | None => false end) ;;
  if enabled then checkLimits else ret tt.

(* ----------------------------------------------------------------- *)
(** *** [enrichPlaceDetails] *)

Definition setWebsite v p :=
  mkPlace (name p) (searchTerm p) (formattedAddress p) (placeId p) v (phone p) (emailList p).
Definition setPhone v p :=
  mkPlace (name p) (searchTerm p) (formattedAddress p) (placeId p) (website p) v (emailList p).
Definition setEmailList v p :=
  mkPlace (name p) (searchTerm p) (formattedAddress p) (placeId p) (website p) (phone p) v.
Definition setSearchTerm v p :=
  mkPlace (name p) v (formattedAddress p) (placeId p) (website p) (phone p) (emailList p).

Definition handleChar (c : ascii) : bool := isAlnum c || isChar "_" c || isChar "." c.

(** [link.match(/<host>\/([a-zA-Z0-9_.]+)/)[1]] for a literal [host/]. *)
Fixpoint captureHandle (hostSlash link : string) : option string :=
  let handle := takeWhile handleChar (dropChars (String.length hostSlash) link) in
  if startsWith hostSlash link && truthy handle then Some handle
  else match link with
       | EmptyString => None
       | String _ link' => captureHandle hostSlash link'
       end.

Definition addSocial (socialContacts : list string) (link : string) : list string :=
  let socialContacts :=
    match captureHandle "instagram.com/" link with
    | Some handle =>
        if negb (includes "p/" handle) && negb (includes "explore" handle)
        then setAdd ("instagram:" ++ handle)%string socialContacts
        else socialContacts
    | None => socialContacts
    end in
  match captureHandle "facebook.com/" link with
  | Some handle =>
      if negb (includes "p/" handle)
      then setAdd ("facebook:" ++ handle)%string socialContacts
      else socialContacts
  | None => socialContacts
  end.

(** The addresses [enrichPlaceDetails] adds to [rawEmails] after the call
    to [extractEmails]: text matches, markup pattern matches, sections. *)
Definition homepageExtras (w : World) (homepage : Document) : list string :=
  textEmails homepage
  ++ flat_map (fun ms =>
       flat_map (fun m => match firstEmailIn w m with
                          | Some emailMatch => [emailMatch]
                          | None => []
                          end) ms)
       (markupMatches homepage)
  ++ List.concat (sectionEmails homepage).

(** The contents of [allRaw], handed to the quality filter. *)
Definition harvest (w : World) (homepage : Document) : M (list string) :=
  let rawEmails := Harvest.extractEmails w homepage ++ homepageExtras w homepage in
  let socialContacts := fold_left addSocial (socialLinks homepage) [] in
  moreEmails <-
    (match rawEmails, contactPageUrls homepage with
     | [], firstUrl :: _ =>
         tryCatch
           (emit (EvFetch firstUrl) ;;;
            match httpGet w firstUrl with
            | Some page => ret (Harvest.extractEmails w page)
            | None => throw RequestFailed
            end)
           (ret [])
     | _, _ => ret []
     end) ;;
  ret (setAddAll (rawEmails ++ moreEmails ++ socialContacts) []).

Definition websiteDomainOf (w : World) (url : string) : option string :=
  match urlHostname w url with
  | Some hostname =>
      Some (if startsWith "www." hostname then dropChars 4 hostname else hostname)
  | None => None
  end.

Definition enrichPlaceDetails (w : World) (place : Place) : M Place :=
  tryCatch
    (checkLimitsIfEnabled ;;;
     place <-
       (if negb (truthy (website place)) && negb (truthy (phone place)) then
          emit (EvPlaceDetails (placeId place)) ;;;
          match placeDetails w (placeId place) with
          | None => throw RequestFailed
          | Some details =>
              let websiteFromApi :=
                orElse (websiteUri details)
                  (orElse (legacy_website details) (legacy_websiteUri details)) in
              let phoneFromApi :=
                orElse (internationalPhoneNumber details)
                  (orElse (legacy_international_phone_number details)
                          (legacy_internationalPhoneNumber details)) in
              let place := setWebsite (orElse (website place) websiteFromApi) place in
              ret (setPhone (orElse (phone place) (Phone.normalizePhone phoneFromApi)) place)
          end
        else ret place) ;;
     if truthy (website place) then
       tryCatch
         (emit (EvFetch (website place)) ;;;
          match httpGet w (website place) with
          | None => throw RequestFailed
          | Some homepageHtml =>
              allRaw <- harvest w homepageHtml ;;
              let websiteDomain := websiteDomainOf w (website place) in
              ret (setEmailList
                     (Contacts.filterBusinessEmails (resolveMx w) websiteDomain allRaw) place)
          end)
         (ret (setEmailList [] place))
     else ret (setEmailList [] place))
    (ret (setEmailList [] (setPhone EmptyString (setWebsite EmptyString place)))).

(* ----------------------------------------------------------------- *)
(** *** [Actor.main] *)

Record Config : Type := mkConfig {
  searchTerms : list string;    (* after the split of a comma-separated string *)
  location : string;
  radiusMeters : Z;
  maxPerTerm : nat;
  enableRateLimiting : bool;
  useTopUSCities : bool;
  maxDailyCost : Q;
  cohortCount : Z;
  cityCohortIndex : Z;
  persistDedupe : bool;
  cooldownDays : Z
}.

Record TargetCenter : Type := mkTarget {
  center : Geo.LatLng;
  label : string;
  index : option nat            (* undefined for an explicit location *)
}.

Definition SAVE_INTERVAL : nat := 50.

Definition TOP_US_CITIES : list string :=
  [ "New York, NY"; "San Francisco, CA"; "Boston, MA"; "Chicago, IL"; "Philadelphia, PA";
    "Washington, DC"; "Miami, FL"; "Seattle, WA"; "Jersey City, NJ"; "Cambridge, MA";
    "Los Angeles, CA"; "Atlanta, GA"; "Denver, CO"; "Austin, TX"; "Dallas, TX";
    "Houston, TX"; "Phoenix, AZ"; "San Diego, CA"; "Portland, OR"; "Minneapolis, MN";
    "Las Vegas, NV"; "Nashville, TN"; "New Orleans, LA"; "Orlando, FL"; "Miami Beach, FL";
    "San Antonio, TX"; "Tampa, FL"; "Charlotte, NC"; "Pittsburgh, PA"; "St. Louis, MO";
    "Arlington, VA"; "Long Beach, CA"; "Oakland, CA"; "Santa Ana, CA"; "Anaheim, CA";
    "Newark, NJ"; "Irvine, CA"; "Fremont, CA"; "Glendale, CA"; "Pasadena, CA";
    "San Jose, CA"; "Raleigh, NC"; "Durham, NC"; "Salt Lake City, UT"; "Boise, ID";
    "Madison, WI"; "Ann Arbor, MI"; "Boulder, CO"; "Bellevue, WA"; "Redmond, WA";
    "Detroit, MI"; "Baltimore, MD"; "Milwaukee, WI"; "Cleveland, OH"; "Cincinnati, OH";
    "Kansas City, MO"; "Columbus, OH"; "Indianapolis, IN"; "Sacramento, CA"; "Jacksonville, FL";
    "Berkeley, CA"; "Evanston, IL"; "Tempe, AZ"; "College Station, TX"; "Gainesville, FL";
    "Syracuse, NY"; "Buffalo, NY"; "Rochester, NY"; "Albany, NY"; "Hartford, CT";
    "Fort Lauderdale, FL"; "West Palm Beach, FL"; "Virginia Beach, VA"; "St. Petersburg, FL";
    "Riverside, CA"; "Fort Worth, TX"; "El Paso, TX"; "Memphis, TN"; "Louisville, KY";
    "Richmond, VA"; "Oklahoma City, OK"; "Tucson, AZ"; "Albuquerque, NM"; "Fresno, CA";
    "Providence, RI"; "New Haven, CT"; "Bridgeport, CT"; "Stamford, CT"; "Worcester, MA";
    "Springfield, MA"; "Yonkers, NY"; "White Plains, NY"; "New Rochelle, NY"; "Mount Vernon, NY";
    "Omaha, NE"; "Tulsa, OK"; "Wichita, KS"; "Des Moines, IA"; "Grand Rapids, MI";
    "Dayton, OH"; "Akron, OH"; "Toledo, OH"; "Lexington, KY"; "Greensboro, NC" ]%string.

(** [/^-?\d+\.\d+,-?\d+\.\d+$/] *)
Definition latLngLiteral : Re.regex :=
  let digits := Re.plus (Re.Cls isDigit) in
  let number := Contacts.cats [ Re.opt (Contacts.chr "-"); digits; Contacts.chr "."; digits ] in
  Contacts.cats [ number; Contacts.chr ","; number ].

Definition geocodeLocation (w : World) (loc : string) : M Geo.LatLng :=
  if Re.matches latLngLiteral loc then ret (parseLatLng w loc)
  else
    checkLimits ;;;
    emit (EvGeocode loc) ;;;
    match geocode w loc with
    | None => throw (Fatal LocationNotFound)
    | Some found => ret found
    end.

(** Accepted places that are in no row of the dataset yet. *)
Definition unflushed (s : State) : list string :=
  filter (fun id => negb (arrayIncludes (map (fun l => placeId (leadPlace l)) (dataset s)) id))
         (allPlaces s).

Definition saveCheckpoint (kind : checkpointKind) (cityIndex searchTermIndex : nat) : M unit :=
  modify (fun s =>
    let saved := {| processedCities := processedCities (checkpoint s);
                    currentCityIndex := cityIndex;
                    currentSearchTermIndex := searchTermIndex |} in
    setCheckpointStore (Some saved) (setCheckpoint saved s)) ;;;
  pending <- gets unflushed ;;
  emit (EvCheckpoint kind cityIndex searchTermIndex pending).

Definition saveLeadsIncremental (w : World) (leads : list Place) (term city : string)
    : M unit :=
  match leads with
  | [] => ret tt
  | _ :: _ =>
      now <- gets clock ;;
      let enrichedLeads :=
        map (fun lead =>
               {| leadPlace := setSearchTerm (orElse (searchTerm lead) term) lead;
                  cityProcessed := city;
                  apifyRunId := actorRunId w;
                  scrapedAt := now |}) leads in
      modify (fun s => setDataset (dataset s ++ enrichedLeads) s) ;;;
      emit (EvPushData (map placeId leads)) ;;;
      modify (fun s => setSaveCounter (saveCounter s + List.length leads) s)
  end.

Definition cooldownMs (cfg : Config) : Z :=
  (Z.max 0 (cooldownDays cfg) * 24 * 60 * 60 * 1000)%Z.

Fixpoint lookupSeen (id : string) (store : list (string * Z)) : option Z :=
  match store with
  | [] => None
  | (key, lastSeen) :: rest => if String.eqb key id then Some lastSeen else lookupSeen id rest
  end.

Definition hasRecentPlace (cfg : Config) (id : string) : M bool :=
  if negb (persistDedupe cfg) || (cooldownMs cfg =? 0)%Z then ret false
  else
    gets (fun s =>
      match lookupSeen id (dedupeStore s) with
      | None => false
      | Some last => (clock s - last <? cooldownMs cfg)%Z
      end).

Definition markPlaceSeen (cfg : Config) (id : string) : M unit :=
  if negb (persistDedupe cfg) then ret tt
  else modify (fun s => setDedupeStore ((id, clock s) :: dedupeStore s) s).

(** The [asyncPool] over [batchLeads]: each lead is enriched in place and
    then marked as seen. *)
Definition enrichBatch (w : World) (cfg : Config) : M unit :=
  batch <- gets batchLeads ;;
  enriched <-
    mapM (fun lead =>
            lead' <- enrichPlaceDetails w lead ;;
            markPlaceSeen cfg (placeId lead') ;;;
            ret lead') batch ;;
  modify (setBatchLeads enriched).

(** The body of [for (const p of places)]. *)
Definition processPlace (w : World) (cfg : Config) (cityLabel : string)
    (cityIdx termIdx : nat) (term : string) (p : RawPlace) : M unit :=
  if negb (truthy (rawId p)) then ret tt
  else
    recent <- hasRecentPlace cfg (rawId p) ;;
    if recent then modify (fun s => setSkipped (skippedDueToCooldown s + 1) s)
    else
      known <- gets (fun s => arrayIncludes (allPlaces s) (rawId p)) ;;
      if known then ret tt
      else
        let place :=
          {| name := rawDisplayName p;
             searchTerm := term;
             formattedAddress := rawFormattedAddress p;
             placeId := rawId p;
             website := rawWebsiteUri p;
             phone := Phone.normalizePhone (rawPhoneNumber p);
             emailList := [] |} in
        modify (fun s => setAllPlaces (allPlaces s ++ [rawId p]) s) ;;;
        modify (fun s => setBatchLeads (batchLeads s ++ [place]) s) ;;;
        size <- gets (fun s => List.length (batchLeads s)) ;;
        if SAVE_INTERVAL <=? size then
          enrichBatch w cfg ;;;
          batch <- gets batchLeads ;;
          saveLeadsIncremental w batch term cityLabel ;;;
          saveCheckpoint AfterBatch cityIdx termIdx ;;;
          modify (setBatchLeads [])
        else ret tt.

(** The [do ... while (pageToken && fetched < maxPerTerm)] loop over the
    pages the search serves; an empty list of pages is one empty page. *)
Fixpoint searchPages (w : World) (cfg : Config) (target : TargetCenter)
    (cityIdx boxIdx termIdx : nat) (term : string)
    (pages : list (list RawPlace)) (fetched : nat) : M unit :=
  checkLimitsIfEnabled ;;;
  emit (EvSearch (index target) cityIdx boxIdx termIdx) ;;;
  match pages with
  | [] => ret tt
  | places :: rest =>
      forEach places (processPlace w cfg (label target) cityIdx termIdx term) ;;;
      let fetched := fetched + List.length places in
      match rest with
      | [] => ret tt
      | _ :: _ =>
          sleep 2000 ;;;
          if fetched <? maxPerTerm cfg
          then searchPages w cfg target cityIdx boxIdx termIdx term rest fetched
          else ret tt
      end
  end.

(** The body of [for (let termIdx ...)]. *)
Definition processTerm (w : World) (cfg : Config) (target : TargetCenter)
    (cityIdx boxIdx : nat) (box : Geo.LatLng) (termIdx : nat) (term : string) : M unit :=
  cp <- gets checkpoint ;;
  if match index target with
     | Some i => (i =? currentCityIndex cp) && (termIdx <? currentSearchTermIndex cp)
     | None => false
     end
  then ret tt
  else
    searchPages w cfg target cityIdx boxIdx termIdx term
      (textSearch w box (Geo.boxRadiusFor (radiusMeters cfg)) term) 0 ;;;
    saveCheckpoint AfterTerm cityIdx (termIdx + 1).

(** The body of [for (let cityIdx ...)]. *)
Definition processCity (w : World) (cfg : Config) (cityIdx : nat) (target : TargetCenter)
    : M unit :=
  cp <- gets checkpoint ;;
  if match index target with
     | Some i => i <? currentCityIndex cp
     | None => false
     end
  then ret tt
  else
    let geoboxCenters := Geo.geoboxCentersFor (center target) (radiusMeters cfg) in
    modify (setBatchLeads []) ;;;
    forEach (indexed geoboxCenters) (fun '(boxIdx, box) =>
      forEach (indexed (searchTerms cfg)) (fun '(termIdx, term) =>
        processTerm w cfg target cityIdx boxIdx box termIdx term)) ;;;
    batch <- gets batchLeads ;;
    (match batch with
     | [] => ret tt
     | _ :: _ =>
         enrichBatch w cfg ;;;
         batch <- gets batchLeads ;;
         saveLeadsIncremental w batch EmptyString (label target) ;;;
         modify (setBatchLeads [])
     end) ;;;
    let completed :=
      match index target with
      | Some (S i) => S i
      | _ => cityIdx
      end in
    modify (fun s =>
      setCheckpoint {| processedCities := processedCities (checkpoint s) ++ [completed];
                       currentCityIndex := currentCityIndex (checkpoint s);
                       currentSearchTermIndex := currentSearchTermIndex (checkpoint s) |} s) ;;;
    saveCheckpoint AfterCity (cityIdx + 1) 0.

(** The cities of today's cohort. *)
Definition selectedCities (w : World) (cfg : Config) : list string :=
  let totalCohorts := Z.to_nat (Z.max 1 (cohortCount cfg)) in
  let cohortIdx :=
    if (cityCohortIndex cfg <? 0)%Z
    then Cohort.calculateDailyCohort (dayOfYear w) (cityCohortIndex cfg) totalCohorts
    else Z.to_nat (cityCohortIndex cfg) in
  Cohort.getCitiesForCohort TOP_US_CITIES cohortIdx totalCohorts.

(** Building [targetCenters]. *)
Definition resolveTargets (w : World) (cfg : Config) : M (list TargetCenter) :=
  if useTopUSCities cfg then
    resolved <-
      mapM (fun '(i, city) =>
              cp <- gets checkpoint ;;
              if i <? currentCityIndex cp then ret []
              else
                found <- geocodeLocation w city ;;
                ret [ {| center := found; label := city; index := Some i |} ])
           (indexed (selectedCities w cfg)) ;;
    ret (List.concat resolved)
  else
    found <- geocodeLocation w (location cfg) ;;
    ret [ {| center := found; label := location cfg; index := None |} ].

Definition validateInput (cfg : Config) : M unit :=
  match searchTerms cfg with
  | [] => throw (Fatal (InputRequired "searchTerms"))
  | _ :: _ =>
      if negb (truthy (location cfg)) then throw (Fatal (InputRequired "location"))
      else if (radiusMeters cfg =? 0)%Z then throw (Fatal (InputRequired "radiusMeters"))
      else if (maxPerTerm cfg =? 0)%nat then throw (Fatal (InputRequired "maxPerTerm"))
      else ret tt
  end.

Definition Actor_main (w : World) (cfg : Config) : M unit :=
  validateInput cfg ;;;
  modify (fun s =>
    setLimiter (if enableRateLimiting cfg
                then Some (CostGuard.newLimiter (maxDailyCost cfg) (clock s))
                else None) s) ;;;
  modify (fun s =>
    setCheckpoint (match checkpointStore s with
                   | Some saved => saved
                   | None => initialCheckpoint
                   end) s) ;;;
  targetCenters <- resolveTargets w cfg ;;
  forEach (indexed targetCenters) (fun '(cityIdx, target) =>
    processCity w cfg cityIdx target) ;;;
  modify (setCheckpointStore (Some initialCheckpoint)).

(** The state in which a run starts: nothing but the two key-value stores
    and the clock. *)
Definition startState (now : Z) (saved : option Checkpoint) (seen : list (string * Z)) : State :=
  {| limiter := None; clock := now; checkpoint := initialCheckpoint;
     checkpointStore := saved; dataset := []; dedupeStore := seen;
     allPlaces := []; batchLeads := []; saveCounter := 0;
     skippedDueToCooldown := 0; trace := [] |}.

(* ----------------------------------------------------------------- *)
(** *** Vocabulary for statements about runs *)

Definition isCheckpointEvent (e : event) : bool :=
  match e with
  | EvCheckpoint _ _ _ _ => true
  | _ => false
  end.

Definition datasetIds (s : State) : list string :=
  map (fun l => placeId (leadPlace l)) (dataset s).

(** Every accepted place is in the dataset or waits in the batch buffer. *)
Definition covered (s : State) : Prop :=
  forall id, In id (allPlaces s) -> In id (datasetIds s) \/ In id (map placeId (batchLeads s)).

(** Every accepted place is in the dataset. *)
Definition allFlushed (s : State) : Prop :=
  forall id, In id (allPlaces s) -> In id (datasetIds s).

Definition batchUpTo (n : nat) (batch : list Place) : Prop := List.length batch <= n.

(** What holds of one saved checkpoint: unless it is the one written after
    a search term, no accepted place is unflushed; in any case fewer than
    [SAVE_INTERVAL] are. *)
Definition checkpointOk (kind : checkpointKind) (pending : list string) : Prop :=
  (kind <> AfterTerm -> pending = []) /\ List.length pending < SAVE_INTERVAL.

Definition traceOk (tr : list event) : Prop :=
  forall kind cityIndex termIndex pending,
    In (EvCheckpoint kind cityIndex termIndex pending) tr -> checkpointOk kind pending.


(** Whether a trace holds a search for term [termIdx] in the city of
    index [cityIndex] of the cohort, in whatever cell; and whether it holds
    a search in a cell other than the first. *)
Definition searchedTerm (cityIndex termIdx : nat) (tr : list event) : bool :=
  existsb (fun e => match e with
                    | EvSearch (Some i) _ _ t => (i =? cityIndex) && (t =? termIdx)
                    | _ => false
                    end) tr.

Definition searchedOuterCell (tr : list event) : bool :=
  existsb (fun e => match e with
                    | EvSearch _ _ boxIdx _ => 0 <? boxIdx
                    | _ => false
                    end) tr.

Definition calledPlaceDetails (tr : list event) : bool :=
  existsb (fun e => match e with
                    | EvPlaceDetails _ => true
                    | _ => false
                    end) tr.

(** A step that leaves the dataset, the accepted set and the batch buffer
    alone and saves no checkpoint. *)
Definition quietStep (s s' : State) : Prop :=
  dataset s' = dataset s /\ allPlaces s' = allPlaces s /\ batchLeads s' = batchLeads s
  /\ exists evs, trace s' = trace s ++ evs /\ existsb isCheckpointEvent evs = false.

(** [quiet m R]: every execution of [m] is a quiet step, and a returned
    value satisfies [R]. *)
Definition quiet {A : Type} (m : M A) (R : A -> Prop) : Prop :=
  forall s, quietStep s (snd (m s)) /\ forall a, fst (m s) = inr a -> R a.

(** The state invariant of the search loop, with a condition on the batch
    buffer. *)
Definition good (B : list Place -> Prop) (s : State) : Prop :=
  traceOk (trace s) /\ NoDup (allPlaces s) /\ covered s /\ B (batchLeads s).

Definition smallBatch (batch : list Place) : Prop := List.length batch < SAVE_INTERVAL.
Definition emptyBatch (batch : list Place) : Prop := batch = [].

(** Procedures that cannot throw. *)
Definition total {A : Type} (m : M A) : Prop :=
  forall s, exists a s', m s = (inr a, s').

(** [triple P m Q]: from a state in [P], [m] returns in a state in [Q], or
    throws in a state whose trace is still in order. *)
Definition triple {A : Type} (P : State -> Prop) (m : M A) (Q : A -> State -> Prop) : Prop :=
  forall s, P s ->
    match m s with
    | (inr a, s') => Q a s'
    | (inl _, s') => traceOk (trace s')
    end.

End Run.

(* ================================================================= *)
(** ** Concrete worlds and inputs used in the examples *)

Module Scenarios.

Import Run.



Definition place1 (id : string) : RawPlace :=
  {| rawId := id; rawDisplayName := id; rawFormattedAddress := EmptyString;
     rawWebsiteUri := EmptyString; rawPhoneNumber := EmptyString |}.

(** A world in which every city geocodes, every search serves one page
    with one place named after the term, no place has details and no
    website answers. *)
Definition quietWorld : World :=
  {| resolveMx := fun _ => true;
     cleanObfuscated := fun s => s;
     firstEmailIn := fun _ => None;
     urlHostname := fun _ => None;
     httpGet := fun _ => None;
     placeDetails := fun _ => None;
     geocode := fun _ => Some (Geo.mkLatLng 0 0);
     parseLatLng := fun _ => Geo.mkLatLng 0 0;
     textSearch := fun _ _ term => [ [ place1 ("place-" ++ term)%string ] ];
     dayOfYear := 0;
     actorRunId := "run-1" |}.

(** A run on the built-in city list: four terms, cohort 0 of ten, a 10 km
    radius (thirteen cells per city). *)
Definition cityRun : Config :=
  {| searchTerms := [ "hair salon"; "nail salon"; "barber shop"; "spa" ]%string;
     location := "San Francisco, CA";
     radiusMeters := 10000;
     maxPerTerm := 60;
     enableRateLimiting := true;
     useTopUSCities := true;
     maxDailyCost := 50;
     cohortCount := 10;
     cityCohortIndex := 0;
     persistDedupe := true;
     cooldownDays := 30 |}.

(** One explicit location, one cell, two terms. *)
Definition singleCellRun : Config :=
  {| searchTerms := [ "hair salon"; "nail salon" ]%string;
     location := "37.7749,-122.4194";
     radiusMeters := 3000;
     maxPerTerm := 60;
     enableRateLimiting := true;
     useTopUSCities := false;
     maxDailyCost := 50;
     cohortCount := 10;
     cityCohortIndex := -1;
     persistDedupe := true;
     cooldownDays := 30 |}.

(** A checkpoint left by a run interrupted in city 2 after term 2. *)
Definition checkpoint_2_3 : Checkpoint :=
  {| processedCities := [0; 1]; currentCityIndex := 2; currentSearchTermIndex := 3 |}.

(** A limiter past a 20 dollar ceiling: 1000 calls are 25.40 dollars. *)
Definition spentLimiter : CostGuard.APIRateLimiter :=
  {| CostGuard.apiCalls := 1000; CostGuard.lastCallTime := 0;
     CostGuard.maxDailyCost := 20; CostGuard.minInterval := 100;
     CostGuard.startTime := 0 |}.

Definition somePlace : Place :=
  {| name := "Cut and Curl"; searchTerm := "hair salon"; formattedAddress := "1 Main St";
     placeId := "ChIJ-1"; website := "https://cutandcurl.example"; phone := "+14155551234";
     emailList := [] |}.

(** Forty search terms around one explicit location, one cell, under a
    ceiling of one dollar: forty calls are estimated at 1.016 dollars. *)
Definition fortyTerms : list string :=
  map (fun n => String (ascii_of_nat (65 + n)) " salon"%string) (seq 0 40).

Definition budgetRun : Config :=
  {| searchTerms := fortyTerms;
     location := "37.7749,-122.4194";
     radiusMeters := 3000;
     maxPerTerm := 60;
     enableRateLimiting := true;
     useTopUSCities := false;
     maxDailyCost := 1;
     cohortCount := 10;
     cityCohortIndex := -1;
     persistDedupe := true;
     cooldownDays := 30 |}.

(** The page and world of the repository's test of [enrichPlaceDetails]:
    a legacy details answer, and a homepage with a mailto link followed by
    a plain address. *)
Definition testHomepage : Document :=
  {| mailtoHrefs := [ "mailto:lead@google.com" ]%string;
     patternMatches := [ [ "lead@google.com"; "info@google.com" ]%string; [];
                         [ "lead@google.com"; "info@google.com" ]%string ];
     ldJsonBlocks := []; dataAttributes := []; base64Decoded := [];
     textEmails := [ "info@google.com" ]%string;
     markupMatches := [ [ "mailto:lead@google.com" ]%string; []; [] ];
     sectionEmails := []; socialLinks := []; contactPageUrls := [] |}.

Definition testWorld : World :=
  {| resolveMx := fun _ => true;
     cleanObfuscated := fun s => s;
     firstEmailIn := fun m => Some (Js.removeFirst "mailto:" m);
     urlHostname := fun _ => Some "google.com"%string;
     httpGet := fun _ => Some testHomepage;
     placeDetails := fun _ =>
       Some {| websiteUri := EmptyString; internationalPhoneNumber := EmptyString;
               legacy_website := "https://google.com"; legacy_websiteUri := EmptyString;
               legacy_international_phone_number := "+1 415-555-1234";
               legacy_internationalPhoneNumber := EmptyString |};
     geocode := fun _ => None;
     parseLatLng := fun _ => Geo.mkLatLng 0 0;
     textSearch := fun _ _ _ => [];
     dayOfYear := 0;
     actorRunId := "test" |}.

End Scenarios.

(* ================================================================= *)
(** ** Vocabulary for the cost guard *)

Module Billing.
Import CostGuard.


End Billing.

(* ================================================================= *)
(** ** The daily rotation *)

Module Rotation.
(** The same world on another day of the year. *)
Definition onDay (w : World) (day : nat) : World :=
  {| resolveMx := resolveMx w; cleanObfuscated := cleanObfuscated w;
     firstEmailIn := firstEmailIn w; urlHostname := urlHostname w;
     httpGet := httpGet w; placeDetails := placeDetails w; geocode := geocode w;
     parseLatLng := parseLatLng w; textSearch := textSearch w;
     dayOfYear := day; actorRunId := actorRunId w |}.

(** [totalCohorts] of [Actor.main]. *)
Definition totalCohorts (cfg : Run.Config) : nat := Z.to_nat (Z.max 1 (Run.cohortCount cfg)).
End Rotation.

(* ================================================================= *)
(** ** The shape of addresses and handles *)

Module Shape.
Import Js Re.

(** The character classes of the two halves of [EMAIL_REGEX]. *)
Definition localChar (c : ascii) : bool :=
  isAlnum c || isChar "." c || isChar "_" c || isChar "-" c.
Definition domainChar (c : ascii) : bool :=
  isAlnum c || isChar "." c || isChar "-" c.

(** Every character class of [r] is inside [p]. *)
Fixpoint within (p : ascii -> bool) (r : regex) : Prop :=
  match r with
  | Void | Eps => True
  | Cls q => forall c, q c = true -> p c = true
  | Cat r1 r2 | Alt r1 r2 => within p r1 /\ within p r2
  | Star r1 => within p r1
  end.

(** A contact that is a social handle found by [enrichPlaceDetails]. *)
Definition isHandle (contact : string) : bool :=
  startsWith "instagram:" contact || startsWith "facebook:" contact.

End Shape.

(* ================================================================= *)
(** ** Invariants of a run *)

Module Invariants.
Import Js Run.

(** [hoare P m Q E]: from a state in [P], [m] returns in a state in [Q]
    or throws in a state in [E]. *)
Definition hoare {A : Type} (P : State -> Prop) (m : M A) (Q : A -> State -> Prop)
    (E : State -> Prop) : Prop :=
  forall s, P s ->
    match m s with
    | (inr a, s') => Q a s'
    | (inl _, s') => E s'
    end.

(** A phone field of the output: empty, or a plus sign and digits. *)
Definition phoneOk (p : string) : Prop :=
  p = EmptyString \/ exists digits, p = String "+" digits /\ allChars isDigit digits = true.

Definition placeOk (p : Place) : Prop :=
  placeId p <> EmptyString /\ List.length (emailList p) <= 6 /\ phoneOk (phone p).

(** The rows of the dataset and the leads of the batch buffer are accepted
    places, each held once, each well formed. *)
Definition rowsOk (s : State) : Prop :=
  NoDup (datasetIds s ++ map placeId (batchLeads s))
  /\ (forall id, In id (datasetIds s ++ map placeId (batchLeads s)) -> In id (allPlaces s))
  /\ Forall (fun row => placeOk (leadPlace row)) (dataset s)
  /\ Forall placeOk (batchLeads s).

(** The same of the dataset alone. *)
Definition rowsFlushed (s : State) : Prop :=
  NoDup (datasetIds s)
  /\ (forall id, In id (datasetIds s) -> In id (allPlaces s))
  /\ Forall (fun row => placeOk (leadPlace row)) (dataset s).

End Invariants.

Module Enrichment.
Import Js Run Invariants.
(** What [enrichPlaceDetails] may change of a place. *)
Definition enriched (place place' : Place) : Prop :=
  placeId place' = placeId place
  /\ name place' = name place
  /\ searchTerm place' = searchTerm place
  /\ formattedAddress place' = formattedAddress place
  /\ List.length (emailList place') <= 6
  /\ (phoneOk (phone place) -> phoneOk (phone place'))
  /\ (website place' = EmptyString -> emailList place' = []).
End Enrichment.

Module Ledger.
Import Js Run Invariants.




End Ledger.

Module Events.
Import Js Run Invariants.

(** The trace of [s] is [tr0] followed by events that all satisfy [ok]. *)
Definition extends (ok : event -> Prop) (tr0 : list event) (s : State) : Prop :=
  exists evs, trace s = tr0 ++ evs /\ Forall ok evs.

Definition isFetch (e : event) : Prop := exists url, e = EvFetch url.

(** The input that [Actor.main] turns away. *)
Definition invalidInput (cfg : Config) : Prop :=
  searchTerms cfg = [] \/ location cfg = EmptyString
  \/ radiusMeters cfg = 0%Z \/ maxPerTerm cfg = 0.

End Events.

(* ================================================================= *)
(** ** Helpers outside the run: [dedupePlaces] and [chunk] *)

Module Helpers.
Import Js Run.

(** [map.has(key)] for a [Map] kept as the list of its entries in
    insertion order. *)
Definition mapHas {V : Type} (key : string) (entries : list (string * V)) : bool :=
  existsb (fun entry => String.eqb (fst entry) key) entries.

(** [dedupePlaces(arr)] *)
Definition dedupePlaces (arr : list Place) : list Place :=
  map snd
    (fold_left (fun entries obj =>
                  if mapHas (placeId obj) entries then entries
                  else entries ++ [ (placeId obj, obj) ])
               arr []).

(** The loop of [chunk(arr, size)] for a non-negative integer [size],
    from index [i] with [out] collected so far; [None] when it has not
    ended after [fuel] iterations. *)
Fixpoint chunkLoop {A : Type} (fuel : nat) (arr : list A) (size i : nat)
    (out : list (list A)) : option (list (list A)) :=
  if List.length arr <=? i then Some out
  else match fuel with
       | O => None
       | S fuel' => chunkLoop fuel' arr size (i + size) (out ++ [ slice i (i + size) arr ])
       end.

Definition chunk {A : Type} (fuel : nat) (arr : list A) (size : nat) : option (list (list A)) :=
  chunkLoop fuel arr size 0 [].

End Helpers.

(* ================================================================= *)
(** ** The Smartlead clean-up script: [identifyDuplicates] *)

Module Smartlead.
Import Js.
















End Smartlead.

(* ================================================================= *)
(** * Properties *)

Example normalizePhone_tests :
  Phone.normalizePhone "(415) 555-1234" = "+14155551234"%string /\
  Phone.normalizePhone "415.555.1234" = "+14155551234"%string /\
  Phone.normalizePhone "+1 415-555-1234" = "+14155551234"%string.
Proof. repeat split; reflexivity. Qed.

(** The repository's own tests of the helpers, replayed on the embedding. *)
Example extractEmails_test :
  Harvest.extractEmails Scenarios.testWorld
    {| mailtoHrefs := [ "mailto:test@example.com" ]%string;
       patternMatches := [ [ "test@example.com"; "info@site.com" ]%string; [];
                           [ "test@example.com"; "info@site.com" ]%string ];
       ldJsonBlocks := []; dataAttributes := []; base64Decoded := [];
       textEmails := []; markupMatches := []; sectionEmails := [];
       socialLinks := []; contactPageUrls := [] |}
  = [ "test@example.com"; "info@site.com" ]%string.
Proof. vm_compute. reflexivity. Qed.

Example enrichPlaceDetails_test :
  fst (Run.enrichPlaceDetails Scenarios.testWorld
         {| Run.name := EmptyString; Run.searchTerm := EmptyString;
            Run.formattedAddress := EmptyString; Run.placeId := "abc";
            Run.website := EmptyString; Run.phone := EmptyString; Run.emailList := [] |}
         (Run.startState 0 None []))
  = inr {| Run.name := EmptyString; Run.searchTerm := EmptyString;
           Run.formattedAddress := EmptyString; Run.placeId := "abc";
           Run.website := "https://google.com"; Run.phone := "+14155551234";
           Run.emailList := [ "lead@google.com"; "info@google.com" ]%string |}.
Proof. vm_compute. reflexivity. Qed.

Example filterBusinessEmails_spec_example :
  Contacts.filterBusinessEmails (fun _ => true) None
    [ "john@google.com"; "jane@yahoo.com"; "test@10minutemail.com" ]%string
  = [ "john@google.com"; "jane@yahoo.com" ]%string.
Proof. vm_compute. reflexivity. Qed.

(* ================================================================= *)
(** ** Regular expressions *)

Section RegexFacts.

Import Re.

Lemma append_empty_inv (u v : string) :
  (u ++ v)%string = EmptyString -> u = EmptyString /\ v = EmptyString.
Proof. destruct u; simpl; [auto | discriminate]. Qed.

Lemma append_nil_r (u : string) : (u ++ EmptyString)%string = u.
Proof. induction u; simpl; congruence. Qed.

Lemma Lang_Void_inv (w : string) : ~ Lang Void w.
Proof. inversion 1. Qed.

Lemma Lang_Eps_inv (w : string) : Lang Eps w -> w = EmptyString.
Proof. now inversion 1. Qed.

Lemma Lang_Cls_inv (p : ascii -> bool) (w : string) :
  Lang (Cls p) w -> exists c, w = String c EmptyString /\ p c = true.
Proof. inversion 1; subst; eauto. Qed.

Lemma Lang_Cat_inv (r s : regex) (w : string) :
  Lang (Cat r s) w -> exists u v, w = (u ++ v)%string /\ Lang r u /\ Lang s v.
Proof. inversion 1; subst; eauto. Qed.

Lemma Lang_Alt_inv (r s : regex) (w : string) : Lang (Alt r s) w -> Lang r w \/ Lang s w.
Proof. inversion 1; subst; auto. Qed.

Lemma Lang_prepend (r s : regex) (c : ascii) (u v : string) :
  Lang r (String c u) -> Lang s v -> Lang (Cat r s) (String c (u ++ v)).
Proof. intros Hu Hv. exact (LangCat Hu Hv). Qed.

Lemma nullable_Lang (r : regex) : nullable r = true <-> Lang r EmptyString.
Proof.
  induction r as [| | p | r IHr s IHs | r IHr s IHs | r IHr]; simpl.
  - split; [discriminate | intros H; destruct (Lang_Void_inv H)].
  - split; [constructor | reflexivity].
  - split; [discriminate |].
    intros H. apply Lang_Cls_inv in H as (c & Hc & _). discriminate Hc.
  - rewrite andb_true_iff, IHr, IHs. split.
    + intros [Hr Hs]. exact (LangCat Hr Hs).
    + intros H. apply Lang_Cat_inv in H as (u & v & Heq & Hu & Hv).
      symmetry in Heq. apply append_empty_inv in Heq as [-> ->]. now split.
  - rewrite orb_true_iff, IHr, IHs. split.
    + intros [Hr | Hs]; [now apply LangAltL | now apply LangAltR].
    + apply Lang_Alt_inv.
  - split; [constructor | reflexivity].
Qed.

Lemma Lang_cat (r s : regex) (w : string) : Lang (cat r s) w <-> Lang (Cat r s) w.
Proof.
  assert (Hvoid_l : forall t, Lang Void w <-> Lang (Cat Void t) w).
  { intros t. split; intros H; [destruct (Lang_Void_inv H) |].
    apply Lang_Cat_inv in H as (u & v & _ & Hu & _). destruct (Lang_Void_inv Hu). }
  assert (Hvoid_r : forall t, Lang Void w <-> Lang (Cat t Void) w).
  { intros t. split; intros H; [destruct (Lang_Void_inv H) |].
    apply Lang_Cat_inv in H as (u & v & _ & _ & Hv). destruct (Lang_Void_inv Hv). }
  assert (Heps : forall t, Lang t w <-> Lang (Cat Eps t) w).
  { intros t. split; intros H.
    - exact (LangCat LangEps H).
    - apply Lang_Cat_inv in H as (u & v & -> & Hu & Hv).
      apply Lang_Eps_inv in Hu. now subst u. }
  unfold cat. destruct r; destruct s; auto; reflexivity.
Qed.

Lemma Lang_alt (r s : regex) (w : string) : Lang (alt r s) w <-> Lang (Alt r s) w.
Proof.
  assert (Hvoid_l : forall t, Lang t w <-> Lang (Alt Void t) w).
  { intros t. split; intros H; [now apply LangAltR |].
    apply Lang_Alt_inv in H as [H | H]; [destruct (Lang_Void_inv H) | exact H]. }
  assert (Hvoid_r : forall t, Lang t w <-> Lang (Alt t Void) w).
  { intros t. split; intros H; [now apply LangAltL |].
    apply Lang_Alt_inv in H as [H | H]; [exact H | destruct (Lang_Void_inv H)]. }
  unfold alt. destruct r; destruct s; auto; reflexivity.
Qed.

Lemma Lang_star_cons (r : regex) (c : ascii) (s : string) :
  Lang (Star r) (String c s) ->
  exists u v, s = (u ++ v)%string /\ Lang r (String c u) /\ Lang (Star r) v.
Proof.
  intros H. remember (Star r) as sr eqn:Hsr. remember (String c s) as cs eqn:Hcs.
  revert r c s Hsr Hcs.
  induction H as [| | | | | | r' u v Hu _ Hv IHv]; intros r0 c0 s0 Hsr Hcs;
    try discriminate.
  injection Hsr as ->. destruct u as [| c' u]; simpl in Hcs.
  - now apply IHv.
  - injection Hcs as -> <-. now exists u, v.
Qed.

Lemma deriv_Lang (r : regex) (c : ascii) (s : string) :
  Lang (deriv c r) s <-> Lang r (String c s).
Proof.
  revert s. induction r as [| | p | r IHr r2 IHr2 | r IHr r2 IHr2 | r IHr]; intros s; simpl.
  - split; intros H; destruct (Lang_Void_inv H).
  - split; intros H; [destruct (Lang_Void_inv H) |].
    apply Lang_Eps_inv in H. discriminate H.
  - destruct (p c) eqn:Hp; split; intros H.
    + apply Lang_Eps_inv in H. subst s. now constructor.
    + apply Lang_Cls_inv in H as (c' & Heq & _). injection Heq as _ ->. constructor.
    + destruct (Lang_Void_inv H).
    + apply Lang_Cls_inv in H as (c' & Heq & Hc'). injection Heq as <- _. congruence.
  - assert (Hleft : Lang (cat (deriv c r) r2) s <->
                    exists u v, s = (u ++ v)%string /\ Lang r (String c u) /\ Lang r2 v).
    { rewrite Lang_cat. split.
      - intros H. apply Lang_Cat_inv in H as (u & v & -> & Hu & Hv).
        exists u, v. split; [reflexivity |]. split; [now apply IHr | assumption].
      - intros (u & v & -> & Hu & Hv). apply LangCat; [now apply IHr | assumption]. }
    assert (Hsplit : Lang (Cat r r2) (String c s) <->
                     (Lang r EmptyString /\ Lang r2 (String c s))
                     \/ exists u v, s = (u ++ v)%string /\ Lang r (String c u) /\ Lang r2 v).
    { split.
      - intros H. apply Lang_Cat_inv in H as (u & v & Heq & Hu & Hv).
        destruct u as [| c' u]; simpl in Heq.
        + subst v. now left.
        + injection Heq as <- ->. right. now exists u, v.
      - intros [[Hr Hr2] | (u & v & -> & Hu & Hv)].
        + exact (LangCat Hr Hr2).
        + now apply Lang_prepend. }
    rewrite Hsplit. destruct (nullable r) eqn:Hnull.
    + rewrite Lang_alt. split.
      * intros H. apply Lang_Alt_inv in H as [H | H].
        -- right. now apply Hleft.
        -- left. split; [now apply nullable_Lang | now apply IHr2].
      * intros [[_ Hr2] | H].
        -- apply LangAltR. now apply IHr2.
        -- apply LangAltL. now apply Hleft.
    + rewrite Hleft. split.
      * intros H. now right.
      * intros [[Hr _] | H]; [| exact H].
        apply nullable_Lang in Hr. congruence.
  - rewrite Lang_alt. split; intros H; apply Lang_Alt_inv in H as [H | H];
      (apply LangAltL; now apply IHr) || (apply LangAltR; now apply IHr2).
  - rewrite Lang_cat. split.
    + intros H. apply Lang_Cat_inv in H as (u & v & -> & Hu & Hv).
      change (String c (u ++ v)) with (String c u ++ v)%string.
      apply LangStarCons; [now apply IHr | assumption].
    + intros H. apply Lang_star_cons in H as (u & v & -> & Hu & Hv).
      apply LangCat; [now apply IHr | assumption].
Qed.

(** The derivative matcher decides membership in the language. *)
Lemma matches_Lang (r : regex) (s : string) : matches r s = true <-> Lang r s.
Proof.
  revert r. induction s as [| c s IH]; intros r; simpl.
  - apply nullable_Lang.
  - rewrite IH. apply deriv_Lang.
Qed.

End RegexFacts.

(* ================================================================= *)
(** ** Cost guard *)

Section CostGuardFacts.

Import CostGuard.








End CostGuardFacts.

(* ================================================================= *)
(** ** Cohort scheduler *)

Section CohortFacts.

Import Cohort.

Variable A : Type.

Lemma ceilDiv_covers (len count : nat) :
  1 <= count -> len <= ceilDiv len count * count.
Proof.
  intros Hc. unfold ceilDiv.
  pose proof (Nat.div_mod_eq (len + (count - 1)) count) as Hdm.
  pose proof (Nat.mod_upper_bound (len + (count - 1)) count ltac:(lia)) as Hub.
  nia.
Qed.

Lemma ceilDiv_positive (len count : nat) :
  1 <= count -> 1 <= len -> 1 <= ceilDiv len count.
Proof.
  intros Hc Hl. unfold ceilDiv.
  apply Nat.div_le_lower_bound; lia.
Qed.

Lemma firstn_plus (k c : nat) (l : list A) :
  firstn (k + c) l = firstn k l ++ firstn c (skipn k l).
Proof.
  revert l. induction k as [| k IH]; intros l; simpl.
  - reflexivity.
  - destruct l as [| x l]; simpl.
    + now rewrite firstn_nil.
    + now rewrite IH.
Qed.

Lemma getCitiesForCohort_chunk (l : list A) (i count : nat) :
  getCitiesForCohort l i count
  = firstn (ceilDiv (List.length l) count) (skipn (i * ceilDiv (List.length l) count) l).
Proof.
  unfold getCitiesForCohort, Js.slice.
  set (c := ceilDiv (List.length l) count). set (start := i * c).
  destruct (Nat.le_gt_cases start (List.length l)) as [Hin | Hout].
  - replace (Nat.min (start + c) (List.length l) - start)
      with (Nat.min c (List.length (skipn start l)))
      by (rewrite length_skipn; lia).
    rewrite <- firstn_firstn. now rewrite firstn_all.
  - rewrite (skipn_all2 l) by lia. now rewrite !firstn_nil.
Qed.

Lemma concat_chunks (c n : nat) (l : list A) :
  List.concat (map (fun i => firstn c (skipn (i * c) l)) (seq 0 n)) = firstn (n * c) l.
Proof.
  induction n as [| n IH].
  - reflexivity.
  - rewrite seq_S, map_app, concat_app, IH. simpl.
    rewrite app_nil_r. replace (c + n * c) with (n * c + c) by lia.
    now rewrite firstn_plus.
Qed.

Lemma allCohorts_all (l : list A) (count : nat) :
  1 <= count -> allCohorts l count = l.
Proof.
  intros Hc. unfold allCohorts.
  rewrite (map_ext _ (fun i => firstn (ceilDiv (List.length l) count)
                                 (skipn (i * ceilDiv (List.length l) count) l)))
    by (intros i; apply getCitiesForCohort_chunk).
  rewrite concat_chunks. apply firstn_all2.
  pose proof (ceilDiv_covers (List.length l) Hc). lia.
Qed.

(** Membership in a cohort, by position in the city list. *)
Lemma In_cohort_position (l : list A) (i count : nat) (x : A) :
  In x (getCitiesForCohort l i count) <->
  exists k, cohortStart (List.length l) i count <= k < cohortEnd (List.length l) i count
            /\ nth_error l k = Some x.
Proof.
  rewrite getCitiesForCohort_chunk. unfold cohortEnd, cohortStart.
  set (c := ceilDiv (List.length l) count). split.
  - intros Hin. apply In_nth_error in Hin as [o Ho].
    rewrite nth_error_firstn in Ho.
    destruct (o <? c) eqn:Hoc; [| discriminate].
    apply Nat.ltb_lt in Hoc. rewrite nth_error_skipn in Ho.
    exists (i * c + o). split; [| exact Ho].
    assert (i * c + o < List.length l)
      by (apply nth_error_Some; rewrite Ho; discriminate).
    lia.
  - intros [k [[Hlo Hhi] Hk]].
    apply (nth_error_In _ (k - i * c)).
    rewrite nth_error_firstn.
    replace (k - i * c <? c) with true by (symmetry; apply Nat.ltb_lt; lia).
    rewrite nth_error_skipn. now replace (i * c + (k - i * c)) with k by lia.
Qed.

Lemma position_in_one_cohort (len count k : nat) :
  1 <= count <= len -> k < len ->
  k / ceilDiv len count < count
  /\ forall j, cohortStart len j count <= k < cohortEnd len j count
               <-> j = k / ceilDiv len count.
Proof.
  intros [Hc Hl] Hk. unfold cohortEnd, cohortStart.
  pose proof (ceilDiv_covers len Hc) as Hcov.
  assert (Hpos : 1 <= ceilDiv len count) by (apply ceilDiv_positive; lia).
  set (c := ceilDiv len count) in *.
  pose proof (Nat.div_mod_eq k c) as Hdm.
  pose proof (Nat.mod_upper_bound k c ltac:(lia)) as Hub.
  split.
  - apply Nat.Div0.div_lt_upper_bound. nia.
  - intros j. split.
    + intros [Hlo Hhi]. apply (Nat.div_unique k c j (k - j * c)); lia.
    + intros ->. nia.
Qed.

(** C5. For a cohort count between 1 and the length of the city list, the
    slices of size ceil(len/cohortCount) taken for the cohorts
    0 .. cohortCount-1 and concatenated in order give back the list; every
    position of the list lies in the slice bounds of exactly one cohort, and
    that cohort holds the city of this position; so when no city is listed
    twice, every city is in exactly one cohort. *)
Theorem cohort_slices_partition (allCities : list A) (cohortCount : nat) :
  1 <= cohortCount <= List.length allCities ->
  allCohorts allCities cohortCount = allCities
  /\ (forall k, k < List.length allCities ->
        exists i, i < cohortCount
          /\ (forall j, cohortStart (List.length allCities) j cohortCount <= k
                          < cohortEnd (List.length allCities) j cohortCount
                        <-> j = i)
          /\ nth_error (getCitiesForCohort allCities i cohortCount)
                       (k - cohortStart (List.length allCities) i cohortCount)
             = nth_error allCities k)
  /\ (NoDup allCities ->
      forall city, In city allCities ->
        exists i, i < cohortCount
          /\ forall j, In city (getCitiesForCohort allCities j cohortCount) <-> j = i).
Proof.
  intros Hrange. split; [| split].
  - apply allCohorts_all. lia.
  - intros k Hk.
    destruct (position_in_one_cohort Hrange Hk) as [Hi Huniq].
    exists (k / ceilDiv (List.length allCities) cohortCount).
    split; [exact Hi | split; [exact Huniq |]].
    destruct (proj2 (Huniq _) eq_refl) as [Hlo Hhi].
    rewrite getCitiesForCohort_chunk, nth_error_firstn.
    unfold cohortEnd, cohortStart in *.
    match goal with
    | |- (if ?b then _ else _) = _ => replace b with true
        by (symmetry; apply Nat.ltb_lt; lia)
    end.
    rewrite nth_error_skipn. f_equal. lia.
  - intros Hnodup city Hin.
    apply In_nth_error in Hin as [k Hk].
    assert (Hlt : k < List.length allCities)
      by (apply nth_error_Some; rewrite Hk; discriminate).
    destruct (position_in_one_cohort Hrange Hlt) as [Hi Huniq].
    exists (k / ceilDiv (List.length allCities) cohortCount).
    split; [exact Hi |]. intros j. rewrite In_cohort_position. split.
    + intros [k' [Hbounds Hk']].
      assert (k = k') as <-.
      { apply (proj1 (NoDup_nth_error allCities) Hnodup); [exact Hlt | congruence]. }
      now apply Huniq.
    + intros ->. exists k. split; [now apply Huniq | exact Hk].
Qed.

End CohortFacts.

(** The 104 built-in cities in the default ten cohorts. *)
Lemma cohort_slices_partition_witness :
  Cohort.allCohorts Run.TOP_US_CITIES 10 = Run.TOP_US_CITIES.
Proof.
  apply (proj1 (@cohort_slices_partition string Run.TOP_US_CITIES 10
                  ltac:(vm_compute; split; lia))).
Defined.

(* ================================================================= *)
(** ** Geo partitioner *)

Section GeoFacts.

Import Geo.
Local Open Scope R_scope.

Lemma ceilZ_bounds (a b : Z) :
  (0 < b)%Z -> ((ceilZ a b - 1) * b < a <= ceilZ a b * b)%Z.
Proof.
  intros Hb. unfold ceilZ.
  pose proof (Z.mul_div_le (- a) b Hb).
  pose proof (Z.mul_succ_div_gt (- a) b Hb).
  lia.
Qed.

Lemma nth_error_blocks (X Y : Type) (f : X -> list Y) (c : nat) (l : list X) :
  (forall x, List.length (f x) = c) ->
  forall r i, (i < c)%nat ->
    nth_error (flat_map f l) (r * c + i)
    = match nth_error l r with
      | Some x => nth_error (f x) i
      | None => None
      end.
Proof.
  intros Hlen. induction l as [| x l IH]; intros r i Hi.
  - simpl. destruct (r * c + i)%nat; destruct r; reflexivity.
  - simpl flat_map. destruct r as [| r].
    + simpl. apply nth_error_app1. now rewrite Hlen.
    + rewrite nth_error_app2 by (rewrite Hlen; simpl; lia).
      rewrite Hlen. replace (S r * c + i - c)%nat with (r * c + i)%nat by (simpl; lia).
      simpl. now apply IH.
Qed.

Lemma ringCenters_length (centerLat centerLng : R) (boxRadius : Z) (ring : nat) :
  List.length (ringCenters centerLat centerLng boxRadius ring) = 6%nat.
Proof. reflexivity. Qed.

Lemma bearing_sixty (i : nat) : INR i * PI / 3 = degToRad (60 * INR i).
Proof. unfold degToRad. field. Qed.

Lemma ringCenters_nth (centerLat centerLng : R) (boxRadius : Z) (ring i : nat) :
  (i < 6)%nat ->
  nth_error (ringCenters centerLat centerLng boxRadius ring) i
  = Some {| lat := centerLat
                   + metersToLatDegrees (INR ring * IZR boxRadius) * cos (degToRad (60 * INR i));
            lng := centerLng
                   + metersToLngDegrees centerLat (INR ring * IZR boxRadius)
                     * sin (degToRad (60 * INR i)) |}.
Proof.
  intros Hi. unfold ringCenters.
  rewrite nth_error_map, nth_error_seq.
  replace (i <? 6)%nat with true by (symmetry; now apply Nat.ltb_lt).
  simpl option_map. rewrite bearing_sixty. reflexivity.
Qed.

Lemma generate_structure (centerLat centerLng : R) (radiusMeters boxRadius : Z) :
  let numRings := Z.to_nat (ceilZ radiusMeters boxRadius) in
  let centers := generateHexagonalGeoboxCenters centerLat centerLng radiusMeters boxRadius in
  List.length centers = (1 + 6 * numRings)%nat
  /\ nth_error centers 0 = Some {| lat := centerLat; lng := centerLng |}
  /\ forall ring i, (1 <= ring <= numRings)%nat -> (i < 6)%nat ->
       nth_error centers (1 + 6 * (ring - 1) + i)
       = Some {| lat := centerLat
                        + metersToLatDegrees (INR ring * IZR boxRadius)
                          * cos (degToRad (60 * INR i));
                 lng := centerLng
                        + metersToLngDegrees centerLat (INR ring * IZR boxRadius)
                          * sin (degToRad (60 * INR i)) |}.
Proof.
  intros numRings centers. subst centers. unfold generateHexagonalGeoboxCenters.
  fold numRings. split; [| split].
  - simpl List.length.
    rewrite (flat_map_constant_length (c := 6)), length_seq by (intros; reflexivity).
    lia.
  - reflexivity.
  - intros ring i Hring Hi.
    replace (1 + 6 * (ring - 1) + i)%nat with (S ((ring - 1) * 6 + i)) by lia.
    simpl nth_error.
    rewrite (nth_error_blocks _ (c := 6)) by (auto using ringCenters_length).
    rewrite nth_error_seq.
    replace (ring - 1 <? numRings)%nat with true by (symmetry; apply Nat.ltb_lt; lia).
    replace (1 + (ring - 1))%nat with ring by lia.
    now apply ringCenters_nth.
Qed.

(** C6. A target radius of at most 5000 m is searched as one cell, the
    center.  A larger radius is covered by [generateHexagonalGeoboxCenters]
    with cells of 5000 m; for any positive cell radius that function
    returns 1 + 6 * ceil(radiusMeters / cellRadius) centers: the input
    center first, then for each ring 1 .. ceil(radiusMeters / cellRadius)
    six points at bearings 0, 60, ..., 300 degrees whose offsets in degrees
    of latitude and longitude are those of the distance ring * cellRadius. *)
Theorem geobox_partition_structure (center : LatLng) (radiusMeters : Z) :
  ((radiusMeters <= 5000)%Z -> geoboxCentersFor center radiusMeters = [center])
  /\ ((5000 < radiusMeters)%Z ->
        geoboxCentersFor center radiusMeters
        = generateHexagonalGeoboxCenters (lat center) (lng center) radiusMeters 5000)
  /\ forall cellRadius : Z, (0 < cellRadius)%Z ->
       let numRings := Z.to_nat (ceilZ radiusMeters cellRadius) in
       let centers :=
         generateHexagonalGeoboxCenters (lat center) (lng center) radiusMeters cellRadius in
       ((0 < radiusMeters)%Z ->
          ((Z.of_nat numRings - 1) * cellRadius < radiusMeters
           <= Z.of_nat numRings * cellRadius)%Z)
       /\ List.length centers = (1 + 6 * numRings)%nat
       /\ nth_error centers 0 = Some center
       /\ forall ring i, (1 <= ring <= numRings)%nat -> (i < 6)%nat ->
            nth_error centers (1 + 6 * (ring - 1) + i)
            = Some {| lat := lat center
                             + metersToLatDegrees (INR ring * IZR cellRadius)
                               * cos (degToRad (60 * INR i));
                      lng := lng center
                             + metersToLngDegrees (lat center) (INR ring * IZR cellRadius)
                               * sin (degToRad (60 * INR i)) |}.
Proof.
  split; [| split].
  - intros Hsmall. unfold geoboxCentersFor.
    replace (radiusMeters >? 5000)%Z with false
      by (symmetry; rewrite Z.gtb_ltb; apply Z.ltb_ge; lia).
    now destruct center.
  - intros Hlarge. unfold geoboxCentersFor, boxRadiusFor.
    now replace (radiusMeters >? 5000)%Z with true
      by (symmetry; rewrite Z.gtb_ltb; apply Z.ltb_lt; lia).
  - intros cellRadius Hcell. cbv zeta.
    destruct (generate_structure (lat center) (lng center) radiusMeters cellRadius)
      as [Hlen [Hfirst Hrings]].
    split; [| split; [exact Hlen | split; [| exact Hrings]]].
    + intros Hpos. pose proof (ceilZ_bounds radiusMeters Hcell) as Hb.
      rewrite Z2Nat.id; [exact Hb |]. nia.
    + rewrite Hfirst. now destruct center.
Qed.

(** A 12 km radius: three rings of 5000 m cells, 19 centers. *)
Lemma geobox_partition_structure_witness :
  List.length (generateHexagonalGeoboxCenters 0 0 12000 5000) = 19%nat.
Proof.
  exact (proj1 (proj2 (proj2 (proj2 (geobox_partition_structure (mkLatLng 0 0) 12000))
                         5000%Z ltac:(lia)))).
Defined.

End GeoFacts.

(* ================================================================= *)
(** ** Phone normalisation *)

Section PhoneFacts.

Import Js Phone.

Lemma allChars_filterChars (p : ascii -> bool) (s : string) :
  allChars p (filterChars p s) = true.
Proof.
  induction s as [| c s IH]; simpl; [reflexivity |].
  destruct (p c) eqn:Hc; simpl; [now rewrite Hc |]; exact IH.
Qed.

Lemma allChars_dropChars (p : ascii -> bool) (n : nat) (s : string) :
  allChars p s = true -> allChars p (dropChars n s) = true.
Proof.
  revert s. induction n as [| n IH]; intros s Hs; simpl; [exact Hs |].
  destruct s as [| c s]; [reflexivity |].
  simpl in Hs. apply andb_prop in Hs as [_ Hs]. now apply IH.
Qed.

Lemma truthy_nonempty (s : string) : s <> EmptyString -> truthy s = true.
Proof.
  intros Hs. unfold truthy. now apply negb_true_iff, String.eqb_neq.
Qed.

(** C7, as the code has it.  The empty string is returned as it is; for
    every other input the result is a plus sign followed by digits only;
    and an input whose digits are a ten-digit number, alone or after the
    country code 1, whatever punctuation, parentheses, spaces or plus sign
    surround them, gives +1 followed by the ten digits. *)
Theorem normalizePhone_canonical :
  normalizePhone EmptyString = EmptyString
  /\ forall phone : string, phone <> EmptyString ->
       (exists digits, normalizePhone phone = String "+" digits
                       /\ allChars isDigit digits = true)
       /\ forall ten, String.length ten = 10 ->
            filterChars isDigit phone = ten \/ filterChars isDigit phone = String "1" ten ->
            normalizePhone phone = String "+" (String "1" ten).
Proof.
  split; [reflexivity |]. intros phone Hne.
  unfold normalizePhone. rewrite (truthy_nonempty Hne). simpl negb. cbv iota.
  pose proof (allChars_filterChars isDigit phone) as Hall.
  set (raw := filterChars isDigit phone) in *.
  split.
  - set (digits := if (String.length raw =? 10) then String "1" raw else raw).
    assert (Hdigits : allChars isDigit digits = true).
    { subst digits. destruct (String.length raw =? 10); [simpl |]; exact Hall. }
    destruct ((String.length digits =? 11) && startsWith "1" digits).
    + eauto.
    + destruct (startsWith "00" digits).
      * eexists. split; [reflexivity |]. now apply allChars_dropChars.
      * eauto.
  - intros ten Hten [Hraw | Hraw]; rewrite Hraw;
      repeat (simpl String.length; rewrite Hten; simpl Nat.eqb; cbv iota);
      simpl startsWith; now destruct ten.
Qed.

Lemma normalizePhone_canonical_witness :
  normalizePhone "(415) 555-1234" = "+14155551234"%string.
Proof.
  apply (proj2 (proj2 normalizePhone_canonical "(415) 555-1234"%string
                  ltac:(discriminate))
               "4155551234"%string eq_refl (or_introl eq_refl)).
Defined.

(** The empty input is answered with the empty string, which does not
    start with a plus sign. *)
Lemma normalizePhone_empty_counterexample :
  ~ (forall phone : string,
       exists digits, normalizePhone phone = String "+" digits
                      /\ allChars isDigit digits = true).
Proof.
  intros Hall. destruct (Hall EmptyString) as [digits [Heq _]]. discriminate Heq.
Qed.

End PhoneFacts.

(* ================================================================= *)
(** ** Contact scoring *)

Section ContactFacts.

Import Js Contacts.

Lemma insertByScore_perm (x : Scored) (l : list Scored) :
  Permutation (insertByScore x l) (x :: l).
Proof.
  induction l as [| y l IH]; simpl.
  - apply Permutation_refl.
  - destruct (score y <=? score x)%Z.
    + apply Permutation_refl.
    + eapply perm_trans; [apply perm_skip, IH | apply perm_swap].
Qed.

Lemma sortByScoreDesc_perm (l : list Scored) : Permutation (sortByScoreDesc l) l.
Proof.
  induction l as [| x l IH]; simpl.
  - apply perm_nil.
  - eapply perm_trans; [apply insertByScore_perm | now apply perm_skip].
Qed.

Lemma insertByScore_sorted (x : Scored) (l : list Scored) :
  StronglySorted scoreDescending l -> StronglySorted scoreDescending (insertByScore x l).
Proof.
  induction 1 as [| y l Hsorted IH Hall]; simpl.
  - repeat constructor.
  - destruct (score y <=? score x)%Z eqn:Hcmp.
    + apply Z.leb_le in Hcmp. constructor.
      * now constructor.
      * constructor; [exact Hcmp |].
        eapply Forall_impl; [| exact Hall].
        unfold scoreDescending. intros z Hz. lia.
    + apply Z.leb_gt in Hcmp. constructor; [exact IH |].
      eapply Permutation_Forall.
      * symmetry. apply insertByScore_perm.
      * constructor; [unfold scoreDescending; lia | exact Hall].
Qed.

Lemma sortByScoreDesc_sorted (l : list Scored) :
  StronglySorted scoreDescending (sortByScoreDesc l).
Proof.
  induction l as [| x l IH]; simpl.
  - constructor.
  - now apply insertByScore_sorted.
Qed.

Lemma scoreContact_mx_ext (mx1 mx2 : string -> bool) (wd : option string) (contact : string) :
  mx1 (domainOf (toLowerCase contact)) = mx2 (domainOf (toLowerCase contact)) ->
  scoreContact mx1 wd contact = scoreContact mx2 wd contact.
Proof. intros Heq. unfold scoreContact. now rewrite Heq. Qed.

Lemma scoreContact_passes (resolveMx : string -> bool) (wd : option string) (contact : string) :
  passesOtherRules resolveMx contact = true ->
  scoreContact resolveMx wd contact
  = Some {| email := contact;
            score := if isAggregatorDomain (domainOf (toLowerCase contact))
                     then (tierScore wd contact - 50)%Z
                     else tierScore wd contact |}.
Proof.
  unfold passesOtherRules, scoreContact. intros Hpass.
  repeat (apply andb_prop in Hpass as [Hpass ?]).
  repeat match goal with
         | H : negb _ = true |- _ => apply negb_true_iff in H
         end.
  repeat match goal with H : _ = _ |- _ => rewrite H end.
  reflexivity.
Qed.

Lemma validEmails_In (resolveMx : string -> bool) (wd : option string)
    (emailList : list string) (contact : string) (entry : Scored) :
  In contact emailList ->
  scoreContact resolveMx wd contact = Some entry ->
  In entry (validEmails resolveMx wd emailList).
Proof.
  intros Hin Hscore. induction emailList as [| c rest IH]; [contradiction |].
  simpl. destruct Hin as [-> | Hin].
  - rewrite Hscore. now left.
  - destruct (scoreContact resolveMx wd c); [right |]; now apply IH.
Qed.

Lemma endsWith_refl (s : string) : endsWith s s = true.
Proof. destruct s; cbn [endsWith]; now rewrite String.eqb_refl. Qed.

Lemma listed_aggregator_is_penalised (domain : string) :
  arrayIncludes AGGREGATOR_DOMAINS domain = true -> isAggregatorDomain domain = true.
Proof.
  unfold arrayIncludes, isAggregatorDomain. rewrite !existsb_exists.
  intros [d [Hin Heq]]. apply String.eqb_eq in Heq. subst d.
  exists domain. split; [exact Hin | apply endsWith_refl].
Qed.

Lemma filterBusinessEmails_unfold (resolveMx : string -> bool) (wd : option string)
    (emailList : list string) :
  filterBusinessEmails resolveMx wd emailList
  = map email (firstn 6 (sortByScoreDesc (validEmails resolveMx wd emailList))).
Proof. unfold filterBusinessEmails, slice. simpl skipn. apply firstn_map. Qed.

(** C8. Whatever the MX lookup answers, [filterBusinessEmails] returns at
    most 6 entries: the first six of the scored contacts arranged by score,
    highest first.  For the three addresses of the specification, when
    google.com and yahoo.com have a mail exchanger, the disposable address
    is left out and john@google.com comes before jane@yahoo.com. *)
Theorem filterBusinessEmails_top_six (resolveMx : string -> bool)
    (websiteDomain : option string) (emailList : list string) :
  List.length (filterBusinessEmails resolveMx websiteDomain emailList) <= 6
  /\ (exists ranked,
        Permutation ranked (validEmails resolveMx websiteDomain emailList)
        /\ StronglySorted scoreDescending ranked
        /\ filterBusinessEmails resolveMx websiteDomain emailList
           = map email (firstn 6 ranked))
  /\ (resolveMx "google.com"%string = true ->
      resolveMx "yahoo.com"%string = true ->
      filterBusinessEmails resolveMx None
        [ "john@google.com"; "jane@yahoo.com"; "test@10minutemail.com" ]%string
      = [ "john@google.com"; "jane@yahoo.com" ]%string).
Proof.
  split; [| split].
  - rewrite filterBusinessEmails_unfold, length_map. apply firstn_le_length.
  - exists (sortByScoreDesc (validEmails resolveMx websiteDomain emailList)).
    split; [apply sortByScoreDesc_perm |].
    split; [apply sortByScoreDesc_sorted | apply filterBusinessEmails_unfold].
  - intros Hgoogle Hyahoo. unfold filterBusinessEmails. cbn [validEmails].
    rewrite (scoreContact_mx_ext resolveMx (fun _ => true) None "john@google.com")
      by (vm_compute; exact Hgoogle).
    rewrite (scoreContact_mx_ext resolveMx (fun _ => true) None "jane@yahoo.com")
      by (vm_compute; exact Hyahoo).
    replace (scoreContact resolveMx None "test@10minutemail.com") with (@None Scored)
      by (vm_compute; reflexivity).
    vm_compute. reflexivity.
Qed.

Lemma filterBusinessEmails_top_six_witness :
  Contacts.filterBusinessEmails (fun _ => true) None
    [ "john@google.com"; "jane@yahoo.com"; "test@10minutemail.com" ]%string
  = [ "john@google.com"; "jane@yahoo.com" ]%string.
Proof.
  exact (proj2 (proj2 (filterBusinessEmails_top_six (fun _ => true) None []))
               eq_refl eq_refl).
Defined.

(** C9, as the code has it.  An address of the input whose domain is on the
    aggregator list and that passes every other rule is never turned away:
    it is kept among the scored contacts with its tier score less 50.  It is
    returned whenever at most six contacts were scored, in particular when
    it is filtered alone; otherwise the cut to six may drop it. *)
Theorem aggregator_penalised_not_rejected (resolveMx : string -> bool)
    (websiteDomain : option string) (emailList : list string) (contact : string) :
  In contact emailList ->
  passesOtherRules resolveMx contact = true ->
  arrayIncludes AGGREGATOR_DOMAINS (domainOf (toLowerCase contact)) = true ->
  In {| email := contact; score := (tierScore websiteDomain contact - 50)%Z |}
     (validEmails resolveMx websiteDomain emailList)
  /\ (List.length (validEmails resolveMx websiteDomain emailList) <= 6 ->
      In contact (filterBusinessEmails resolveMx websiteDomain emailList))
  /\ filterBusinessEmails resolveMx websiteDomain [contact] = [contact].
Proof.
  intros Hin Hpass Hagg.
  pose proof (scoreContact_passes resolveMx websiteDomain contact Hpass) as Hscore.
  rewrite (listed_aggregator_is_penalised _ Hagg) in Hscore.
  pose proof (validEmails_In resolveMx websiteDomain emailList contact Hin Hscore) as Hvalid.
  split; [exact Hvalid | split].
  - intros Hsix. rewrite filterBusinessEmails_unfold.
    rewrite firstn_all2
      by (now rewrite (Permutation_length (sortByScoreDesc_perm _))).
    apply (in_map email) in Hvalid. simpl in Hvalid.
    apply in_map_iff.
    exists {| email := contact; score := (tierScore websiteDomain contact - 50)%Z |}.
    split; [reflexivity |].
    apply (Permutation_in _ (Permutation_sym (sortByScoreDesc_perm _))).
    now apply (validEmails_In resolveMx websiteDomain emailList contact Hin).
  - unfold filterBusinessEmails. cbn [validEmails]. now rewrite Hscore.
Qed.

Lemma aggregator_penalised_not_rejected_witness :
  In {| email := "bob@wordpress.com"; score := 50 |}
     (validEmails (fun _ => true) None [ "bob@wordpress.com" ]%string).
Proof.
  exact (proj1 (aggregator_penalised_not_rejected (fun _ => true) None
                  [ "bob@wordpress.com" ]%string "bob@wordpress.com"
                  (or_introl eq_refl)
                  ltac:(vm_compute; reflexivity) ltac:(vm_compute; reflexivity))).
Defined.

(** With six business addresses ahead of it, bob@wordpress.com passes every
    rule, is scored 50, and is cut from the result. *)
Lemma aggregator_cut_by_truncation_counterexample :
  ~ (forall (resolveMx : string -> bool) (websiteDomain : option string)
            (emailList : list string) (contact : string),
       In contact emailList ->
       passesOtherRules resolveMx contact = true ->
       arrayIncludes AGGREGATOR_DOMAINS (domainOf (toLowerCase contact)) = true ->
       In contact (filterBusinessEmails resolveMx websiteDomain emailList)).
Proof.
  intros Hkept.
  specialize (Hkept (fun _ => true) None
    [ "john@google.com"; "jane.doe@microsoft.com"; "ceo@apple.com";
      "normal@google.com"; "user@google.com"; "lead@google.com";
      "bob@wordpress.com" ]%string
    "bob@wordpress.com"%string
    ltac:(simpl; tauto) ltac:(vm_compute; reflexivity) ltac:(vm_compute; reflexivity)).
  vm_compute in Hkept.
  repeat (destruct Hkept as [Hkept | Hkept]; [discriminate Hkept |]).
  exact Hkept.
Qed.

End ContactFacts.

(* ================================================================= *)
(** ** Raw extraction *)

Section HarvestFacts.

Import Js Harvest.














End HarvestFacts.

(* ================================================================= *)
(** ** The run: checkpoints, flushes and the budget *)

Section RunFacts.

Import Js Run.

Lemma arrayIncludes_In (l : list string) (x : string) :
  arrayIncludes l x = true <-> In x l.
Proof.
  unfold arrayIncludes. rewrite existsb_exists. split.
  - intros [y [Hin Heq]]. apply String.eqb_eq in Heq. now subst.
  - intros Hin. exists x. split; [exact Hin | apply String.eqb_refl].
Qed.

Lemma quietStep_refl (s : State) : quietStep s s.
Proof.
  repeat split. exists []. now rewrite app_nil_r.
Qed.

Lemma quietStep_trans (s1 s2 s3 : State) :
  quietStep s1 s2 -> quietStep s2 s3 -> quietStep s1 s3.
Proof.
  intros (Hd1 & Ha1 & Hb1 & evs1 & Ht1 & He1) (Hd2 & Ha2 & Hb2 & evs2 & Ht2 & He2).
  repeat split; try congruence.
  exists (evs1 ++ evs2). split.
  - now rewrite Ht2, Ht1, app_assoc.
  - now rewrite existsb_app, He1, He2.
Qed.

Lemma quiet_ret (A : Type) (a : A) (R : A -> Prop) : R a -> quiet (ret a) R.
Proof.
  intros Ha s. split; [apply quietStep_refl |].
  intros a' Heq. simpl in Heq. now injection Heq as <-.
Qed.

Lemma quiet_throw (A : Type) (e : exn) (R : A -> Prop) : quiet (throw e) R.
Proof.
  intros s. split; [apply quietStep_refl | intros a Heq; discriminate Heq].
Qed.

Lemma quiet_bind (A B : Type) (m : M A) (k : A -> M B) (R : A -> Prop) (Q : B -> Prop) :
  quiet m R -> (forall a, R a -> quiet (k a) Q) -> quiet (bind m k) Q.
Proof.
  intros Hm Hk s. unfold bind. destruct (Hm s) as [Hstep Hres].
  destruct (m s) as [[e | a] s1]; simpl in *.
  - split; [exact Hstep | intros b Hb; discriminate Hb].
  - destruct (Hk a (Hres a eq_refl) s1) as [Hstep2 Hres2].
    split; [eapply quietStep_trans; eassumption | exact Hres2].
Qed.

Lemma quiet_tryCatch (A : Type) (body handler : M A) (R : A -> Prop) :
  quiet body R -> quiet handler R -> quiet (tryCatch body handler) R.
Proof.
  intros Hbody Hhandler s. unfold tryCatch. destruct (Hbody s) as [Hstep Hres].
  destruct (body s) as [[e | a] s1]; simpl in *.
  - destruct (Hhandler s1) as [Hstep2 Hres2].
    split; [eapply quietStep_trans; eassumption | exact Hres2].
  - split; [exact Hstep | exact Hres].
Qed.

Lemma quiet_weaken (A : Type) (m : M A) (R R' : A -> Prop) :
  quiet m R -> (forall a, R a -> R' a) -> quiet m R'.
Proof.
  intros Hm Himp s. destruct (Hm s) as [Hstep Hres]. split; [exact Hstep | auto].
Qed.

Lemma quiet_gets (A : Type) (f : State -> A) : quiet (gets f) (fun _ => True).
Proof. intros s. split; [apply quietStep_refl | trivial]. Qed.

Lemma quiet_modify (f : State -> State) :
  (forall s, quietStep s (f s)) -> quiet (modify f) (fun _ => True).
Proof. intros Hf s. split; [apply Hf | trivial]. Qed.

Lemma quiet_emit (e : event) :
  isCheckpointEvent e = false -> quiet (emit e) (fun _ => True).
Proof.
  intros He. apply quiet_modify. intros s. repeat split.
  exists [e]. split; [reflexivity | simpl; now rewrite He].
Qed.

Lemma quietStep_same (s s' : State) :
  dataset s' = dataset s -> allPlaces s' = allPlaces s ->
  batchLeads s' = batchLeads s -> trace s' = trace s -> quietStep s s'.
Proof.
  intros Hd Ha Hb Ht. repeat split; try assumption.
  exists []. now rewrite app_nil_r.
Qed.

Lemma quiet_sleep (ms : Z) : quiet (sleep ms) (fun _ => True).
Proof. apply quiet_modify. intros s. now apply quietStep_same. Qed.

Lemma quiet_checkLimits : quiet checkLimits (fun _ => True).
Proof.
  intros s. unfold checkLimits. split; [| trivial].
  destruct (limiter s) as [rl |]; [| apply quietStep_refl].
  destruct (CostGuard.checkLimits (clock s) rl) as [e | [rl' woke]]; simpl.
  - apply quietStep_refl.
  - now apply quietStep_same.
Qed.

Lemma quiet_checkLimitsIfEnabled : quiet checkLimitsIfEnabled (fun _ => True).
Proof.
  unfold checkLimitsIfEnabled. eapply quiet_bind; [apply quiet_gets |].
  intros [] _; [apply quiet_checkLimits | now apply quiet_ret].
Qed.

Lemma quiet_harvest (w : World) (homepage : Document) :
  quiet (harvest w homepage) (fun _ => True).
Proof.
  unfold harvest. eapply quiet_bind with (R := fun _ => True).
  - destruct (Harvest.extractEmails w homepage ++ homepageExtras w homepage);
      [| now apply quiet_ret].
    destruct (contactPageUrls homepage) as [| firstUrl rest]; [now apply quiet_ret |].
    apply quiet_tryCatch; [| now apply quiet_ret].
    eapply quiet_bind; [now apply quiet_emit |]. intros _ _.
    destruct (httpGet w firstUrl); [now apply quiet_ret | apply quiet_throw].
  - intros moreEmails _. now apply quiet_ret.
Qed.

Lemma quiet_enrichPlaceDetails (w : World) (place : Place) :
  quiet (enrichPlaceDetails w place) (fun place' => placeId place' = placeId place).
Proof.
  unfold enrichPlaceDetails. apply quiet_tryCatch; [| now apply quiet_ret].
  eapply quiet_bind; [apply quiet_checkLimitsIfEnabled |]. intros _ _.
  eapply quiet_bind with (R := fun place' => placeId place' = placeId place).
  - destruct (negb (truthy (website place)) && negb (truthy (phone place)));
      [| now apply quiet_ret].
    eapply quiet_bind; [now apply quiet_emit |]. intros _ _.
    destruct (placeDetails w (placeId place)); [now apply quiet_ret | apply quiet_throw].
  - intros place' Hid. destruct (truthy (website place')); [| now apply quiet_ret].
    apply quiet_tryCatch; [| now apply quiet_ret].
    eapply quiet_bind; [now apply quiet_emit |]. intros _ _.
    destruct (httpGet w (website place')) as [homepage |]; [| apply quiet_throw].
    eapply quiet_bind; [apply quiet_harvest |]. intros allRaw _.
    now apply quiet_ret.
Qed.

Lemma total_ret (A : Type) (a : A) : total (ret a).
Proof. intros s. now exists a, s. Qed.

Lemma total_bind (A B : Type) (m : M A) (k : A -> M B) :
  total m -> (forall a, total (k a)) -> total (bind m k).
Proof.
  intros Hm Hk s. unfold bind. destruct (Hm s) as (a & s1 & ->). apply Hk.
Qed.

Lemma total_tryCatch (A : Type) (body handler : M A) :
  total handler -> total (tryCatch body handler).
Proof.
  intros Hh s. unfold tryCatch. destruct (body s) as [[e | a] s1]; [apply Hh | eauto].
Qed.

Lemma total_modify (f : State -> State) : total (modify f).
Proof. intros s. now exists tt, (f s). Qed.

Lemma total_gets (A : Type) (f : State -> A) : total (gets f).
Proof. intros s. now exists (f s), s. Qed.

Lemma total_enrichPlaceDetails (w : World) (place : Place) :
  total (enrichPlaceDetails w place).
Proof. apply total_tryCatch, total_ret. Qed.

Lemma quiet_markPlaceSeen (cfg : Config) (id : string) :
  quiet (markPlaceSeen cfg id) (fun _ => True).
Proof.
  unfold markPlaceSeen. destruct (negb (persistDedupe cfg)); [now apply quiet_ret |].
  apply quiet_modify. intros s. now apply quietStep_same.
Qed.

Lemma total_markPlaceSeen (cfg : Config) (id : string) : total (markPlaceSeen cfg id).
Proof.
  unfold markPlaceSeen. destruct (negb (persistDedupe cfg));
    [apply total_ret | apply total_modify].
Qed.

Lemma quiet_hasRecentPlace (cfg : Config) (id : string) :
  quiet (hasRecentPlace cfg id) (fun _ => True).
Proof.
  unfold hasRecentPlace. destruct (_ || _); [now apply quiet_ret | apply quiet_gets].
Qed.

Lemma quiet_geocodeLocation (w : World) (loc : string) :
  quiet (geocodeLocation w loc) (fun _ => True).
Proof.
  unfold geocodeLocation. destruct (Re.matches latLngLiteral loc); [now apply quiet_ret |].
  eapply quiet_bind; [apply quiet_checkLimits |]. intros _ _.
  eapply quiet_bind; [now apply quiet_emit |]. intros _ _.
  destruct (geocode w loc); [now apply quiet_ret | apply quiet_throw].
Qed.

Lemma quiet_mapM (A B : Type) (f : A -> M B) (l : list A) :
  (forall x, quiet (f x) (fun _ => True)) -> quiet (mapM f l) (fun _ => True).
Proof.
  intros Hf. induction l as [| x l IH]; simpl; [now apply quiet_ret |].
  eapply quiet_bind; [apply Hf |]. intros y _.
  eapply quiet_bind; [apply IH |]. intros ys _. now apply quiet_ret.
Qed.

Lemma quiet_resolveTargets (w : World) (cfg : Config) :
  quiet (resolveTargets w cfg) (fun _ => True).
Proof.
  unfold resolveTargets. destruct (useTopUSCities cfg).
  - eapply quiet_bind with (R := fun _ => True); [| intros; now apply quiet_ret].
    apply quiet_mapM. intros [i city].
    eapply quiet_bind; [apply quiet_gets |]. intros cp _.
    destruct (i <? currentCityIndex cp); [now apply quiet_ret |].
    eapply quiet_bind; [apply quiet_geocodeLocation |]. intros; now apply quiet_ret.
  - eapply quiet_bind; [apply quiet_geocodeLocation |]. intros; now apply quiet_ret.
Qed.

Lemma quiet_validateInput (cfg : Config) : quiet (validateInput cfg) (fun _ => True).
Proof.
  unfold validateInput. destruct (searchTerms cfg); [apply quiet_throw |].
  repeat match goal with
         | |- quiet (if ?b then _ else _) _ => destruct b
         end; try apply quiet_throw; now apply quiet_ret.
Qed.

(** The pool over the batch returns the batch enriched, place by place. *)
Lemma enrichBatch_spec (w : World) (cfg : Config) (s : State) :
  exists s', enrichBatch w cfg s = (inr tt, s')
    /\ dataset s' = dataset s /\ allPlaces s' = allPlaces s
    /\ map placeId (batchLeads s') = map placeId (batchLeads s)
    /\ exists evs, trace s' = trace s ++ evs /\ existsb isCheckpointEvent evs = false.
Proof.
  unfold enrichBatch.
  set (step := fun lead : Place =>
         bind (enrichPlaceDetails w lead)
              (fun lead' => bind (markPlaceSeen cfg (placeId lead')) (fun _ => ret lead'))).
  assert (Hstep : forall lead s0, exists lead' s1,
             step lead s0 = (inr lead', s1) /\ placeId lead' = placeId lead
             /\ quietStep s0 s1).
  { intros lead s0. subst step.
    assert (Hq : quiet (bind (enrichPlaceDetails w lead)
                   (fun lead' => bind (markPlaceSeen cfg (placeId lead')) (fun _ => ret lead')))
                   (fun lead' => placeId lead' = placeId lead)).
    { eapply quiet_bind; [apply quiet_enrichPlaceDetails |]. intros lead' Hid.
      eapply quiet_bind; [apply quiet_markPlaceSeen |]. intros _ _. now apply quiet_ret. }
    assert (Ht : total (bind (enrichPlaceDetails w lead)
                   (fun lead' => bind (markPlaceSeen cfg (placeId lead')) (fun _ => ret lead')))).
    { apply total_bind; [apply total_enrichPlaceDetails |]. intros lead'.
      apply total_bind; [apply total_markPlaceSeen | intros; apply total_ret]. }
    destruct (Ht s0) as (lead' & s1 & Heq). destruct (Hq s0) as [Hqs Hres].
    rewrite Heq in Hqs, Hres. simpl in Hqs, Hres. exists lead', s1. auto. }
  assert (Hmap : forall batch s0, exists enriched s1,
             mapM step batch s0 = (inr enriched, s1)
             /\ map placeId enriched = map placeId batch /\ quietStep s0 s1).
  { induction batch as [| lead batch IH]; intros s0; simpl.
    - exists [], s0. split; [reflexivity | split; [reflexivity | apply quietStep_refl]].
    - unfold bind at 1. destruct (Hstep lead s0) as (lead' & s1 & -> & Hid & Hq1).
      unfold bind at 1. destruct (IH s1) as (enriched & s2 & -> & Hids & Hq2).
      exists (lead' :: enriched), s2. simpl. rewrite Hid, Hids.
      split; [reflexivity | split; [reflexivity |]].
      eapply quietStep_trans; eassumption. }
  unfold bind at 1. simpl. unfold bind at 1.
  destruct (Hmap (batchLeads s) s) as (enriched & s1 & -> & Hids & Hd & Ha & Hb & Hevs).
  exists (setBatchLeads enriched s1). simpl. auto.
Qed.


Lemma traceOk_app (tr evs : list event) :
  traceOk tr -> existsb isCheckpointEvent evs = false -> traceOk (tr ++ evs).
Proof.
  intros Hok Hnone kind c t pending Hin.
  apply in_app_or in Hin as [Hin | Hin]; [now apply (Hok kind c t) |].
  assert (Hsome : existsb isCheckpointEvent evs = true)
    by (apply existsb_exists; now exists (EvCheckpoint kind c t pending)).
  congruence.
Qed.

Lemma traceOk_checkpoint (tr : list event) kind c t pending :
  traceOk tr -> checkpointOk kind pending ->
  traceOk (tr ++ [EvCheckpoint kind c t pending]).
Proof.
  intros Hok Hnew kind' c' t' pending' Hin.
  apply in_app_or in Hin as [Hin | [Heq | []]]; [now apply (Hok kind' c' t') |].
  now injection Heq as <- _ _ <-.
Qed.

Lemma good_quietStep (B : list Place -> Prop) (s s' : State) :
  quietStep s s' -> good B s -> good B s'.
Proof.
  intros (Hd & Ha & Hb & evs & Ht & He) (Htr & Hnd & Hcov & HB).
  unfold good, covered, datasetIds in *. rewrite Hd, Ha, Hb, Ht.
  split; [now apply traceOk_app | split; [assumption | split; assumption]].
Qed.

Lemma triple_ret (A : Type) (a : A) (P : State -> Prop) (Q : A -> State -> Prop) :
  (forall s, P s -> Q a s) -> triple P (ret a) Q.
Proof. intros H s Hs. now apply H. Qed.

Lemma triple_bind (A B : Type) (P : State -> Prop) (m : M A) (k : A -> M B)
    (Q : A -> State -> Prop) (R : B -> State -> Prop) :
  triple P m Q -> (forall a, triple (Q a) (k a) R) -> triple P (bind m k) R.
Proof.
  intros Hm Hk s Hs. unfold bind. specialize (Hm s Hs).
  destruct (m s) as [[e | a] s1]; [exact Hm | now apply Hk].
Qed.

Lemma triple_conseq (A : Type) (P P' : State -> Prop) (m : M A) (Q Q' : A -> State -> Prop) :
  (forall s, P' s -> P s) -> triple P m Q -> (forall a s, Q a s -> Q' a s) ->
  triple P' m Q'.
Proof.
  intros Hpre Hm Hpost s Hs. specialize (Hm s (Hpre s Hs)).
  destruct (m s) as [[e | a] s1]; [exact Hm | now apply Hpost].
Qed.

Lemma triple_quiet (A : Type) (m : M A) (B : list Place -> Prop) (R : A -> Prop) :
  quiet m R -> triple (good B) m (fun a s' => good B s' /\ R a).
Proof.
  intros Hq s Hg. destruct (Hq s) as [Hstep Hres].
  destruct (m s) as [[e | a] s1]; simpl in *.
  - exact (proj1 (good_quietStep Hstep Hg)).
  - split; [now apply (good_quietStep Hstep) | now apply Hres].
Qed.

Lemma triple_quiet_ (A : Type) (m : M A) (B : list Place -> Prop) (R : A -> Prop) :
  quiet m R -> triple (good B) m (fun _ => good B).
Proof.
  intros Hq. eapply triple_conseq; [| apply (triple_quiet (B := B) Hq) |];
    [auto | now intros a s [H _]].
Qed.

Lemma triple_gets (A : Type) (f : State -> A) (P : State -> Prop) :
  triple P (gets f) (fun a s => P s /\ a = f s).
Proof. intros s Hs. simpl. auto. Qed.

Lemma triple_modify (f : State -> State) (P : State -> Prop) (Q : unit -> State -> Prop) :
  (forall s, P s -> Q tt (f s)) -> triple P (modify f) Q.
Proof. intros H s Hs. now apply H. Qed.

Lemma triple_forEach (A : Type) (l : list A) (body : A -> M unit) (I : State -> Prop) :
  (forall x, triple I (body x) (fun _ => I)) -> triple I (forEach l body) (fun _ => I).
Proof.
  intros Hbody. induction l as [| x l IH]; simpl.
  - now apply triple_ret.
  - eapply triple_bind; [apply Hbody | intros u; exact IH].
Qed.

Lemma unflushed_nil (s : State) : allFlushed s -> unflushed s = [].
Proof.
  unfold allFlushed, unflushed, datasetIds. intros Hall.
  induction (allPlaces s) as [| id ids IH]; simpl; [reflexivity |].
  replace (arrayIncludes (map (fun l => placeId (leadPlace l)) (dataset s)) id) with true
    by (symmetry; apply arrayIncludes_In, Hall; now left).
  simpl. apply IH. intros id' Hin. apply Hall. now right.
Qed.

Lemma unflushed_bound (s : State) :
  NoDup (allPlaces s) -> covered s -> List.length (unflushed s) <= List.length (batchLeads s).
Proof.
  intros Hnd Hcov. rewrite <- (length_map placeId (batchLeads s)).
  apply NoDup_incl_length.
  - unfold unflushed. now apply NoDup_filter.
  - intros id Hin. unfold unflushed in Hin. apply filter_In in Hin as [Hin Hnot].
    destruct (Hcov id Hin) as [Hds | Hbatch]; [| exact Hbatch].
    apply arrayIncludes_In in Hds. unfold datasetIds in Hds.
    rewrite Hds in Hnot. discriminate Hnot.
Qed.

Lemma good_empty_allFlushed (s : State) : good emptyBatch s -> allFlushed s.
Proof.
  intros (_ & _ & Hcov & Hb) id Hin. unfold emptyBatch in Hb.
  destruct (Hcov id Hin) as [Hds | Hbatch]; [exact Hds |].
  rewrite Hb in Hbatch. contradiction.
Qed.

Lemma saveCheckpoint_triple kind c t (B : list Place -> Prop) :
  triple (fun s => good B s /\ checkpointOk kind (unflushed s))
         (saveCheckpoint kind c t) (fun _ => good B).
Proof.
  intros s [(Htr & Hnd & Hcov & HB) Hok].
  unfold saveCheckpoint, bind, modify, gets, emit. simpl.
  unfold good, covered, datasetIds. simpl.
  split; [now apply traceOk_checkpoint | split; [assumption | split; assumption]].
Qed.

Lemma saveLeads_triple (w : World) (term city : string) (leads : list Place)
    (B : list Place -> Prop) :
  triple (fun s => good B s /\ leads = batchLeads s)
         (saveLeadsIncremental w leads term city)
         (fun _ s' => good B s' /\ allFlushed s').
Proof.
  intros s [(Htr & Hnd & Hcov & HB) Hleads].
  unfold saveLeadsIncremental. destruct leads as [| lead rest].
  - simpl. split; [split; [assumption | split; [assumption | split; assumption]] |].
    intros id Hin. destruct (Hcov id Hin) as [Hds | Hbatch]; [exact Hds |].
    rewrite <- Hleads in Hbatch. contradiction.
  - unfold bind, modify, gets, emit. simpl.
    assert (Hids : forall id,
               In id (datasetIds s) \/ In id (map placeId (batchLeads s)) ->
               In id (map (fun l => placeId (leadPlace l))
                        (dataset s ++
                         {| leadPlace := setSearchTerm (orElse (searchTerm lead) term) lead;
                            cityProcessed := city; apifyRunId := actorRunId w;
                            scrapedAt := clock s |}
                         :: map (fun lead0 =>
                              {| leadPlace := setSearchTerm (orElse (searchTerm lead0) term) lead0;
                                 cityProcessed := city; apifyRunId := actorRunId w;
                                 scrapedAt := clock s |}) rest))).
    { intros id [Hds | Hbatch]; rewrite map_app; apply in_or_app.
      - now left.
      - right. rewrite <- Hleads in Hbatch. simpl in Hbatch |- *.
        destruct Hbatch as [Heq | Hin]; [now left | right].
        rewrite map_map. simpl. exact Hin. }
    split.
    + unfold good, covered, datasetIds. simpl.
      split; [| split; [assumption | split; [| assumption]]].
      * apply traceOk_app; [exact Htr | reflexivity].
      * intros id Hin. left. apply Hids. now apply Hcov.
    + intros id Hin. unfold datasetIds. simpl. apply Hids. simpl in Hin. now apply Hcov.
Qed.

Lemma enrichBatch_triple (w : World) (cfg : Config) (n : nat) :
  triple (good (batchUpTo n)) (enrichBatch w cfg) (fun _ => good (batchUpTo n)).
Proof.
  intros s (Htr & Hnd & Hcov & HB).
  destruct (enrichBatch_spec w cfg s) as (s' & -> & Hd & Ha & Hids & evs & Ht & He).
  unfold good, covered, datasetIds, batchUpTo in *. rewrite Hd, Ha, Hids, Ht.
  split; [now apply traceOk_app | split; [assumption | split; [assumption |]]].
  now rewrite <- (length_map placeId), Hids, length_map.
Qed.

Lemma good_weaken (B B' : list Place -> Prop) (s : State) :
  (forall b, B b -> B' b) -> good B s -> good B' s.
Proof.
  intros Himp (Htr & Hnd & Hcov & HB).
  split; [assumption | split; [assumption | split; [assumption | now apply Himp]]].
Qed.

(** Saving a full batch: flush, checkpoint, clear. *)
Lemma flushFullBatch_triple (w : World) (cfg : Config) (term city : string)
    (cityIdx termIdx : nat) :
  triple (good (batchUpTo SAVE_INTERVAL))
    (bind (enrichBatch w cfg) (fun _ =>
     bind (gets batchLeads) (fun batch =>
     bind (saveLeadsIncremental w batch term city) (fun _ =>
     bind (saveCheckpoint AfterBatch cityIdx termIdx) (fun _ =>
     modify (setBatchLeads []))))))
    (fun _ => good smallBatch).
Proof.
  eapply triple_bind; [apply enrichBatch_triple |]. intros u.
  eapply triple_bind; [apply triple_gets |]. intros batch.
  eapply triple_bind; [apply saveLeads_triple |]. intros u'.
  intros s [(Htr & Hnd & Hcov & HB) Hflushed].
  unfold saveCheckpoint, bind, modify, gets, emit. simpl.
  unfold good, covered, datasetIds, smallBatch. simpl.
  split; [| split; [assumption | split; [| unfold SAVE_INTERVAL; lia]]].
  - apply traceOk_checkpoint; [exact Htr |].
    replace (unflushed _) with (@nil string); [split; [reflexivity | simpl; unfold SAVE_INTERVAL; lia] |].
    symmetry. now apply (unflushed_nil (s := s)).
  - intros id Hin. left. now apply Hflushed.
Qed.

Lemma processPlace_triple (w : World) (cfg : Config) (city : string)
    (cityIdx termIdx : nat) (term : string) (p : RawPlace) :
  triple (good smallBatch) (processPlace w cfg city cityIdx termIdx term p)
         (fun _ => good smallBatch).
Proof.
  unfold processPlace.
  destruct (negb (truthy (rawId p))); [now apply triple_ret |].
  eapply triple_bind;
    [apply (triple_quiet_ (B := smallBatch) (quiet_hasRecentPlace cfg (rawId p))) |].
  intros [|].
  - apply triple_modify. intros s Hg.
    apply (good_quietStep (s := s)); [now apply quietStep_same | exact Hg].
  - eapply triple_bind; [apply triple_gets |]. intros [|].
    + apply triple_ret. now intros s [Hg _].
    + set (place := {| name := rawDisplayName p; searchTerm := term;
                       formattedAddress := rawFormattedAddress p; placeId := rawId p;
                       website := rawWebsiteUri p;
                       phone := Phone.normalizePhone (rawPhoneNumber p);
                       emailList := [] |}).
      eapply triple_bind with
        (Q := fun _ s1 => exists s, (good smallBatch s /\ ~ In (rawId p) (allPlaces s))
                                    /\ s1 = setAllPlaces (allPlaces s ++ [rawId p]) s).
      { apply triple_modify. intros s [Hg Hknown]. exists s. split; [split |]; auto.
        intros Hin. apply arrayIncludes_In in Hin. congruence. }
      intros u. eapply triple_bind with (Q := fun _ => good (batchUpTo SAVE_INTERVAL)).
      { apply triple_modify. intros s1 (s & [(Htr & Hnd & Hcov & HB) Hnew] & ->).
        unfold good, covered, datasetIds, batchUpTo, smallBatch in *. simpl.
        split; [assumption | split; [| split]].
        - apply NoDup_app; [assumption | repeat constructor; intros [] |].
          intros id Hin [<- | []]. contradiction.
        - intros id Hin. rewrite map_app. simpl.
          apply in_app_or in Hin as [Hin | [<- | []]].
          + destruct (Hcov id Hin) as [Hds | Hb]; [now left | right].
            apply in_or_app. now left.
          + right. apply in_or_app. right. now left.
        - rewrite length_app. simpl. lia. }
      intros u'. eapply triple_bind; [apply triple_gets |]. intros size.
      destruct (SAVE_INTERVAL <=? size) eqn:Hfull.
      * eapply triple_conseq; [| apply flushFullBatch_triple | auto].
        now intros s [Hg _].
      * apply triple_ret. intros s [Hg ->].
        apply Nat.leb_gt in Hfull. destruct Hg as (Htr & Hnd & Hcov & _).
        split; [assumption | split; [assumption | split; assumption]].
Qed.

Lemma searchPages_triple (w : World) (cfg : Config) (target : TargetCenter)
    (cityIdx boxIdx termIdx : nat) (term : string) (pages : list (list RawPlace)) :
  forall fetched,
    triple (good smallBatch)
           (searchPages w cfg target cityIdx boxIdx termIdx term pages fetched)
           (fun _ => good smallBatch).
Proof.
  induction pages as [| places rest IH]; intros fetched; simpl.
  - eapply triple_bind; [apply (triple_quiet_ (B := smallBatch) quiet_checkLimitsIfEnabled) |].
    intros u. eapply triple_bind;
      [apply (triple_quiet_ (B := smallBatch) (R := fun _ => True)); now apply quiet_emit |].
    intros u'. now apply triple_ret.
  - eapply triple_bind; [apply (triple_quiet_ (B := smallBatch) quiet_checkLimitsIfEnabled) |].
    intros u. eapply triple_bind;
      [apply (triple_quiet_ (B := smallBatch) (R := fun _ => True)); now apply quiet_emit |].
    intros u'. eapply triple_bind.
    { apply triple_forEach. intros p. apply processPlace_triple. }
    intros u''. destruct rest as [| next rest']; [now apply triple_ret |].
    eapply triple_bind; [apply (triple_quiet_ (B := smallBatch) (quiet_sleep 2000)) |].
    intros u3. destruct (fetched + List.length places <? maxPerTerm cfg).
    + apply IH.
    + now apply triple_ret.
Qed.

Lemma processTerm_triple (w : World) (cfg : Config) (target : TargetCenter)
    (cityIdx boxIdx : nat) (box : Geo.LatLng) (termIdx : nat) (term : string) :
  triple (good smallBatch) (processTerm w cfg target cityIdx boxIdx box termIdx term)
         (fun _ => good smallBatch).
Proof.
  unfold processTerm. eapply triple_bind; [apply triple_gets |]. intros cp.
  match goal with
  | |- triple _ (if ?b then _ else _) _ => destruct b
  end.
  - apply triple_ret. now intros s [Hg _].
  - eapply triple_bind.
    { eapply triple_conseq; [| apply searchPages_triple | intros a s H; exact H].
      now intros s [Hg _]. }
    intros u. eapply triple_conseq; [| apply saveCheckpoint_triple | intros a s H; exact H].
    intros s Hg. split; [exact Hg |].
    destruct Hg as (Htr & Hnd & Hcov & HB). split; [congruence |].
    pose proof (unflushed_bound Hnd Hcov). unfold smallBatch in HB. lia.
Qed.

Lemma processCity_triple (w : World) (cfg : Config) (cityIdx : nat) (target : TargetCenter) :
  triple (good emptyBatch) (processCity w cfg cityIdx target) (fun _ => good emptyBatch).
Proof.
  unfold processCity. eapply triple_bind; [apply triple_gets |]. intros cp.
  match goal with
  | |- triple _ (if ?b then _ else _) _ => destruct b
  end.
  - apply triple_ret. now intros s [Hg _].
  - eapply triple_bind with (Q := fun _ => good smallBatch).
    { apply triple_modify. intros s [(Htr & Hnd & Hcov & HB) _].
      unfold emptyBatch in HB. unfold good, covered, datasetIds, smallBatch in *.
      rewrite HB in Hcov. simpl.
      split; [assumption | split; [assumption | split; [assumption |]]].
      unfold SAVE_INTERVAL. lia. }
    intros u. eapply triple_bind with (Q := fun _ => good smallBatch).
    { apply triple_forEach. intros [boxIdx box].
      apply triple_forEach. intros [termIdx term]. apply processTerm_triple. }
    intros u1. eapply triple_bind; [apply triple_gets |]. intros batch.
    eapply triple_bind with (Q := fun _ => good emptyBatch).
    { destruct batch as [| lead rest].
      - apply triple_ret. intros s [(Htr & Hnd & Hcov & HB) Hempty].
        split; [assumption | split; [assumption | split; [assumption | now symmetry]]].
      - eapply triple_bind with (Q := fun _ => good (batchUpTo SAVE_INTERVAL)).
        { eapply triple_conseq; [| apply enrichBatch_triple | intros a s H; exact H].
          intros s [Hg _]. revert Hg. apply good_weaken.
          unfold smallBatch, batchUpTo. intros b Hb. lia. }
        intros u2. eapply triple_bind; [apply triple_gets |]. intros batch'.
        eapply triple_bind; [apply saveLeads_triple |]. intros u3.
        apply triple_modify. intros s [(Htr & Hnd & Hcov & HB) Hflushed].
        unfold good, covered, datasetIds, emptyBatch. simpl.
        split; [assumption | split; [assumption | split; [| reflexivity]]].
        intros id Hin. left. now apply Hflushed. }
    intros u4. eapply triple_bind with (Q := fun _ => good emptyBatch).
    { apply triple_modify. intros s Hg.
      apply (good_quietStep (s := s)); [now apply quietStep_same | exact Hg]. }
    intros u5. eapply triple_conseq; [| apply saveCheckpoint_triple | intros a s H; exact H].
    intros s Hg. split; [exact Hg |].
    rewrite (unflushed_nil (good_empty_allFlushed Hg)).
    split; [reflexivity | simpl; unfold SAVE_INTERVAL; lia].
Qed.

Lemma Actor_main_triple (w : World) (cfg : Config) :
  triple (good emptyBatch) (Actor_main w cfg) (fun _ => good emptyBatch).
Proof.
  unfold Actor_main.
  eapply triple_bind; [apply (triple_quiet_ (B := emptyBatch) (quiet_validateInput cfg)) |].
  intros u. eapply triple_bind with (Q := fun _ => good emptyBatch).
  { apply triple_modify. intros s Hg.
    apply (good_quietStep (s := s)); [now apply quietStep_same | exact Hg]. }
  intros u1. eapply triple_bind with (Q := fun _ => good emptyBatch).
  { apply triple_modify. intros s Hg.
    apply (good_quietStep (s := s)); [now apply quietStep_same | exact Hg]. }
  intros u2. eapply triple_bind;
    [apply (triple_quiet_ (B := emptyBatch) (quiet_resolveTargets w cfg)) |].
  intros targetCenters. eapply triple_bind with (Q := fun _ => good emptyBatch).
  { apply triple_forEach. intros [cityIdx target]. apply processCity_triple. }
  intros u3. apply triple_modify. intros s Hg.
  apply (good_quietStep (s := s)); [now apply quietStep_same | exact Hg].
Qed.

Lemma startState_good now saved seen : good emptyBatch (startState now saved seen).
Proof.
  split; [| split; [constructor | split; [| reflexivity]]].
  - intros kind c t pending [].
  - intros id [].
Qed.




End RunFacts.

(* ================================================================= *)
(** ** The budget error and the stages that guard a priced call *)

Section BudgetFacts.

Import Js Run.

Lemma checkLimits_over_budget (s : State) (rl : CostGuard.APIRateLimiter) :
  limiter s = Some rl ->
  (CostGuard.maxDailyCost rl <= CostGuard.estimateCost rl)%Q ->
  checkLimits s
  = (inl (Fatal (DailyCostLimitReached (CostGuard.estimateCost rl)
                                       (CostGuard.maxDailyCost rl))), s).
Proof.
  intros Hrl Hover. unfold checkLimits, CostGuard.checkLimits. rewrite Hrl.
  apply Qle_bool_iff in Hover. now rewrite Hover.
Qed.

Lemma checkLimitsIfEnabled_over_budget (s : State) (rl : CostGuard.APIRateLimiter) :
  limiter s = Some rl ->
  (CostGuard.maxDailyCost rl <= CostGuard.estimateCost rl)%Q ->
  checkLimitsIfEnabled s
  = (inl (Fatal (DailyCostLimitReached (CostGuard.estimateCost rl)
                                       (CostGuard.maxDailyCost rl))), s).
Proof.
  intros Hrl Hover. unfold checkLimitsIfEnabled, bind, gets. rewrite Hrl.
  now apply checkLimits_over_budget.
Qed.

(** C2, where the code departs from it.  With the limiter at or over its
    ceiling, the guard throws the budget error and writes nothing; the
    search loop and the geocoder let the error escape, before their request
    is made; [enrichPlaceDetails] catches it with every other exception
    and returns the place with website, phone and contacts emptied. *)
Theorem enrichPlaceDetails_swallows_budget_error (w : World) (place : Place)
    (s : State) (rl : CostGuard.APIRateLimiter) :
  limiter s = Some rl ->
  (CostGuard.maxDailyCost rl <= CostGuard.estimateCost rl)%Q ->
  let budgetError :=
    Fatal (DailyCostLimitReached (CostGuard.estimateCost rl) (CostGuard.maxDailyCost rl)) in
  checkLimits s = (inl budgetError, s)
  /\ (forall cfg target cityIdx boxIdx termIdx term pages fetched,
        searchPages w cfg target cityIdx boxIdx termIdx term pages fetched s
        = (inl budgetError, s))
  /\ (forall loc, Re.matches latLngLiteral loc = false ->
        geocodeLocation w loc s = (inl budgetError, s))
  /\ enrichPlaceDetails w place s
     = (inr (setEmailList [] (setPhone EmptyString (setWebsite EmptyString place))), s).
Proof.
  intros Hrl Hover budgetError. split; [| split; [| split]].
  - now apply checkLimits_over_budget.
  - intros cfg target cityIdx boxIdx termIdx term pages fetched.
    destruct pages; simpl; unfold bind at 1;
      now rewrite (checkLimitsIfEnabled_over_budget s Hrl Hover).
  - intros loc Hloc. unfold geocodeLocation. rewrite Hloc. unfold bind at 1.
    now rewrite (checkLimits_over_budget s Hrl Hover).
  - unfold enrichPlaceDetails, tryCatch. unfold bind at 1.
    now rewrite (checkLimitsIfEnabled_over_budget s Hrl Hover).
Qed.

(** A place enriched under a limiter that has spent 25.40 of its 20
    dollars. *)
Lemma enrichPlaceDetails_swallows_budget_error_witness :
  let s := setLimiter (Some Scenarios.spentLimiter) (startState 0 None []) in
  enrichPlaceDetails Scenarios.quietWorld Scenarios.somePlace s
  = (inr (setEmailList [] (setPhone EmptyString (setWebsite EmptyString Scenarios.somePlace))),
     s).
Proof.
  exact (proj2 (proj2 (proj2
    (enrichPlaceDetails_swallows_budget_error Scenarios.quietWorld Scenarios.somePlace
       (setLimiter (Some Scenarios.spentLimiter) (startState 0 None []))
       eq_refl ltac:(vm_compute; discriminate))))).
Defined.

(** A whole run in which the ceiling is reached by the fortieth search
    call: every enrichment of the final flush meets the budget error, no
    Place Details call is made, forty rows are saved with no contact, and
    the run ends normally with the checkpoint reset. *)
Example budget_breach_during_final_flush :
  let result := Actor_main Scenarios.quietWorld Scenarios.budgetRun (startState 0 None []) in
  fst result = inr tt
  /\ option_map CostGuard.apiCalls (limiter (snd result)) = Some 40%Z
  /\ List.length (dataset (snd result)) = 40
  /\ calledPlaceDetails (trace (snd result)) = false
  /\ checkpointStore (snd result) = Some initialCheckpoint.
Proof. vm_compute. repeat split; reflexivity. Qed.

Lemma In_firstn (X : Type) (n : nat) (l : list X) (x : X) :
  In x (firstn n l) -> In x l.
Proof.
  intros Hin. rewrite <- (firstn_skipn n l). apply in_or_app. now left.
Qed.

Lemma existsb_false_not_In (X : Type) (p : X -> bool) (l : list X) (x : X) :
  existsb p l = false -> p x = true -> ~ In x l.
Proof.
  intros Hnone Hx Hin.
  assert (Hsome : existsb p l = true) by (apply existsb_exists; now exists x).
  rewrite Hnone in Hsome. discriminate Hsome.
Qed.

(** C4, where the code departs from it.  A run restarted from the
    checkpoint (city 2, term 3) on the ten-cohort city list with four terms
    and a 10 km radius: no city below index 2 is searched and the first
    cell of city 2 starts at term 3, but the checkpoint saved after that
    term holds the position in the list of cities still to do (0), so in
    the next cells of city 2 no term is skipped and terms 0, 1 and 2 are
    searched. *)
Theorem resumed_run_searches_skipped_terms :
  let tr := trace (snd (Actor_main Scenarios.quietWorld Scenarios.cityRun
                          (startState 0 (Some Scenarios.checkpoint_2_3) []))) in
  searchedTerm 0 0 tr = false
  /\ searchedTerm 1 0 tr = false
  /\ In (EvSearch (Some 2) 0 0 3) tr
  /\ ~ In (EvSearch (Some 2) 0 0 0) tr
  /\ In (EvSearch (Some 2) 0 1 0) tr
  /\ searchedTerm 2 0 tr = true
  /\ searchedTerm 2 1 tr = true
  /\ searchedTerm 2 2 tr = true.
Proof.
  intros tr.
  split; [vm_compute; reflexivity |].
  split; [vm_compute; reflexivity |].
  split; [apply (@In_firstn event 12); vm_compute; do 9 right; now left |].
  split.
  { apply (@existsb_false_not_In event
             (fun e => match e with
                       | EvSearch (Some 2) 0 0 0 => true
                       | _ => false
                       end));
      [vm_compute; reflexivity | reflexivity]. }
  split; [apply (@In_firstn event 12); vm_compute; do 11 right; now left |].
  repeat split; vm_compute; reflexivity.
Qed.

(** The same slip in a run that starts afresh: after the first cell of a
    city the saved term index is the number of terms, so every term of the
    twelve outer cells is taken for done and no outer cell is searched. *)
Example fresh_run_skips_outer_cells :
  searchedOuterCell
    (trace (snd (Actor_main Scenarios.quietWorld Scenarios.cityRun (startState 0 None []))))
  = false.
Proof. vm_compute. reflexivity. Qed.

End BudgetFacts.

(* ================================================================= *)
Section BillingFacts.
Import CostGuard Billing.









End BillingFacts.

(* ================================================================= *)
Section CohortMoreFacts.
Import Cohort Rotation.

(** X3.  With an automatic cohort index (any negative value) the cohort
    of the day is the day of the year modulo the number of cohorts: it is
    a valid cohort number and comes back every [cohortCount] days.  A
    manual index of zero or more is returned as it is, whatever the day
    and whether or not it is below the number of cohorts. *)
Theorem calculateDailyCohort_rotation (dayOfYear : nat) (cityCohortIndex : Z) (cohortCount : nat) :
  1 <= cohortCount ->
  ((cityCohortIndex < 0)%Z ->
     calculateDailyCohort dayOfYear cityCohortIndex cohortCount = dayOfYear mod cohortCount
     /\ calculateDailyCohort dayOfYear cityCohortIndex cohortCount < cohortCount
     /\ calculateDailyCohort (dayOfYear + cohortCount) cityCohortIndex cohortCount
        = calculateDailyCohort dayOfYear cityCohortIndex cohortCount)
  /\ ((0 <= cityCohortIndex)%Z ->
        calculateDailyCohort dayOfYear cityCohortIndex cohortCount = Z.to_nat cityCohortIndex).
Proof.
  intros Hc. unfold calculateDailyCohort. split.
  - intros Hneg.
    replace (0 <=? cityCohortIndex)%Z with false by (symmetry; apply Z.leb_gt; lia).
    rewrite !andb_false_r. split; [reflexivity | split].
    + apply Nat.mod_upper_bound. lia.
    + rewrite <- (Nat.Div0.add_mod_idemp_r dayOfYear cohortCount cohortCount).
      rewrite Nat.Div0.mod_same, Nat.add_0_r. reflexivity.
  - intros Hpos.
    replace (0 <=? cityCohortIndex)%Z with true by (symmetry; apply Z.leb_le; lia).
    replace (cityCohortIndex =? -1)%Z with false by (symmetry; apply Z.eqb_neq; lia).
    reflexivity.
Qed.

Lemma calculateDailyCohort_rotation_witness : calculateDailyCohort 37 (-1) 10 = 7.
Proof.
  exact (proj1 (proj1 (@calculateDailyCohort_rotation 37 (-1) 10 ltac:(lia)) ltac:(lia))).
Defined.

Variable A : Type.

(** X4.  A cohort holds [citiesPerCohort] cities, or what is left of the
    list from its start index when that is less; an index at or past the
    number of cohorts gives the empty list, not an error; every city of a
    cohort is a city of the list; and a single cohort is the whole list. *)
Theorem getCitiesForCohort_size (allCities : list A) (cohortIndex cohortCount : nat) :
  1 <= cohortCount ->
  let citiesPerCohort := ceilDiv (List.length allCities) cohortCount in
  List.length (getCitiesForCohort allCities cohortIndex cohortCount)
  = Nat.min citiesPerCohort (List.length allCities - cohortIndex * citiesPerCohort)
  /\ (cohortCount <= cohortIndex -> getCitiesForCohort allCities cohortIndex cohortCount = [])
  /\ (forall city, In city (getCitiesForCohort allCities cohortIndex cohortCount) ->
        In city allCities)
  /\ getCitiesForCohort allCities 0 1 = allCities.
Proof.
  intros Hc cpc. split; [| split; [| split]].
  - rewrite getCitiesForCohort_chunk, length_firstn, length_skipn. reflexivity.
  - intros Hout. rewrite getCitiesForCohort_chunk. fold cpc.
    rewrite skipn_all2; [apply firstn_nil |].
    pose proof (ceilDiv_covers (List.length allCities) Hc). fold cpc in H. nia.
  - intros city Hin. rewrite getCitiesForCohort_chunk in Hin.
    apply In_firstn in Hin.
    rewrite <- (firstn_skipn (cohortIndex * ceilDiv (List.length allCities) cohortCount)
                  allCities).
    apply in_or_app. now right.
  - rewrite getCitiesForCohort_chunk. simpl skipn.
    apply firstn_all2. unfold ceilDiv. rewrite Nat.sub_diag, Nat.add_0_r, Nat.div_1_r. lia.
Qed.

Lemma cohort_position (len count k : nat) :
  1 <= count -> k < len ->
  k / ceilDiv len count < count
  /\ forall j, cohortStart len j count <= k < cohortEnd len j count
               <-> j = k / ceilDiv len count.
Proof.
  intros Hc Hk. unfold cohortEnd, cohortStart.
  pose proof (ceilDiv_covers len Hc) as Hcov.
  assert (Hpos : 1 <= ceilDiv len count) by (apply ceilDiv_positive; lia).
  set (c := ceilDiv len count) in *.
  pose proof (Nat.div_mod_eq k c) as Hdm.
  pose proof (Nat.mod_upper_bound k c ltac:(lia)) as Hub.
  split.
  - apply Nat.Div0.div_lt_upper_bound. nia.
  - intros j. split.
    + intros [Hlo Hhi]. apply (Nat.div_unique k c j (k - j * c)); lia.
    + intros ->. nia.
Qed.

(** Whatever the cohort count, a city listed once is in exactly one of
    the cohorts [0 .. cohortCount-1]. *)
Lemma city_in_one_cohort (l : list A) (count : nat) (city : A) :
  1 <= count -> NoDup l -> In city l ->
  exists i, i < count /\ forall j, In city (getCitiesForCohort l j count) <-> j = i.
Proof.
  intros Hc Hnodup Hin.
  apply In_nth_error in Hin as [k Hk].
  assert (Hlt : k < List.length l) by (apply nth_error_Some; rewrite Hk; discriminate).
  destruct (cohort_position Hc Hlt) as [Hi Huniq].
  exists (k / ceilDiv (List.length l) count).
  split; [exact Hi |]. intros j. rewrite In_cohort_position. split.
  - intros [k' [Hbounds Hk']].
    assert (k = k') as <-.
    { apply (proj1 (NoDup_nth_error l) Hnodup); [exact Hlt | congruence]. }
    now apply Huniq.
  - intros ->. exists k. split; [now apply Huniq | exact Hk].
Qed.
End CohortMoreFacts.

Lemma getCitiesForCohort_size_witness :
  List.length (Cohort.getCitiesForCohort [1; 2; 3; 4; 5] 1 2) = 2.
Proof.
  exact (proj1 (@getCitiesForCohort_size nat [1; 2; 3; 4; 5] 1 2 ltac:(lia))).
Defined.


Section RotationFacts.
Import Cohort Rotation.

Lemma TOP_US_CITIES_NoDup : NoDup Run.TOP_US_CITIES.
Proof.
  apply (NoDup_count_occ' string_dec). intros city Hin.
  repeat (destruct Hin as [<- | Hin]; [vm_compute; reflexivity |]).
  destruct Hin.
Qed.

Lemma selectedCities_auto (w : World) (cfg : Run.Config) :
  (Run.cityCohortIndex cfg < 0)%Z ->
  Run.selectedCities w cfg
  = getCitiesForCohort Run.TOP_US_CITIES (dayOfYear w mod totalCohorts cfg) (totalCohorts cfg).
Proof.
  intros Hauto. unfold Run.selectedCities. fold (totalCohorts cfg).
  replace (Run.cityCohortIndex cfg <? 0)%Z with true by (symmetry; now apply Z.ltb_lt).
  unfold calculateDailyCohort.
  replace (0 <=? Run.cityCohortIndex cfg)%Z with false by (symmetry; apply Z.leb_gt; lia).
  now rewrite andb_false_r.
Qed.

Lemma one_day_per_cohort (total start i : nat) :
  1 <= total -> i < total ->
  exists k, k < total /\ forall j, j < total -> ((start + j) mod total = i <-> j = k).
Proof.
  intros Ht Hi.
  exists ((i + total - start mod total) mod total).
  pose proof (Nat.mod_upper_bound start total ltac:(lia)) as Hs.
  split; [apply Nat.mod_upper_bound; lia |].
  intros j Hj.
  rewrite <- (Nat.Div0.add_mod_idemp_l start j total).
  set (r := start mod total) in *.
  destruct (Nat.le_gt_cases r i) as [Hle | Hgt].
  - replace ((i + total - r) mod total) with (i - r).
    2:{ replace (i + total - r) with ((i - r) + 1 * total) by lia.
        rewrite Nat.Div0.mod_add. symmetry. apply Nat.mod_small. lia. }
    destruct (Nat.lt_ge_cases (r + j) total) as [Hsmall | Hbig].
    + rewrite Nat.mod_small by lia. lia.
    + replace (r + j) with ((r + j - total) + 1 * total) by lia.
      rewrite Nat.Div0.mod_add, Nat.mod_small by lia. lia.
  - replace ((i + total - r) mod total) with (i + total - r)
      by (symmetry; apply Nat.mod_small; lia).
    destruct (Nat.lt_ge_cases (r + j) total) as [Hsmall | Hbig].
    + rewrite Nat.mod_small by lia. lia.
    + replace (r + j) with ((r + j - total) + 1 * total) by lia.
      rewrite Nat.Div0.mod_add, Nat.mod_small by lia. lia.
Qed.

(** X5.  With the automatic cohort index, over any [totalCohorts]
    consecutive days of a year each of the built-in cities is selected on
    exactly one day. *)
Theorem daily_rotation_covers_each_city_once (w : World) (cfg : Run.Config)
    (startDay : nat) (city : string) :
  (Run.cityCohortIndex cfg < 0)%Z ->
  In city Run.TOP_US_CITIES ->
  exists k, k < totalCohorts cfg
    /\ forall j, j < totalCohorts cfg ->
         (In city (Run.selectedCities (onDay w (startDay + j)) cfg) <-> j = k).
Proof.
  intros Hauto Hcity.
  assert (Hc : 1 <= totalCohorts cfg) by (unfold totalCohorts; lia).
  destruct (@city_in_one_cohort _ _ (totalCohorts cfg) _ Hc TOP_US_CITIES_NoDup Hcity)
    as (i & Hi & Honly).
  destruct (@one_day_per_cohort _ startDay _ Hc Hi) as (k & Hk & Hday).
  exists k. split; [exact Hk |]. intros j Hj.
  rewrite selectedCities_auto by exact Hauto. simpl dayOfYear.
  rewrite Honly. now apply Hday.
Qed.

Lemma daily_rotation_covers_each_city_once_witness :
  exists k, k < totalCohorts Scenarios.singleCellRun
    /\ forall j, j < totalCohorts Scenarios.singleCellRun ->
         (In "Boston, MA"%string
             (Run.selectedCities (onDay Scenarios.quietWorld (0 + j)) Scenarios.singleCellRun)
          <-> j = k).
Proof.
  apply (@daily_rotation_covers_each_city_once Scenarios.quietWorld Scenarios.singleCellRun
           0 "Boston, MA"%string).
  - simpl. lia.
  - simpl. tauto.
Defined.
End RotationFacts.

(* ================================================================= *)
Section PhoneMoreFacts.
Import Js Phone.

(** X6.  For a non-empty input [normalizePhone] reads nothing but the
    digits: two inputs with the same digits get the same result.  An input
    without any digit is turned into a lone plus sign, and digits that
    start with the international prefix 00 lose it, unless there are
    exactly ten of them, which are then taken for a national number and
    get the country code 1 in front. *)
Theorem normalizePhone_reads_digits_only (phone : string) :
  phone <> EmptyString ->
  (forall other, other <> EmptyString ->
     filterChars isDigit other = filterChars isDigit phone ->
     normalizePhone other = normalizePhone phone)
  /\ (filterChars isDigit phone = EmptyString -> normalizePhone phone = "+"%string)
  /\ (forall rest, filterChars isDigit phone = String "0" (String "0" rest) ->
        normalizePhone phone
        = if (String.length rest =? 8) then String "+" (String "1" (String "0" (String "0" rest)))
          else String "+" rest).
Proof.
  intros Hne. split; [| split].
  - intros other Hother Hsame. unfold normalizePhone.
    rewrite (truthy_nonempty Hne), (truthy_nonempty Hother), Hsame. reflexivity.
  - intros Hnone. unfold normalizePhone. rewrite (truthy_nonempty Hne), Hnone. reflexivity.
  - intros rest Hdigits. unfold normalizePhone. rewrite (truthy_nonempty Hne), Hdigits.
    simpl negb. cbv iota. simpl String.length.
    change (S (S (String.length rest)) =? 10) with (String.length rest =? 8).
    destruct (String.length rest =? 8) eqn:Hlen.
    + apply Nat.eqb_eq in Hlen. simpl String.length. rewrite Hlen. reflexivity.
    + simpl String.length.
      replace ((S (S (String.length rest)) =? 11) && startsWith "1" (String "0" (String "0" rest)))
        with false by (simpl startsWith; now rewrite andb_false_r).
      reflexivity.
Qed.

Lemma normalizePhone_reads_digits_only_witness :
  normalizePhone "tel: n/a" = "+"%string
  /\ normalizePhone "0044 20 7946 0958" = "+442079460958"%string.
Proof.
  pose proof (@normalizePhone_reads_digits_only "tel: n/a" ltac:(discriminate)) as Hnone.
  pose proof (@normalizePhone_reads_digits_only "0044 20 7946 0958" ltac:(discriminate))
    as Hprefix.
  split.
  - exact (proj1 (proj2 Hnone) eq_refl).
  - exact (proj2 (proj2 Hprefix) "442079460958"%string eq_refl).
Defined.

End PhoneMoreFacts.

Section ContactMoreFacts.
Import Js Contacts.

Lemma scoreContact_email (mx : string -> bool) (wd : option string) (c : string) (e : Scored) :
  scoreContact mx wd c = Some e -> email e = c.
Proof.
  unfold scoreContact.
  repeat match goal with
         | |- context [if ?b then _ else _] => destruct b
         end; intros H; inversion H; reflexivity.
Qed.

Lemma validEmails_In_inv (mx : string -> bool) (wd : option string) (l : list string)
    (e : Scored) :
  In e (validEmails mx wd l) -> In (email e) l /\ scoreContact mx wd (email e) = Some e.
Proof.
  induction l as [| c rest IH]; simpl; [contradiction |].
  destruct (scoreContact mx wd c) as [entry |] eqn:Hc.
  - intros [<- | Hin].
    + rewrite (scoreContact_email _ _ _ Hc). auto.
    + destruct (IH Hin). auto.
  - intros Hin. destruct (IH Hin). auto.
Qed.

Lemma result_entry (mx : string -> bool) (wd : option string) (l : list string) (c : string) :
  In c (filterBusinessEmails mx wd l) ->
  exists e, In e (validEmails mx wd l) /\ email e = c.
Proof.
  rewrite filterBusinessEmails_unfold. intros Hin.
  apply in_map_iff in Hin as (e & He & Hin). exists e. split; [| exact He].
  apply In_firstn in Hin.
  now apply (Permutation_in _ (sortByScoreDesc_perm _)).
Qed.

Lemma validEmails_NoDup (mx : string -> bool) (wd : option string) (l : list string) :
  NoDup l -> NoDup (map email (validEmails mx wd l)).
Proof.
  induction 1 as [| c rest Hnotin Hnd IH]; simpl; [constructor |].
  destruct (scoreContact mx wd c) as [entry |] eqn:Hc; [| exact IH].
  simpl. constructor; [| exact IH].
  rewrite (scoreContact_email _ _ _ Hc). intros Hin.
  apply in_map_iff in Hin as (e & He & Hin).
  apply validEmails_In_inv in Hin as [Hin _]. now rewrite He in Hin.
Qed.

Lemma firstn_NoDup (X : Type) (n : nat) (l : list X) : NoDup l -> NoDup (firstn n l).
Proof.
  intros Hnd. revert n. induction Hnd as [| x l Hnotin Hnd IH]; intros n.
  - rewrite firstn_nil. constructor.
  - destruct n as [| n]; simpl; constructor; [| apply IH].
    intros Hin. apply Hnotin. now apply In_firstn in Hin.
Qed.

Lemma returned_contact_passes (mx : string -> bool) (wd : option string)
    (l : list string) (contact : string) :
  In contact (filterBusinessEmails mx wd l) ->
  In contact l /\ (isSocialContact contact = true \/ passesOtherRules mx contact = true).
Proof.
  intros Hin. apply result_entry in Hin as (e & Hin & <-).
  apply validEmails_In_inv in Hin as [Hin Hscore]. split; [exact Hin |].
  destruct (isSocialContact (email e)) eqn:Hsocial; [now left | right].
  unfold scoreContact in Hscore. rewrite Hsocial in Hscore.
  unfold passesOtherRules. rewrite Hsocial.
  destruct (rejectedBeforeDns (email e)); [discriminate |].
  destruct (mx (domainOf (toLowerCase (email e)))); [| discriminate].
  destruct (arrayIncludes excludedPrefixes (localOf (toLowerCase (email e))));
    [discriminate | reflexivity].
Qed.

(** X7.  [filterBusinessEmails] only selects: every contact it returns was
    in its input, and is a social handle or an address that passes every
    rejection rule; an input without repetition gives a result without
    repetition; and the empty input gives the empty result. *)
Theorem filterBusinessEmails_selects (resolveMx : string -> bool)
    (websiteDomain : option string) (emailList : list string) :
  (forall contact, In contact (filterBusinessEmails resolveMx websiteDomain emailList) ->
     In contact emailList
     /\ (isSocialContact contact = true \/ passesOtherRules resolveMx contact = true))
  /\ (NoDup emailList -> NoDup (filterBusinessEmails resolveMx websiteDomain emailList))
  /\ filterBusinessEmails resolveMx websiteDomain [] = [].
Proof.
  split; [| split].
  - intros contact. apply returned_contact_passes.
  - intros Hnd. rewrite filterBusinessEmails_unfold, <- firstn_map.
    apply firstn_NoDup.
    apply (Permutation_NoDup (l := map email (validEmails resolveMx websiteDomain emailList))).
    + apply Permutation_map. symmetry. apply sortByScoreDesc_perm.
    + now apply validEmails_NoDup.
  - reflexivity.
Qed.

Lemma filterBusinessEmails_selects_witness :
  NoDup (filterBusinessEmails (fun _ => true) None
           [ "john@google.com"; "jane@yahoo.com"; "test@10minutemail.com" ]%string).
Proof.
  apply (proj1 (proj2 (filterBusinessEmails_selects (fun _ => true) None
           [ "john@google.com"; "jane@yahoo.com"; "test@10minutemail.com" ]%string))).
  repeat constructor; simpl; intuition discriminate.
Defined.

(** X8.  An address is never returned when its domain has no mail
    exchanger, or holds the name of a listed disposable domain anywhere
    inside it.  The list has [mail.com], which is inside [gmail.com],
    [hotmail.com] and [protonmail.com]: addresses at these three
    providers are never returned. *)
Theorem disposable_substring_never_returned (resolveMx : string -> bool)
    (websiteDomain : option string) (emailList : list string) (contact : string) :
  isSocialContact contact = false ->
  (isDisposableDomain (domainOf (toLowerCase contact)) = true
   \/ resolveMx (domainOf (toLowerCase contact)) = false
   \/ In (domainOf (toLowerCase contact)) [ "gmail.com"; "hotmail.com"; "protonmail.com" ]%string) ->
  ~ In contact (filterBusinessEmails resolveMx websiteDomain emailList).
Proof.
  intros Hsocial Hbad Hin.
  destruct (returned_contact_passes _ _ _ _ Hin) as [_ [Hs | Hpass]]; [congruence |].
  unfold passesOtherRules in Hpass.
  repeat (apply andb_prop in Hpass as [Hpass ?]).
  assert (Hnotdisp : isDisposableDomain (domainOf (toLowerCase contact)) = false).
  { match goal with
    | H : negb (rejectedBeforeDns contact) = true |- _ =>
        apply negb_true_iff in H; unfold rejectedBeforeDns in H
    end.
    repeat match goal with
           | H : (_ || _) = false |- _ => apply orb_false_elim in H as [H ?]
           end.
    assumption. }
  destruct Hbad as [Hdisp | [Hmx | Hprov]]; [congruence | congruence |].
  simpl in Hprov.
  destruct Hprov as [Heq | [Heq | [Heq | []]]]; rewrite <- Heq in Hnotdisp;
    vm_compute in Hnotdisp; discriminate.
Qed.

Lemma disposable_substring_never_returned_witness :
  ~ In "anna.lee@gmail.com"%string
       (filterBusinessEmails (fun _ => true) None
          [ "anna.lee@gmail.com"; "info@cutandcurl.com" ]%string).
Proof.
  apply (@disposable_substring_never_returned (fun _ => true) None
           [ "anna.lee@gmail.com"; "info@cutandcurl.com" ]%string "anna.lee@gmail.com"%string).
  - reflexivity.
  - right. right. left. reflexivity.
Defined.

Lemma validEmails_fixed (mx : string -> bool) (wd : option string) (entries : list Scored) :
  Forall (fun e => scoreContact mx wd (email e) = Some e) entries ->
  validEmails mx wd (map email entries) = entries.
Proof.
  induction 1 as [| e rest He _ IH]; simpl; [reflexivity |].
  now rewrite He, IH.
Qed.

Lemma sortByScoreDesc_sorted_id (l : list Scored) :
  StronglySorted scoreDescending l -> sortByScoreDesc l = l.
Proof.
  induction 1 as [| x l Hsorted IH Hall]; simpl; [reflexivity |].
  rewrite IH. destruct l as [| y l']; [reflexivity |]. simpl.
  inversion Hall as [| ? ? Hy _]; subst. unfold scoreDescending in Hy.
  now replace (score y <=? score x)%Z with true by (symmetry; now apply Z.leb_le).
Qed.

Lemma firstn_StronglySorted (X : Type) (R : X -> X -> Prop) (n : nat) (l : list X) :
  StronglySorted R l -> StronglySorted R (firstn n l).
Proof.
  intros Hs. revert n. induction Hs as [| x l Hs IH Hall]; intros n.
  - rewrite firstn_nil. constructor.
  - destruct n as [| n]; simpl; constructor; [apply IH |].
    apply Forall_forall. intros y Hy. apply In_firstn in Hy.
    now apply (proj1 (Forall_forall _ _) Hall).
Qed.

(** X9.  Filtering a filtered list changes nothing: the contacts returned
    are kept, in the same order, when the filter is applied again with the
    same DNS answers and website domain. *)
Theorem filterBusinessEmails_idempotent (resolveMx : string -> bool)
    (websiteDomain : option string) (emailList : list string) :
  filterBusinessEmails resolveMx websiteDomain
    (filterBusinessEmails resolveMx websiteDomain emailList)
  = filterBusinessEmails resolveMx websiteDomain emailList.
Proof.
  rewrite (filterBusinessEmails_unfold resolveMx websiteDomain emailList).
  set (top := firstn 6 (sortByScoreDesc (validEmails resolveMx websiteDomain emailList))).
  rewrite filterBusinessEmails_unfold.
  rewrite validEmails_fixed.
  - rewrite sortByScoreDesc_sorted_id
      by (apply firstn_StronglySorted, sortByScoreDesc_sorted).
    rewrite firstn_all2; [reflexivity |]. apply firstn_le_length.
  - apply Forall_forall. intros e He. apply In_firstn in He.
    apply (Permutation_in _ (sortByScoreDesc_perm _)) in He.
    now apply validEmails_In_inv in He as [_ He].
Qed.
End ContactMoreFacts.

(* ================================================================= *)
Section ScoreFacts.
Import Js Contacts.



End ScoreFacts.

(* ================================================================= *)
Section ShapeFacts.
Import Js Re Contacts Shape.

Lemma allChars_app (p : ascii -> bool) (u v : string) :
  allChars p (u ++ v) = allChars p u && allChars p v.
Proof. induction u as [| c u IH]; simpl; [reflexivity |]. now rewrite IH, andb_assoc. Qed.

Lemma allChars_impl (p q : ascii -> bool) (s : string) :
  (forall c, p c = true -> q c = true) -> allChars p s = true -> allChars q s = true.
Proof.
  intros Hpq. induction s as [| c s IH]; simpl; [reflexivity |].
  intros H. apply andb_prop in H as [Hc Hs]. now rewrite (Hpq c Hc), IH.
Qed.

Lemma Lang_within (p : ascii -> bool) (r : regex) (s : string) :
  Lang r s -> within p r -> allChars p s = true.
Proof.
  induction 1 as [| q c Hc | r1 r2 u v _ IH1 _ IH2 | r1 r2 u _ IH | r1 r2 u _ IH
                  | r1 | r1 u v _ IH1 _ IH2]; simpl; intros Hw.
  - reflexivity.
  - now rewrite (Hw c Hc).
  - destruct Hw as [Hw1 Hw2]. now rewrite allChars_app, IH1, IH2.
  - now apply IH.
  - now apply IH.
  - reflexivity.
  - rewrite allChars_app, IH1, IH2; auto.
Qed.

Lemma beforeFirst_split (sep : ascii) (u v : string) :
  allChars (fun c => negb (Ascii.eqb c sep)) u = true ->
  beforeFirst sep (u ++ String sep v) = u /\ afterFirst sep (u ++ String sep v) = Some v.
Proof.
  induction u as [| c u IH]; simpl.
  - intros _. now rewrite Ascii.eqb_refl.
  - intros H. apply andb_prop in H as [Hc Hu]. apply negb_true_iff in Hc. rewrite Hc.
    destruct (IH Hu) as [-> ->]. auto.
Qed.

Lemma beforeFirst_whole (sep : ascii) (u : string) :
  allChars (fun c => negb (Ascii.eqb c sep)) u = true -> beforeFirst sep u = u.
Proof.
  induction u as [| c u IH]; simpl; [reflexivity |].
  intros H. apply andb_prop in H as [Hc Hu]. apply negb_true_iff in Hc.
  now rewrite Hc, IH.
Qed.

Lemma localChar_not_at (c : ascii) : localChar c = true -> negb (Ascii.eqb c "@") = true.
Proof.
  intros Hc. destruct (Ascii.eqb c "@") eqn:Heq; [| reflexivity].
  apply Ascii.eqb_eq in Heq. subst c. discriminate Hc.
Qed.

Lemma domainChar_local (c : ascii) : domainChar c = true -> localChar c = true.
Proof.
  unfold domainChar, localChar. intros H.
  apply orb_prop in H as [H | H]; [apply orb_prop in H as [H | H] |]; rewrite H;
    repeat rewrite orb_true_r; reflexivity.
Qed.

(** X10.  An address that [EMAIL_REGEX] accepts is a local part, one at
    sign, a host, a dot and a top-level name of two letters or more; the
    local part and the host are not empty and hold letters, digits, dots
    and hyphens only (the local part underscores too), so no plus sign, no
    percent sign and no space; and [localOf] and [domainOf] split it at
    that at sign. *)
Theorem isValidEmailFormat_shape (address : string) :
  isValidEmailFormat address = true ->
  exists local host tld,
    address = (local ++ "@" ++ host ++ "." ++ tld)%string
    /\ localOf address = local
    /\ domainOf address = (host ++ "." ++ tld)%string
    /\ local <> EmptyString /\ host <> EmptyString /\ 2 <= String.length tld
    /\ allChars localChar local = true
    /\ allChars domainChar host = true
    /\ allChars isAlpha tld = true.
Proof.
  unfold isValidEmailFormat. intros H. apply matches_Lang in H.
  unfold EMAIL_REGEX in H. cbn [cats] in H.
  apply Lang_Cat_inv in H as (a & r1 & -> & Ha & H).
  apply Lang_Cat_inv in H as (o1 & r2 & -> & Ho1 & H).
  apply Lang_Cat_inv in H as (at' & r3 & -> & Hat & H).
  apply Lang_Cat_inv in H as (a2 & r4 & -> & Ha2 & H).
  apply Lang_Cat_inv in H as (o2 & r5 & -> & Ho2 & H).
  apply Lang_Cat_inv in H as (dot' & tld & -> & Hdot & Htld).
  apply Lang_Cls_inv in Ha as (c1 & -> & Hc1).
  apply Lang_Cls_inv in Ha2 as (c2 & -> & Hc2).
  apply Lang_Cls_inv in Hat as (cat' & -> & Hcat).
  apply Lang_Cls_inv in Hdot as (cdot & -> & Hcdot).
  apply Ascii.eqb_eq in Hcat, Hcdot. subst cat' cdot.
  assert (Hlocal1 : allChars localChar o1 = true).
  { apply (Lang_within localChar Ho1). simpl.
    split; [split |]; auto. intros c Hc. unfold localChar. now rewrite Hc. }
  assert (Hhost1 : allChars domainChar o2 = true).
  { apply (Lang_within domainChar Ho2). simpl.
    split; [split |]; auto. intros c Hc. unfold domainChar. now rewrite Hc. }
  assert (Htld1 : allChars isAlpha tld = true).
  { apply (Lang_within isAlpha Htld). simpl. repeat split; auto. }
  assert (Htld2 : 2 <= String.length tld).
  { unfold atLeast in Htld. simpl rep in Htld.
    apply Lang_Cat_inv in Htld as (u & v & -> & Hu & _).
    apply Lang_Cat_inv in Hu as (u1 & u' & -> & Hu1 & Hu).
    apply Lang_Cat_inv in Hu as (u2 & u3 & -> & Hu2 & _).
    apply Lang_Cls_inv in Hu1 as (d1 & -> & _).
    apply Lang_Cls_inv in Hu2 as (d2 & -> & _).
    simpl. lia. }
  assert (Hlocal : allChars localChar (String c1 o1) = true).
  { simpl. unfold localChar at 1. now rewrite Hc1, Hlocal1. }
  assert (Hhost : allChars domainChar (String c2 o2) = true).
  { simpl. unfold domainChar at 1. now rewrite Hc2, Hhost1. }
  assert (Hnoat : forall u, allChars localChar u = true ->
                    allChars (fun c => negb (Ascii.eqb c "@")) u = true).
  { intros u. apply allChars_impl. apply localChar_not_at. }
  assert (Hrest : allChars localChar (String c2 o2 ++ "." ++ tld) = true).
  { rewrite allChars_app, (@allChars_impl domainChar localChar _ domainChar_local Hhost). simpl.
    apply (@allChars_impl isAlpha localChar); [| exact Htld1].
    intros c Hc. unfold localChar, isAlnum. now rewrite Hc. }
  exists (String c1 o1), (String c2 o2), tld.
  assert (Heq : (String c1 EmptyString ++ o1 ++ String "@" EmptyString
                   ++ String c2 EmptyString ++ o2 ++ String "." EmptyString ++ tld
                 = String c1 o1 ++ String "@" (String c2 o2 ++ "." ++ tld))%string).
  { reflexivity. }
  rewrite Heq.
  destruct (beforeFirst_split "@" (String c1 o1) (String c2 o2 ++ "." ++ tld)
              (Hnoat _ Hlocal)) as [Hbefore Hafter].
  split; [reflexivity |]. split; [exact Hbefore |].
  split.
  { unfold domainOf, secondField. rewrite Hafter.
    now rewrite (beforeFirst_whole "@" _ (Hnoat _ Hrest)). }
  split; [discriminate |]. split; [discriminate |].
  split; [exact Htld2 |]. split; [exact Hlocal |]. split; [exact Hhost | exact Htld1].
Qed.


Lemma isValidEmailFormat_shape_witness :
  exists local host tld,
    "info@cutandcurl.com"%string = (local ++ "@" ++ host ++ "." ++ tld)%string
    /\ localOf "info@cutandcurl.com" = local
    /\ domainOf "info@cutandcurl.com" = (host ++ "." ++ tld)%string
    /\ local <> EmptyString /\ host <> EmptyString /\ 2 <= String.length tld
    /\ allChars localChar local = true
    /\ allChars domainChar host = true
    /\ allChars isAlpha tld = true.
Proof.
  apply (@isValidEmailFormat_shape "info@cutandcurl.com"%string).
  vm_compute. reflexivity.
Defined.

End ShapeFacts.

Section SocialFacts.
Import Js Re Contacts Shape Run.

Lemma setAdd_Forall (P : string -> Prop) (x : string) (l : list string) :
  P x -> Forall P l -> Forall P (setAdd x l).
Proof.
  intros Hx. induction 1 as [| y l Hy Hl IH]; simpl; [now repeat constructor |].
  destruct (String.eqb x y); constructor; auto.
Qed.

Lemma setAdd_keeps (x y : string) (l : list string) : In y l -> In y (setAdd x l).
Proof.
  induction l as [| z l IH]; simpl; [contradiction |].
  destruct (String.eqb x z); intros [<- | Hin]; simpl; auto.
Qed.

Lemma setAdd_adds (x : string) (l : list string) : In x (setAdd x l).
Proof.
  induction l as [| z l IH]; simpl; [now left |].
  destruct (String.eqb x z) eqn:Heq; simpl; [| now right].
  apply String.eqb_eq in Heq. now left.
Qed.

Lemma takeWhile_all (p : ascii -> bool) (s : string) : allChars p (takeWhile p s) = true.
Proof.
  induction s as [| c s IH]; simpl; [reflexivity |].
  destruct (p c) eqn:Hc; simpl; [now rewrite Hc |]; reflexivity.
Qed.

Lemma includes_needs_char (p : ascii -> bool) (c : ascii) (needle s : string) :
  p c = false -> allChars p s = true -> includes (String c needle) s = false
  /\ forall d, includes (String d (String c needle)) s = false.
Proof.
  intros Hc. induction s as [| a s IH]; simpl; [auto |].
  intros H. apply andb_prop in H as [Ha Hs]. destruct (IH Hs) as [IH1 IH2].
  rewrite IH1. split.
  - destruct (Ascii.eqb c a) eqn:Heq; [| reflexivity].
    apply Ascii.eqb_eq in Heq. congruence.
  - intros d. rewrite IH2. destruct (Ascii.eqb d a); [| reflexivity]. simpl.
    destruct s as [| b s']; [reflexivity |]. simpl in Hs |- *.
    apply andb_prop in Hs as [Hb _].
    destruct (Ascii.eqb c b) eqn:Heq; [| reflexivity].
    apply Ascii.eqb_eq in Heq. congruence.
Qed.

Lemma captureHandle_chars (hostSlash link handle : string) :
  captureHandle hostSlash link = Some handle ->
  handle <> EmptyString /\ allChars handleChar handle = true.
Proof.
  induction link as [| c link IH]; simpl.
  - destruct (startsWith hostSlash EmptyString && _) eqn:Hhit; [| discriminate].
    intros H. injection H as <-. apply andb_prop in Hhit as [_ Hhit].
    split; [| apply takeWhile_all]. intros Hempty. rewrite Hempty in Hhit. discriminate.
  - destruct (startsWith hostSlash (String c link) && _) eqn:Hhit; [| exact IH].
    intros H. injection H as <-. apply andb_prop in Hhit as [_ Hhit].
    split; [| apply takeWhile_all]. intros Hempty. rewrite Hempty in Hhit. discriminate.
Qed.

Lemma addSocial_handles (acc : list string) (link : string) :
  Forall (fun c => isHandle c = true) acc ->
  Forall (fun c => isHandle c = true) (addSocial acc link).
Proof.
  intros Hacc. unfold addSocial.
  assert (Hig : Forall (fun c => isHandle c = true)
                  match captureHandle "instagram.com/" link with
                  | Some handle =>
                      if negb (includes "p/" handle) && negb (includes "explore" handle)
                      then setAdd ("instagram:" ++ handle)%string acc
                      else acc
                  | None => acc
                  end).
  { destruct (captureHandle "instagram.com/" link) as [handle |]; [| exact Hacc].
    destruct (_ && _); [| exact Hacc]. now apply setAdd_Forall. }
  destruct (captureHandle "facebook.com/" link) as [handle |]; [| exact Hig].
  destruct (negb _); [| exact Hig]. now apply setAdd_Forall.
Qed.

Lemma socialContacts_handles (links : list string) (acc : list string) :
  Forall (fun c => isHandle c = true) acc ->
  Forall (fun c => isHandle c = true) (fold_left addSocial links acc).
Proof.
  revert acc. induction links as [| link links IH]; intros acc Hacc; simpl; [exact Hacc |].
  now apply IH, addSocial_handles.
Qed.

(** X11.  Every social contact [enrichPlaceDetails] collects from the
    links of a page starts with [instagram:] or [facebook:], never with
    [twitter:], and the filter scores it 30 whatever the DNS answers and
    the website domain. *)
Theorem social_handles_score_thirty (links : list string) (contact : string)
    (resolveMx : string -> bool) (websiteDomain : option string) :
  In contact (fold_left addSocial links []) ->
  isHandle contact = true
  /\ startsWith "twitter:" contact = false
  /\ scoreContact resolveMx websiteDomain contact = Some {| email := contact; score := 30 |}.
Proof.
  intros Hin.
  assert (Hhandle : isHandle contact = true).
  { pose proof (@socialContacts_handles links [] (Forall_nil _)) as Hall.
    now apply (proj1 (Forall_forall _ _) Hall). }
  split; [exact Hhandle | split].
  - unfold isHandle in Hhandle. destruct contact as [| c rest]; [discriminate |].
    change (startsWith "twitter:" (String c rest))
      with (Ascii.eqb "t" c && startsWith "witter:" rest).
    destruct (Ascii.eqb "t" c) eqn:Heq; [| reflexivity].
    apply Ascii.eqb_eq in Heq. subst c. simpl in Hhandle. discriminate Hhandle.
  - unfold scoreContact, isSocialContact. unfold isHandle in Hhandle. now rewrite Hhandle.
Qed.

Lemma social_handles_score_thirty_witness :
  scoreContact (fun _ => false) None "instagram:cutandcurl"
  = Some {| email := "instagram:cutandcurl"; score := 30 |}.
Proof.
  apply (proj2 (proj2 (@social_handles_score_thirty
                         [ "https://www.instagram.com/cutandcurl/" ]%string
                         "instagram:cutandcurl"%string (fun _ => false) None
                         ltac:(vm_compute; left; reflexivity)))).
Defined.

(** X12.  A handle captured after [instagram.com/] or [facebook.com/] is
    not empty, holds letters, digits, underscores and dots only, and so
    never contains [p/]: the test that is to leave out links to posts
    cannot fire, and a link to an Instagram post adds the contact
    [instagram:p]. *)
Theorem post_link_exclusion_is_dead (hostSlash link handle : string) :
  captureHandle hostSlash link = Some handle ->
  handle <> EmptyString
  /\ allChars handleChar handle = true
  /\ includes "p/" handle = false
  /\ forall (postId : string) (socialContacts : list string),
       In "instagram:p"%string
          (addSocial socialContacts ("https://www.instagram.com/p/" ++ postId)).
Proof.
  intros Hcap. destruct (captureHandle_chars _ _ Hcap) as [Hne Hall].
  split; [exact Hne | split; [exact Hall | split]].
  - now apply (proj2 (@includes_needs_char handleChar "/" EmptyString handle eq_refl Hall)).
  - intros postId acc. unfold addSocial.
    assert (Hig : captureHandle "instagram.com/" ("https://www.instagram.com/p/" ++ postId)
                  = Some "p"%string) by reflexivity.
    rewrite Hig. simpl negb. simpl andb. cbv iota.
    destruct (captureHandle "facebook.com/" _) as [fb |]; [| apply setAdd_adds].
    destruct (negb _); [apply setAdd_keeps |]; apply setAdd_adds.
Qed.


Lemma post_link_exclusion_is_dead_witness :
  includes "p/" "p" = false.
Proof.
  apply (proj1 (proj2 (proj2 (@post_link_exclusion_is_dead "instagram.com/"
                                "https://www.instagram.com/p/Cabc123/" "p" eq_refl)))).
Defined.

End SocialFacts.

(* ================================================================= *)
Section HarvestMoreFacts.
Import Js Harvest.









End HarvestMoreFacts.

Section GeoMoreFacts.
Import Geo.
Local Open Scope R_scope.




End GeoMoreFacts.

(* ================================================================= *)
Section HoareFacts.
Import Js Run Invariants.

Lemma hoare_ret (A : Type) (a : A) (P : State -> Prop) (Q : A -> State -> Prop)
    (E : State -> Prop) :
  (forall s, P s -> Q a s) -> hoare P (ret a) Q E.
Proof. intros H s Hs. now apply H. Qed.

Lemma hoare_throw (A : Type) (e : exn) (P : State -> Prop) (Q : A -> State -> Prop)
    (E : State -> Prop) :
  (forall s, P s -> E s) -> hoare P (throw e) Q E.
Proof. intros H s Hs. now apply H. Qed.

Lemma hoare_bind (A B : Type) (P : State -> Prop) (m : M A) (k : A -> M B)
    (R : A -> State -> Prop) (Q : B -> State -> Prop) (E : State -> Prop) :
  hoare P m R E -> (forall a, hoare (R a) (k a) Q E) -> hoare P (bind m k) Q E.
Proof.
  intros Hm Hk s Hs. unfold bind. specialize (Hm s Hs).
  destruct (m s) as [[e | a] s1]; [exact Hm | now apply Hk].
Qed.

Lemma hoare_tryCatch (A : Type) (P P' : State -> Prop) (body handler : M A)
    (Q : A -> State -> Prop) (E : State -> Prop) :
  hoare P body Q P' -> hoare P' handler Q E -> hoare P (tryCatch body handler) Q E.
Proof.
  intros Hb Hh s Hs. unfold tryCatch. specialize (Hb s Hs).
  destruct (body s) as [[e | a] s1]; [now apply Hh | exact Hb].
Qed.

Lemma hoare_conseq (A : Type) (P P' : State -> Prop) (m : M A) (Q Q' : A -> State -> Prop)
    (E E' : State -> Prop) :
  (forall s, P' s -> P s) -> hoare P m Q E -> (forall a s, Q a s -> Q' a s) ->
  (forall s, E s -> E' s) -> hoare P' m Q' E'.
Proof.
  intros HP Hm HQ HE s Hs. specialize (Hm s (HP s Hs)).
  destruct (m s) as [[e | a] s1]; [now apply HE | now apply HQ].
Qed.

Lemma hoare_gets (A : Type) (f : State -> A) (P : State -> Prop) (E : State -> Prop) :
  hoare P (gets f) (fun a s => P s /\ a = f s) E.
Proof. intros s Hs. simpl. auto. Qed.

Lemma hoare_modify (f : State -> State) (P : State -> Prop) (Q : unit -> State -> Prop)
    (E : State -> Prop) :
  (forall s, P s -> Q tt (f s)) -> hoare P (modify f) Q E.
Proof. intros H s Hs. now apply H. Qed.

Lemma hoare_forEach (A : Type) (l : list A) (body : A -> M unit) (I E : State -> Prop) :
  (forall x, hoare I (body x) (fun _ => I) E) -> hoare I (forEach l body) (fun _ => I) E.
Proof.
  intros Hbody. induction l as [| x l IH]; simpl.
  - now apply hoare_ret.
  - eapply hoare_bind; [apply Hbody | intros u; exact IH].
Qed.


(** A quiet procedure keeps whatever depends on the dataset, the accepted
    set and the batch buffer only. *)
Lemma hoare_quiet (A : Type) (m : M A) (R : A -> Prop) (I : State -> Prop) :
  quiet m R -> (forall s s', quietStep s s' -> I s -> I s') ->
  hoare I m (fun a s' => I s' /\ R a) I.
Proof.
  intros Hq Hstable s Hs. destruct (Hq s) as [Hstep Hres].
  destruct (m s) as [[e | a] s']; simpl in *; eauto.
Qed.

Lemma bind_returns (A B : Type) (m : M A) (k : A -> M B) (s s' : State) (b : B) :
  bind m k s = (inr b, s') -> exists a s1, m s = (inr a, s1) /\ k a s1 = (inr b, s').
Proof.
  unfold bind. destruct (m s) as [[e | a] s1]; [discriminate | eauto].
Qed.

End HoareFacts.

(* ================================================================= *)
Section RowFacts.
Import Js Run Invariants Enrichment Contacts.

Lemma normalizePhone_shape (p : string) : phoneOk (Phone.normalizePhone p).
Proof.
  unfold phoneOk, Phone.normalizePhone.
  destruct (negb (truthy p)); [now left | right].
  pose proof (allChars_filterChars isDigit p) as Hall.
  set (raw := filterChars isDigit p) in *.
  set (digits := if (String.length raw =? 10) then String "1" raw else raw).
  assert (Hdigits : allChars isDigit digits = true).
  { subst digits. destruct (String.length raw =? 10); [simpl |]; exact Hall. }
  destruct ((String.length digits =? 11) && startsWith "1" digits); [eauto |].
  destruct (startsWith "00" digits); [| eauto].
  eexists. split; [reflexivity |]. now apply allChars_dropChars.
Qed.

Lemma filterBusinessEmails_length (mx : string -> bool) (wd : option string)
    (l : list string) :
  List.length (filterBusinessEmails mx wd l) <= 6.
Proof. rewrite filterBusinessEmails_unfold, length_map. apply firstn_le_length. Qed.

Lemma quiet_enriched (w : World) (place : Place) :
  quiet (enrichPlaceDetails w place) (enriched place).
Proof.
  unfold enrichPlaceDetails. apply quiet_tryCatch.
  - eapply quiet_bind; [apply quiet_checkLimitsIfEnabled |]. intros _ _.
    eapply quiet_bind with
      (R := fun p1 => placeId p1 = placeId place /\ name p1 = name place
                      /\ searchTerm p1 = searchTerm place
                      /\ formattedAddress p1 = formattedAddress place
                      /\ (phoneOk (phone place) -> phoneOk (phone p1))).
    + destruct (negb (truthy (website place)) && negb (truthy (phone place)));
        [| apply quiet_ret; tauto].
      eapply quiet_bind; [now apply quiet_emit |]. intros _ _.
      destruct (placeDetails w (placeId place)) as [details |]; [| apply quiet_throw].
      apply quiet_ret. simpl. repeat split. intros Hok.
      unfold orElse. destruct (truthy (phone place)); [exact Hok |].
      apply normalizePhone_shape.
    + intros p1 (Hid & Hname & Hterm & Haddr & Hphone).
      destruct (truthy (website p1)) eqn:Hsite.
      * apply quiet_tryCatch.
        -- eapply quiet_bind; [now apply quiet_emit |]. intros _ _.
           destruct (httpGet w (website p1)) as [homepage |]; [| apply quiet_throw].
           eapply quiet_bind; [apply quiet_harvest |]. intros allRaw _.
           apply quiet_ret. unfold enriched. simpl.
           repeat (split; [assumption |]).
           split; [apply filterBusinessEmails_length | split; [assumption |]].
           intros Hempty. rewrite Hempty in Hsite. discriminate.
        -- apply quiet_ret. unfold enriched. simpl.
           repeat (split; [assumption |]). split; [lia | split; [assumption | reflexivity]].
      * apply quiet_ret. unfold enriched. simpl.
        repeat (split; [assumption |]). split; [lia | split; [assumption | reflexivity]].
  - apply quiet_ret. unfold enriched. simpl. repeat (split; [reflexivity |]).
    split; [lia | split; [now left | reflexivity]].
Qed.

Lemma mapM_quiet_total (A B : Type) (f : A -> M B) (R : A -> B -> Prop) :
  (forall x, quiet (f x) (R x)) -> (forall x, total (f x)) ->
  forall l s, exists ys s', mapM f l s = (inr ys, s') /\ Forall2 R l ys /\ quietStep s s'.
Proof.
  intros Hq Ht. induction l as [| x l IH]; intros s; simpl.
  - exists [], s. split; [reflexivity | split; [constructor | apply quietStep_refl]].
  - unfold bind at 1. destruct (Ht x s) as (y & s1 & Hy). destruct (Hq x s) as [Hstep Hres].
    rewrite Hy in *. simpl in Hstep, Hres.
    unfold bind at 1. destruct (IH s1) as (ys & s2 & -> & Hall & Hstep2).
    exists (y :: ys), s2. split; [reflexivity | split].
    + constructor; [now apply Hres | exact Hall].
    + eapply quietStep_trans; eassumption.
Qed.

Lemma enrichBatch_enriched (w : World) (cfg : Config) (s : State) :
  exists s', enrichBatch w cfg s = (inr tt, s')
    /\ dataset s' = dataset s /\ allPlaces s' = allPlaces s
    /\ Forall2 enriched (batchLeads s) (batchLeads s').
Proof.
  unfold enrichBatch. unfold bind at 1. simpl. unfold bind at 1.
  destruct (@mapM_quiet_total _ _
              (fun lead => bind (enrichPlaceDetails w lead)
                 (fun lead' => bind (markPlaceSeen cfg (placeId lead')) (fun _ => ret lead')))
              enriched) with (l := batchLeads s) (s := s)
    as (ys & s1 & -> & Hall & Hd & Ha & Hb & _).
  - intros lead. eapply quiet_bind; [apply quiet_enriched |]. intros lead' Hlead.
    eapply quiet_bind; [apply quiet_markPlaceSeen |]. intros _ _. now apply quiet_ret.
  - intros lead. apply total_bind; [apply total_enrichPlaceDetails |]. intros lead'.
    apply total_bind; [apply total_markPlaceSeen | intros; apply total_ret].
  - exists (setBatchLeads ys s1). simpl. auto.
Qed.

Lemma enriched_ids (batch batch' : list Place) :
  Forall2 enriched batch batch' -> map placeId batch' = map placeId batch.
Proof.
  induction 1 as [| p p' l l' Hp _ IH]; simpl; [reflexivity |].
  destruct Hp as (-> & _). now rewrite IH.
Qed.

Lemma enriched_ok (batch batch' : list Place) :
  Forall2 enriched batch batch' -> Forall placeOk batch -> Forall placeOk batch'.
Proof.
  induction 1 as [| p p' l l' Hp _ IH]; intros Hall; [constructor |].
  inversion Hall as [| ? ? (Hid & _ & Hphone) Hrest]; subst.
  destruct Hp as (Hid' & _ & _ & _ & Hlen & Hphone' & _).
  constructor; [| now apply IH].
  split; [now rewrite Hid' | split; [exact Hlen | now apply Hphone']].
Qed.

Lemma rowsOk_flushed (s : State) : rowsOk s -> rowsFlushed s.
Proof.
  intros (Hnd & Hincl & Hrows & _).
  split; [now apply NoDup_app_remove_r in Hnd | split; [| exact Hrows]].
  intros id Hin. apply Hincl, in_or_app. now left.
Qed.

Lemma rowsFlushed_cleared (s : State) : rowsFlushed s -> rowsOk (setBatchLeads [] s).
Proof.
  intros (Hnd & Hincl & Hrows). unfold rowsOk, datasetIds. simpl. rewrite app_nil_r.
  split; [exact Hnd | split; [exact Hincl | split; [exact Hrows | constructor]]].
Qed.

Lemma rowsOk_quietStep (s s' : State) : quietStep s s' -> rowsOk s -> rowsOk s'.
Proof.
  intros (Hd & Ha & Hb & _). unfold rowsOk, datasetIds. now rewrite Hd, Ha, Hb.
Qed.

Lemma rows_quiet (A : Type) (m : M A) (R : A -> Prop) :
  quiet m R -> hoare rowsOk m (fun a s' => rowsOk s' /\ R a) rowsFlushed.
Proof.
  intros Hq. eapply hoare_conseq;
    [| apply (@hoare_quiet _ _ _ rowsOk Hq rowsOk_quietStep) | auto | apply rowsOk_flushed].
  auto.
Qed.

Lemma rows_quiet_ (A : Type) (m : M A) (R : A -> Prop) :
  quiet m R -> hoare rowsOk m (fun _ => rowsOk) rowsFlushed.
Proof.
  intros Hq. eapply hoare_conseq; [| apply (rows_quiet Hq) | | auto]; simpl; auto.
  now intros a s [H _].
Qed.

Lemma enrichBatch_rows (w : World) (cfg : Config) :
  hoare rowsOk (enrichBatch w cfg) (fun _ => rowsOk) rowsFlushed.
Proof.
  intros s (Hnd & Hincl & Hrows & Hbatch).
  destruct (enrichBatch_enriched w cfg s) as (s' & -> & Hd & Ha & Hall).
  unfold rowsOk, datasetIds in *. rewrite Hd, Ha, (enriched_ids Hall).
  split; [assumption | split; [assumption | split; [assumption |]]].
  now apply (enriched_ok Hall).
Qed.

Lemma saveLeads_rows (w : World) (term city : string) :
  hoare rowsOk
    (bind (gets batchLeads) (fun batch => saveLeadsIncremental w batch term city))
    (fun _ => rowsFlushed) rowsFlushed.
Proof.
  intros s Hs. unfold bind at 1. simpl.
  unfold saveLeadsIncremental. destruct (batchLeads s) as [| lead rest] eqn:Hbatch.
  - simpl. now apply rowsOk_flushed.
  - unfold bind, modify, gets, emit. simpl.
    destruct Hs as (Hnd & Hincl & Hrows & Hok). rewrite Hbatch in *.
    unfold rowsFlushed, datasetIds in *. simpl.
    set (mk := fun lead0 : Place =>
                 {| leadPlace := setSearchTerm (orElse (searchTerm lead0) term) lead0;
                    cityProcessed := city; apifyRunId := actorRunId w;
                    scrapedAt := clock s |}).
    match goal with
    | |- context [?row :: map mk rest] =>
        change (row :: map mk rest) with (map mk (lead :: rest))
    end.
    assert (Hids : map (fun row : Lead => placeId (leadPlace row)) (map mk (lead :: rest))
                   = map placeId (lead :: rest))
      by (rewrite map_map; reflexivity).
    rewrite map_app, Hids.
    split; [exact Hnd | split; [exact Hincl |]].
    apply Forall_app. split; [exact Hrows |].
    apply Forall_map. revert Hok. apply Forall_impl. intros p Hp. exact Hp.
Qed.

Lemma saveCheckpoint_rowsFlushed kind c t :
  hoare rowsFlushed (saveCheckpoint kind c t) (fun _ => rowsFlushed) rowsFlushed.
Proof. intros s Hs. exact Hs. Qed.

Lemma saveCheckpoint_rows kind c t :
  hoare rowsOk (saveCheckpoint kind c t) (fun _ => rowsOk) rowsFlushed.
Proof. intros s Hs. exact Hs. Qed.

Lemma flush_then (w : World) (term city : string) (tail : M unit) :
  hoare rowsFlushed tail (fun _ => rowsOk) rowsFlushed ->
  hoare rowsOk
    (bind (gets batchLeads) (fun batch =>
     bind (saveLeadsIncremental w batch term city) (fun _ => tail)))
    (fun _ => rowsOk) rowsFlushed.
Proof.
  intros Htail s Hs.
  pose proof (@saveLeads_rows w term city s Hs) as Hsave.
  unfold bind at 1. simpl. unfold bind at 1 in Hsave. simpl in Hsave.
  unfold bind at 1.
  destruct (saveLeadsIncremental w (batchLeads s) term city s) as [[e | []] s1];
    [exact Hsave |].
  now apply Htail.
Qed.

Lemma clearBatch_rows :
  hoare rowsFlushed (modify (setBatchLeads [])) (fun _ => rowsOk) rowsFlushed.
Proof. apply hoare_modify. intros s Hs. now apply rowsFlushed_cleared. Qed.

Lemma processPlace_rows (w : World) (cfg : Config) (city : string)
    (cityIdx termIdx : nat) (term : string) (p : RawPlace) :
  hoare rowsOk (processPlace w cfg city cityIdx termIdx term p) (fun _ => rowsOk) rowsFlushed.
Proof.
  unfold processPlace.
  destruct (negb (truthy (rawId p))) eqn:Hid; [now apply hoare_ret |].
  eapply hoare_bind; [apply (rows_quiet_ (quiet_hasRecentPlace cfg (rawId p))) |].
  intros [|].
  - apply hoare_modify. intros s Hs. exact Hs.
  - eapply hoare_bind; [apply hoare_gets |]. intros [|].
    + apply hoare_ret. now intros s [Hs _].
    + eapply hoare_bind with
        (R := fun _ s1 => exists s, (rowsOk s /\ ~ In (rawId p) (allPlaces s))
                                    /\ s1 = setAllPlaces (allPlaces s ++ [rawId p]) s).
      { apply hoare_modify. intros s [Hs Hknown]. exists s. split; [split |]; auto.
        intros Hin. apply arrayIncludes_In in Hin. congruence. }
      intros u. eapply hoare_bind with (R := fun _ => rowsOk).
      { apply hoare_modify. intros s1 (s & [(Hnd & Hincl & Hrows & Hbatch) Hnew] & ->).
        unfold rowsOk, datasetIds in *. simpl. rewrite map_app. simpl.
        split; [| split; [| split; [assumption |]]].
        - rewrite app_assoc. apply NoDup_app; [assumption | repeat constructor; intros [] |].
          intros id Hin [<- | []]. apply Hnew. now apply Hincl.
        - intros id Hin. rewrite app_assoc in Hin. apply in_or_app.
          apply in_app_or in Hin as [Hin | Hin]; [left; now apply Hincl | now right].
        - apply Forall_app. split; [assumption |]. constructor; [| constructor].
          split; [| split]; simpl.
          + intros Hempty. rewrite Hempty in Hid. discriminate.
          + lia.
          + apply normalizePhone_shape. }
      intros u'. eapply hoare_bind; [apply hoare_gets |]. intros size.
      destruct (SAVE_INTERVAL <=? size).
      * eapply hoare_conseq with (P := rowsOk) (Q := fun _ => rowsOk) (E := rowsFlushed);
          [now intros s [Hs _] | | auto | auto].
        eapply hoare_bind; [apply enrichBatch_rows |]. intros u2.
        apply flush_then.
        eapply hoare_bind; [apply saveCheckpoint_rowsFlushed |]. intros u3.
        apply clearBatch_rows.
      * apply hoare_ret. now intros s [Hs _].
Qed.

Lemma searchPages_rows (w : World) (cfg : Config) (target : TargetCenter)
    (cityIdx boxIdx termIdx : nat) (term : string) (pages : list (list RawPlace)) :
  forall fetched,
    hoare rowsOk (searchPages w cfg target cityIdx boxIdx termIdx term pages fetched)
          (fun _ => rowsOk) rowsFlushed.
Proof.
  induction pages as [| places rest IH]; intros fetched; simpl.
  - eapply hoare_bind; [apply (rows_quiet_ quiet_checkLimitsIfEnabled) |]. intros u.
    eapply hoare_bind; [apply (rows_quiet_ (R := fun _ => True)); now apply quiet_emit |].
    intros u'. now apply hoare_ret.
  - eapply hoare_bind; [apply (rows_quiet_ quiet_checkLimitsIfEnabled) |]. intros u.
    eapply hoare_bind; [apply (rows_quiet_ (R := fun _ => True)); now apply quiet_emit |].
    intros u'. eapply hoare_bind.
    { apply hoare_forEach. intros p. apply processPlace_rows. }
    intros u''. destruct rest as [| next rest']; [now apply hoare_ret |].
    eapply hoare_bind; [apply (rows_quiet_ (quiet_sleep 2000)) |].
    intros u3. destruct (fetched + List.length places <? maxPerTerm cfg).
    + apply IH.
    + now apply hoare_ret.
Qed.

Lemma processTerm_rows (w : World) (cfg : Config) (target : TargetCenter)
    (cityIdx boxIdx : nat) (box : Geo.LatLng) (termIdx : nat) (term : string) :
  hoare rowsOk (processTerm w cfg target cityIdx boxIdx box termIdx term)
        (fun _ => rowsOk) rowsFlushed.
Proof.
  unfold processTerm. eapply hoare_bind; [apply hoare_gets |]. intros cp.
  match goal with
  | |- hoare _ (if ?b then _ else _) _ _ => destruct b
  end.
  - apply hoare_ret. now intros s [Hs _].
  - eapply hoare_bind.
    { eapply hoare_conseq; [| apply searchPages_rows | intros a s H; exact H | auto].
      now intros s [Hs _]. }
    intros u. apply saveCheckpoint_rows.
Qed.

Lemma processCity_rows (w : World) (cfg : Config) (cityIdx : nat) (target : TargetCenter) :
  hoare rowsOk (processCity w cfg cityIdx target) (fun _ => rowsOk) rowsFlushed.
Proof.
  unfold processCity. eapply hoare_bind; [apply hoare_gets |]. intros cp.
  match goal with
  | |- hoare _ (if ?b then _ else _) _ _ => destruct b
  end.
  - apply hoare_ret. now intros s [Hs _].
  - eapply hoare_bind with (R := fun _ => rowsOk).
    { apply hoare_modify. intros s [Hs _]. now apply rowsFlushed_cleared, rowsOk_flushed. }
    intros u. eapply hoare_bind with (R := fun _ => rowsOk).
    { apply hoare_forEach. intros [boxIdx box].
      apply hoare_forEach. intros [termIdx term]. apply processTerm_rows. }
    intros u1. eapply hoare_bind; [apply hoare_gets |]. intros batch.
    eapply hoare_bind with (R := fun _ => rowsOk).
    { destruct batch as [| lead rest].
      - apply hoare_ret. now intros s [Hs _].
      - eapply hoare_conseq with (P := rowsOk) (Q := fun _ => rowsOk) (E := rowsFlushed);
          [now intros s [Hs _] | | auto | auto].
        eapply hoare_bind; [apply enrichBatch_rows |]. intros u2.
        apply flush_then, clearBatch_rows. }
    intros u4. eapply hoare_bind with (R := fun _ => rowsOk).
    { apply hoare_modify. intros s Hs. exact Hs. }
    intros u5. apply saveCheckpoint_rows.
Qed.

Lemma Actor_main_rows (w : World) (cfg : Config) :
  hoare rowsOk (Actor_main w cfg) (fun _ => rowsOk) rowsFlushed.
Proof.
  unfold Actor_main.
  eapply hoare_bind; [apply (rows_quiet_ (quiet_validateInput cfg)) |].
  intros u. eapply hoare_bind with (R := fun _ => rowsOk).
  { apply hoare_modify. intros s Hs. exact Hs. }
  intros u1. eapply hoare_bind with (R := fun _ => rowsOk).
  { apply hoare_modify. intros s Hs. exact Hs. }
  intros u2. eapply hoare_bind; [apply (rows_quiet_ (quiet_resolveTargets w cfg)) |].
  intros targetCenters. eapply hoare_bind with (R := fun _ => rowsOk).
  { apply hoare_forEach. intros [cityIdx target]. apply processCity_rows. }
  intros u3. apply hoare_modify. intros s Hs. exact Hs.
Qed.

Lemma startState_rows now saved seen : rowsOk (startState now saved seen).
Proof.
  split; [constructor | split; [intros id [] | split; constructor]].
Qed.

(** X18.  Whatever the run does, and whether it ends or is aborted by an
    error, the dataset never holds a place twice, holds accepted places
    only, and every row has a non-empty place id, at most six contacts, and
    a phone field that is empty or a plus sign followed by digits. *)
Theorem dataset_rows_distinct (w : World) (cfg : Config)
    (now : Z) (saved : option Checkpoint) (seen : list (string * Z)) :
  let final := snd (Actor_main w cfg (startState now saved seen)) in
  NoDup (datasetIds final)
  /\ (forall id, In id (datasetIds final) -> In id (allPlaces final))
  /\ Forall (fun row => placeOk (leadPlace row)) (dataset final).
Proof.
  pose proof (Actor_main_rows w cfg (startState_rows now saved seen)) as H.
  destruct (Actor_main w cfg (startState now saved seen)) as [[e | []] s']; simpl.
  - exact H.
  - now apply rowsOk_flushed.
Qed.

(** X19.  When a run ends without an error, the dataset holds exactly
    the accepted places, each once; the batch buffer is empty; and the
    stored checkpoint is back at city 0, term 0, with no processed city,
    so that the next run starts from the beginning. *)
Theorem completed_run_flushed (w : World) (cfg : Config)
    (now : Z) (saved : option Checkpoint) (seen : list (string * Z)) (final : State) :
  Actor_main w cfg (startState now saved seen) = (inr tt, final) ->
  Permutation (datasetIds final) (allPlaces final)
  /\ batchLeads final = []
  /\ checkpointStore final = Some initialCheckpoint.
Proof.
  intros Hrun.
  pose proof (Actor_main_rows w cfg (startState_rows now saved seen)) as Hrows.
  pose proof (Actor_main_triple w cfg (startState_good now saved seen)) as Hgood.
  rewrite Hrun in Hrows, Hgood.
  split; [| split].
  - apply NoDup_Permutation.
    + now destruct (rowsOk_flushed Hrows).
    + now destruct Hgood as (_ & Hnd & _).
    + intros id. split.
      * now apply (proj1 (proj2 (rowsOk_flushed Hrows))).
      * now apply (good_empty_allFlushed Hgood).
  - now destruct Hgood as (_ & _ & _ & Hempty).
  - unfold Actor_main in Hrun.
    repeat (apply bind_returns in Hrun as (? & ? & _ & Hrun)).
    unfold modify in Hrun. injection Hrun as <-. reflexivity.
Qed.

Lemma completed_run_flushed_witness :
  checkpointStore (snd (Actor_main Scenarios.quietWorld Scenarios.singleCellRun
                          (startState 0 None [])))
  = Some initialCheckpoint.
Proof.
  apply (proj2 (proj2 (@completed_run_flushed Scenarios.quietWorld Scenarios.singleCellRun
                         0%Z None [] _ ltac:(vm_compute; reflexivity)))).
Defined.

End RowFacts.

(* ================================================================= *)
Section AccountFacts.
Import Js Run Invariants Ledger Billing.

Variable ceiling : Q.




























End AccountFacts.

Section AccountTheorem.
Import Js Run Invariants Ledger Billing.





End AccountTheorem.

(* ================================================================= *)
Section EnrichFacts.
Import Js Run Invariants Enrichment Events.

(** X13.  [enrichPlaceDetails] never throws.  The place it returns has the
    id, name, search term and address of the place it was given, and at
    most six contacts, none when it has no website; its phone field is
    well formed when that of the given place is.  The call touches neither
    the dataset, nor the set of accepted places, nor the batch buffer, and
    saves no checkpoint. *)
Theorem enrichPlaceDetails_always_returns (w : World) (place : Place) (s : State) :
  exists place' s',
    enrichPlaceDetails w place s = (inr place', s')
    /\ enriched place place'
    /\ quietStep s s'.
Proof.
  destruct (total_enrichPlaceDetails w place s) as (place' & s' & Hrun).
  destruct (quiet_enriched w place s) as [Hstep Hres]. rewrite Hrun in Hstep, Hres.
  exists place', s'. split; [exact Hrun | split; [now apply Hres | exact Hstep]].
Qed.

Lemma enrichPlaceDetails_always_returns_witness :
  exists place' s',
    enrichPlaceDetails Scenarios.testWorld Scenarios.somePlace (startState 0 None [])
    = (inr place', s')
    /\ enriched Scenarios.somePlace place'
    /\ quietStep (startState 0 None []) s'.
Proof.
  exact (enrichPlaceDetails_always_returns Scenarios.testWorld Scenarios.somePlace
           (startState 0 None [])).
Defined.

Lemma extends_same (ok : event -> Prop) (tr0 : list event) (s s' : State) :
  trace s' = trace s -> extends ok tr0 s -> extends ok tr0 s'.
Proof. intros Ht (evs & Hevs & Hok). exists evs. now rewrite Ht. Qed.

Lemma extends_emit (ok : event -> Prop) (tr0 : list event) (e : event) (E : State -> Prop) :
  ok e -> hoare (extends ok tr0) (emit e) (fun _ => extends ok tr0) E.
Proof.
  intros He s (evs & Hevs & Hok). exists (evs ++ [e]). simpl.
  rewrite Hevs, app_assoc. split; [reflexivity |].
  apply Forall_app. split; [exact Hok | now repeat constructor].
Qed.

Lemma extends_frame (A : Type) (m : M A) (ok : event -> Prop) (tr0 : list event) :
  (forall s, trace (snd (m s)) = trace s) ->
  hoare (extends ok tr0) m (fun _ => extends ok tr0) (extends ok tr0).
Proof.
  intros Hm s Hs. specialize (Hm s).
  destruct (m s) as [[e | a] s']; simpl in Hm; now apply (extends_same (s := s)).
Qed.

Lemma checkLimits_trace (s : State) : trace (snd (checkLimits s)) = trace s.
Proof.
  unfold checkLimits. destruct (limiter s) as [rl |]; [| reflexivity].
  destruct (CostGuard.checkLimits (clock s) rl) as [e | [rl' woke]]; reflexivity.
Qed.

Lemma checkLimitsIfEnabled_trace (s : State) :
  trace (snd (checkLimitsIfEnabled s)) = trace s.
Proof.
  unfold checkLimitsIfEnabled, bind, gets.
  destruct (limiter s) as [rl |] eqn:Hl; [| reflexivity]. apply checkLimits_trace.
Qed.

Lemma harvest_extends (w : World) (homepage : Document) (ok : event -> Prop)
    (tr0 : list event) :
  (forall url, ok (EvFetch url)) ->
  hoare (extends ok tr0) (harvest w homepage) (fun _ => extends ok tr0) (extends ok tr0).
Proof.
  intros Hok. unfold harvest. eapply hoare_bind with (R := fun _ => extends ok tr0).
  - destruct (Harvest.extractEmails w homepage ++ homepageExtras w homepage);
      [| now apply hoare_ret].
    destruct (contactPageUrls homepage) as [| firstUrl rest]; [now apply hoare_ret |].
    apply hoare_tryCatch with (P' := extends ok tr0); [| now apply hoare_ret].
    eapply hoare_bind; [apply extends_emit, Hok |]. intros u.
    destruct (httpGet w firstUrl); [now apply hoare_ret | now apply hoare_throw].
  - intros moreEmails. now apply hoare_ret.
Qed.

Lemma enrich_extends (w : World) (place : Place) (ok : event -> Prop) (tr0 : list event) :
  (forall url, ok (EvFetch url)) ->
  ((truthy (website place) || truthy (phone place)) = false ->
   ok (EvPlaceDetails (placeId place))) ->
  hoare (extends ok tr0) (enrichPlaceDetails w place)
        (fun _ => extends ok tr0) (extends ok tr0).
Proof.
  intros Hfetch Hdetails. unfold enrichPlaceDetails.
  apply hoare_tryCatch with (P' := extends ok tr0); [| now apply hoare_ret].
  eapply hoare_bind; [apply extends_frame, checkLimitsIfEnabled_trace |]. intros u.
  eapply hoare_bind with (R := fun _ => extends ok tr0).
  - destruct (truthy (website place)), (truthy (phone place)); simpl;
      try now apply hoare_ret.
    eapply hoare_bind; [apply extends_emit; now apply Hdetails |]. intros u1.
    destruct (placeDetails w (placeId place)); [now apply hoare_ret | now apply hoare_throw].
  - intros place'. destruct (truthy (website place')); [| now apply hoare_ret].
    apply hoare_tryCatch with (P' := extends ok tr0); [| now apply hoare_ret].
    eapply hoare_bind; [apply extends_emit, Hfetch |]. intros u1.
    destruct (httpGet w (website place')) as [homepage |]; [| now apply hoare_throw].
    eapply hoare_bind; [now apply harvest_extends |]. intros allRaw. now apply hoare_ret.
Qed.

(** X14.  The requests of one [enrichPlaceDetails] call are page fetches
    and at most requests for the details of the given place; when the
    search already gave a website or a phone number, no place details
    request is sent. *)
Theorem placeDetails_only_when_needed (w : World) (place : Place) (s : State) :
  exists evs,
    trace (snd (enrichPlaceDetails w place s)) = trace s ++ evs
    /\ Forall (fun e => e = EvPlaceDetails (placeId place) \/ isFetch e) evs
    /\ ((truthy (website place) || truthy (phone place)) = true -> Forall isFetch evs).
Proof.
  assert (Hstart : forall ok, extends ok (trace s) s).
  { intros ok. exists []. now rewrite app_nil_r. }
  pose proof (@enrich_extends w place
                (fun e => e = EvPlaceDetails (placeId place) \/ isFetch e) (trace s)
                (fun url => or_intror (ex_intro _ url eq_refl))
                (fun _ => or_introl eq_refl) s (Hstart _)) as Hall.
  assert (Hsome : exists evs, trace (snd (enrichPlaceDetails w place s)) = trace s ++ evs
                    /\ Forall (fun e => e = EvPlaceDetails (placeId place) \/ isFetch e) evs).
  { destruct (enrichPlaceDetails w place s) as [[e | p'] s']; exact Hall. }
  destruct Hsome as (evs & Hevs & Hok). exists evs.
  split; [exact Hevs | split; [exact Hok |]]. intros Hknown.
  assert (Hfetch : extends isFetch (trace s) (snd (enrichPlaceDetails w place s))).
  { pose proof (@enrich_extends w place isFetch (trace s)
                  (fun url => ex_intro _ url eq_refl)
                  (fun Hnone => False_ind _ (eq_true_false_abs _ Hknown Hnone))
                  s (Hstart _)) as Hf.
    destruct (enrichPlaceDetails w place s) as [[e | p'] s']; exact Hf. }
  destruct Hfetch as (evs' & Hevs' & Hok'). rewrite Hevs in Hevs'.
  apply app_inv_head in Hevs'. now subst evs'.
Qed.

Lemma placeDetails_only_when_needed_witness :
  exists evs,
    trace (snd (enrichPlaceDetails Scenarios.testWorld Scenarios.somePlace
                  (startState 0 None [])))
    = trace (startState 0 None []) ++ evs
    /\ Forall isFetch evs.
Proof.
  destruct (placeDetails_only_when_needed Scenarios.testWorld Scenarios.somePlace
              (startState 0 None [])) as (evs & Hevs & _ & Hfetch).
  exists evs. split; [exact Hevs | apply Hfetch; reflexivity].
Defined.

End EnrichFacts.

Section StartFacts.
Import Js Run Invariants Events.

(** X15.  A run whose input has no search term, an empty location, a zero
    radius or a zero [maxPerTerm] ends at once with the error naming the
    missing field, before any store is opened and any request is sent; the
    location is required even when the built-in city list is used. *)
Theorem invalid_input_rejected (w : World) (cfg : Config) (s : State) :
  invalidInput cfg ->
  exists field, Actor_main w cfg s = (inl (Fatal (InputRequired field)), s).
Proof.
  intros Hbad. unfold Actor_main, bind at 1.
  assert (Hthrows : exists field,
             validateInput cfg s = (inl (Fatal (InputRequired field)), s)).
  { unfold validateInput. destruct (searchTerms cfg) as [| term terms] eqn:Hterms;
      [eexists; reflexivity |].
    destruct (negb (truthy (location cfg))) eqn:Hloc; [eexists; reflexivity |].
    destruct (radiusMeters cfg =? 0)%Z eqn:Hrad; [eexists; reflexivity |].
    destruct (maxPerTerm cfg =? 0) eqn:Hmax; [eexists; reflexivity |].
    exfalso. destruct Hbad as [H | [H | [H | H]]].
    - congruence.
    - rewrite H in Hloc. discriminate Hloc.
    - rewrite H in Hrad. discriminate Hrad.
    - rewrite H in Hmax. discriminate Hmax. }
  destruct Hthrows as (field & ->). now exists field.
Qed.

Lemma invalid_input_rejected_witness :
  exists field,
    Actor_main Scenarios.quietWorld
      {| searchTerms := [ "spa" ]%string; location := EmptyString; radiusMeters := 3000;
         maxPerTerm := 60; enableRateLimiting := true; useTopUSCities := true;
         maxDailyCost := 20; cohortCount := 10; cityCohortIndex := -1;
         persistDedupe := true; cooldownDays := 30 |}
      (startState 0 None [])
    = (inl (Fatal (InputRequired field)), startState 0 None []).
Proof.
  apply invalid_input_rejected. right. left. reflexivity.
Defined.

Lemma validateInput_passes (cfg : Config) (s : State) :
  ~ invalidInput cfg -> validateInput cfg s = (inr tt, s).
Proof.
  intros Hok. unfold validateInput, invalidInput in *.
  destruct (searchTerms cfg) as [| term terms]; [tauto |].
  destruct (truthy (location cfg)) eqn:Hloc; simpl.
  - destruct (radiusMeters cfg =? 0)%Z eqn:Hrad; [apply Z.eqb_eq in Hrad; tauto |].
    destruct (maxPerTerm cfg =? 0) eqn:Hmax; [apply Nat.eqb_eq in Hmax; tauto |].
    reflexivity.
  - exfalso. apply Hok. right. left.
    unfold truthy in Hloc. apply negb_false_iff in Hloc. now apply String.eqb_eq.
Qed.

Lemma TOP_US_CITIES_addresses :
  forall city, In city TOP_US_CITIES -> Re.matches latLngLiteral city = false.
Proof.
  assert (Hall : forallb (fun city => negb (Re.matches latLngLiteral city)) TOP_US_CITIES
                 = true) by (vm_compute; reflexivity).
  intros city Hin. rewrite forallb_forall in Hall. specialize (Hall city Hin).
  now apply negb_true_iff in Hall.
Qed.

Lemma In_skipn (X : Type) (n : nat) (l : list X) (x : X) : In x (skipn n l) -> In x l.
Proof.
  revert l. induction n as [| n IH]; intros l; simpl; [auto |].
  destruct l as [| y l]; [auto |]. intros Hin. right. now apply IH.
Qed.

Lemma selectedCities_top (w : World) (cfg : Config) (city : string) :
  In city (selectedCities w cfg) -> In city TOP_US_CITIES.
Proof.
  unfold selectedCities. rewrite getCitiesForCohort_chunk. intros Hin.
  apply In_firstn in Hin. now apply In_skipn in Hin.
Qed.

Lemma geocodeLocation_disabled (w : World) (loc : string) (s : State) :
  Re.matches latLngLiteral loc = false -> limiter s = None ->
  geocodeLocation w loc s = (inl NullLimiter, s).
Proof.
  intros Haddr Hoff. unfold geocodeLocation. rewrite Haddr.
  unfold bind at 1. unfold checkLimits. now rewrite Hoff.
Qed.

Lemma bind_throws (A B : Type) (m : M A) (k : A -> M B) (s s' : State) (e : exn) :
  m s = (inl e, s') -> bind m k s = (inl e, s').
Proof. intros H. unfold bind. now rewrite H. Qed.

Lemma bind_continues (A B : Type) (m : M A) (k : A -> M B) (s s' : State) (a : A) :
  m s = (inr a, s') -> bind m k s = k a s'.
Proof. intros H. unfold bind. now rewrite H. Qed.

Lemma resolveTargets_disabled (w : World) (cfg : Config) (s : State) :
  limiter s = None -> currentCityIndex (checkpoint s) = 0 ->
  (if useTopUSCities cfg then selectedCities w cfg <> []
   else Re.matches latLngLiteral (location cfg) = false) ->
  resolveTargets w cfg s = (inl NullLimiter, s).
Proof.
  intros Hoff Hfresh Hgeo. unfold resolveTargets. destruct (useTopUSCities cfg).
  - destruct (selectedCities w cfg) as [| city rest] eqn:Hcities; [contradiction |].
    assert (Haddr : Re.matches latLngLiteral city = false).
    { apply TOP_US_CITIES_addresses, (@selectedCities_top w cfg). rewrite Hcities. now left. }
    apply bind_throws. unfold indexed. simpl combine. simpl mapM.
    apply bind_throws. rewrite (@bind_continues _ _ (gets checkpoint) _ s s (checkpoint s) eq_refl).
    rewrite Hfresh. simpl Nat.ltb. cbv iota.
    apply bind_throws. now apply geocodeLocation_disabled.
  - apply bind_throws. now apply geocodeLocation_disabled.
Qed.

(** X16.  With rate limiting off there is no limiter, and
    [geocodeLocation] calls it without a guard: a fresh run with valid
    input that has an address to geocode (a city of today's cohort, or a
    location that is not a pair of coordinates) fails on the first one,
    before any request, leaving the state as it was. *)
Theorem disabled_limiter_stops_geocoding (w : World) (cfg : Config)
    (now : Z) (seen : list (string * Z)) :
  ~ invalidInput cfg ->
  enableRateLimiting cfg = false ->
  (if useTopUSCities cfg then selectedCities w cfg <> []
   else Re.matches latLngLiteral (location cfg) = false) ->
  Actor_main w cfg (startState now None seen) = (inl NullLimiter, startState now None seen).
Proof.
  intros Hvalid Hoff Hgeo. unfold Actor_main.
  rewrite (@bind_continues _ _ (validateInput cfg) _ _ _ _
             (validateInput_passes (startState now None seen) Hvalid)).
  rewrite Hoff.
  rewrite (@bind_continues _ _ (modify (fun s => setLimiter None s)) _
             (startState now None seen) (startState now None seen) tt eq_refl).
  rewrite (@bind_continues _ _ (modify _) _
             (startState now None seen) (startState now None seen) tt eq_refl).
  apply bind_throws. now apply resolveTargets_disabled.
Qed.

Lemma disabled_limiter_stops_geocoding_witness :
  Actor_main Scenarios.quietWorld
    {| searchTerms := [ "spa" ]%string; location := "Oakland, CA"; radiusMeters := 3000;
       maxPerTerm := 60; enableRateLimiting := false; useTopUSCities := false;
       maxDailyCost := 20; cohortCount := 10; cityCohortIndex := -1;
       persistDedupe := true; cooldownDays := 30 |}
    (startState 0 None [])
  = (inl NullLimiter, startState 0 None []).
Proof.
  apply disabled_limiter_stops_geocoding.
  - unfold invalidInput. simpl. intros [H | [H | [H | H]]]; discriminate H.
  - reflexivity.
  - vm_compute. reflexivity.
Defined.

End StartFacts.

Section DedupeFacts.
Import Js Run Invariants.




End DedupeFacts.

(* ================================================================= *)
Section ResumeFacts.
Import Js Run Invariants Events.

Lemma geocodeLocation_address (w : World) (city : string) (s : State) :
  Re.matches latLngLiteral city = false ->
  match geocodeLocation w city s with
  | (inr found, s') =>
      checkpoint s' = checkpoint s /\ trace s' = trace s ++ [EvGeocode city]
  | (inl _, s') =>
      checkpoint s' = checkpoint s
      /\ (trace s' = trace s \/ trace s' = trace s ++ [EvGeocode city])
  end.
Proof.
  intros Haddr. unfold geocodeLocation. rewrite Haddr.
  unfold bind at 1. unfold checkLimits.
  destruct (limiter s) as [rl |]; [| auto].
  destruct (CostGuard.checkLimits (clock s) rl) as [e | [rl' woke]]; [auto |].
  unfold bind, emit, modify. simpl.
  destruct (geocode w city); simpl; auto.
Qed.

Lemma resolve_from (w : World) (f : nat * string -> M (list TargetCenter)) (l : list string) :
  (forall i city s,
     f (i, city) s
     = if i <? currentCityIndex (checkpoint s) then (inr [], s)
       else match geocodeLocation w city s with
            | (inl e, s') => (inl e, s')
            | (inr found, s') =>
                (inr [ {| center := found; label := city; index := Some i |} ], s')
            end) ->
  (forall city, In city l -> Re.matches latLngLiteral city = false) ->
  forall (n : nat) (s : State),
    let from := currentCityIndex (checkpoint s) in
    match mapM f (combine (seq n (List.length l)) l) s with
    | (inr resolved, s') =>
        checkpoint s' = checkpoint s
        /\ trace s' = trace s ++ map EvGeocode (skipn (from - n) l)
        /\ map label (List.concat resolved) = skipn (from - n) l
        /\ map index (List.concat resolved)
           = map Some (seq (Nat.max n from) (List.length l - (from - n)))
    | (inl _, s') =>
        checkpoint s' = checkpoint s
        /\ exists k, trace s' = trace s ++ map EvGeocode (firstn k (skipn (from - n) l))
    end.
Proof.
  intros Hf. induction l as [| city l IH]; intros Haddr n s from.
  - simpl. rewrite skipn_nil. simpl. rewrite app_nil_r. auto.
  - simpl List.length. simpl seq. simpl combine. simpl mapM.
    assert (Hrest : forall c, In c l -> Re.matches latLngLiteral c = false)
      by (intros c Hc; apply Haddr; now right).
    destruct (n <? from) eqn:Hskip.
    + apply Nat.ltb_lt in Hskip.
      assert (Hhere : f (n, city) s = (inr [], s)).
      { rewrite Hf. fold from. now replace (n <? from) with true
          by (symmetry; now apply Nat.ltb_lt). }
      rewrite (@bind_continues _ _ (f (n, city)) _ s s [] Hhere).
      specialize (IH Hrest (S n) s). cbv zeta in IH. fold from in IH.
      replace (from - n) with (S (from - S n)) by lia. simpl skipn.
      destruct (mapM f (combine (seq (S n) (List.length l)) l) s)
        as [[e | resolved] s1] eqn:Hmap.
      * rewrite (@bind_throws _ _ _ _ s s1 e Hmap). exact IH.
      * rewrite (@bind_continues _ _ _ _ s s1 resolved Hmap). simpl.
        destruct IH as (Hcp & Htr & Hlabels & Hidx).
        split; [exact Hcp | split; [exact Htr | split; [exact Hlabels |]]].
        rewrite Hidx. f_equal. f_equal; lia.
    + apply Nat.ltb_ge in Hskip. replace (from - n) with 0 by lia. simpl skipn.
      pose proof (@geocodeLocation_address w city s (Haddr city (or_introl eq_refl))) as Hgeo.
      pose proof (Hf n city s) as Hhere. fold from in Hhere.
      replace (n <? from) with false in Hhere by (symmetry; now apply Nat.ltb_ge).
      destruct (geocodeLocation w city s) as [[e | found] s1].
      * rewrite (@bind_throws _ _ _ _ s s1 e Hhere).
        destruct Hgeo as [Hcp [Htr | Htr]]; (split; [exact Hcp |]).
        -- exists 0. simpl. now rewrite app_nil_r.
        -- exists 1. exact Htr.
      * rewrite (@bind_continues _ _ _ _ s s1 _ Hhere).
        destruct Hgeo as [Hcp Htr].
        specialize (IH Hrest (S n) s1). cbv zeta in IH.
        rewrite Hcp in IH. fold from in IH.
        replace (from - S n) with 0 in IH by lia. simpl skipn in IH.
        destruct (mapM f (combine (seq (S n) (List.length l)) l) s1)
          as [[e | resolved] s2] eqn:Hmap.
        -- rewrite (@bind_throws _ _ _ _ s1 s2 e Hmap).
           destruct IH as (Hcp2 & k & Htr2). split; [exact Hcp2 |].
           exists (S k). simpl. rewrite Htr2, Htr, <- app_assoc. reflexivity.
        -- rewrite (@bind_continues _ _ _ _ s1 s2 resolved Hmap). simpl.
           destruct IH as (Hcp2 & Htr2 & Hlabels & Hidx).
           split; [exact Hcp2 | split; [| split]].
           ++ rewrite Htr2, Htr, <- app_assoc. reflexivity.
           ++ now rewrite Hlabels.
           ++ rewrite Hidx. replace (Nat.max n from) with n by lia.
              replace (Nat.max (S n) from) with (S n) by lia.
              now rewrite !Nat.sub_0_r.
Qed.

(** X21.  On the built-in city list, [Actor.main] resolves the cities of
    today's cohort from the saved city index on, in order, each with its
    position in the cohort as index; for the cities before the saved index
    no geocoding request is sent and no target is built.  When geocoding
    fails, the requests sent so far are for the first cities from the
    saved index on. *)
Theorem resolveTargets_resumes_from_checkpoint (w : World) (cfg : Config) (s : State) :
  useTopUSCities cfg = true ->
  let from := currentCityIndex (checkpoint s) in
  let todo := skipn from (selectedCities w cfg) in
  match resolveTargets w cfg s with
  | (inr targets, s') =>
      map label targets = todo
      /\ map index targets = map Some (seq from (List.length todo))
      /\ trace s' = trace s ++ map EvGeocode todo
  | (inl _, s') =>
      exists k, trace s' = trace s ++ map EvGeocode (firstn k todo)
  end.
Proof.
  intros Htop from todo. unfold resolveTargets. rewrite Htop. unfold indexed.
  match goal with
  | |- context [mapM ?g _] =>
      pose proof (@resolve_from w g (selectedCities w cfg)) as H
  end.
  match type of H with
  | ?P -> _ => assert (Hf : P)
  end.
  { intros i city s0. unfold bind, gets, ret.
    destruct (i <? currentCityIndex (checkpoint s0)); [reflexivity |].
    destruct (geocodeLocation w city s0) as [[e | found] s1]; reflexivity. }
  specialize (H Hf (fun city Hin =>
                      TOP_US_CITIES_addresses (selectedCities_top w cfg city Hin)) 0 s).
  cbv zeta in H. fold from in H. rewrite Nat.sub_0_r in H. fold todo in H.
  destruct (mapM _ (combine (seq 0 (List.length (selectedCities w cfg)))
                            (selectedCities w cfg)) s) as [[e | resolved] s'] eqn:Hmap.
  - rewrite (@bind_throws _ _ _ _ s s' e Hmap). now destruct H as [_ H].
  - rewrite (@bind_continues _ _ _ _ s s' resolved Hmap). simpl.
    destruct H as (_ & Htr & Hlabels & Hidx).
    split; [exact Hlabels | split; [| exact Htr]].
    rewrite Hidx. subst todo. rewrite length_skipn. reflexivity.
Qed.

Lemma resolveTargets_resumes_from_checkpoint_witness :
  let s0 := setLimiter (Some (CostGuard.newLimiter 50 0))
              (setCheckpoint Scenarios.checkpoint_2_3 (startState 0 None [])) in
  let from := currentCityIndex (checkpoint s0) in
  let todo := skipn from (selectedCities Scenarios.quietWorld Scenarios.cityRun) in
  match resolveTargets Scenarios.quietWorld Scenarios.cityRun s0 with
  | (inr targets, s') =>
      map label targets = todo
      /\ map index targets = map Some (seq from (List.length todo))
      /\ trace s' = trace s0 ++ map EvGeocode todo
  | (inl _, s') =>
      exists k, trace s' = trace s0 ++ map EvGeocode (firstn k todo)
  end.
Proof.
  exact (@resolveTargets_resumes_from_checkpoint Scenarios.quietWorld Scenarios.cityRun
           (setLimiter (Some (CostGuard.newLimiter 50 0))
              (setCheckpoint Scenarios.checkpoint_2_3 (startState 0 None [])))
           eq_refl).
Defined.

End ResumeFacts.

(* ================================================================= *)
Section HelperFacts.
Import Js Run Helpers Cohort.

Lemma mapHas_In (V : Type) (key : string) (entries : list (string * V)) :
  mapHas key entries = true <-> In key (map fst entries).
Proof.
  unfold mapHas. rewrite existsb_exists, in_map_iff. split.
  - intros ([k v] & Hin & Heq). apply String.eqb_eq in Heq. exists (k, v). auto.
  - intros ([k v] & Heq & Hin). exists (k, v). split; [exact Hin |].
    now apply String.eqb_eq.
Qed.

(** The entries built from a processed prefix of the array. *)
Lemma dedupe_invariant (arr done : list Place) (entries : list (string * Place)) :
  let step := fun (entries : list (string * Place)) obj =>
                if mapHas (placeId obj) entries then entries
                else entries ++ [ (placeId obj, obj) ] in
  let inv := fun (done : list Place) (entries : list (string * Place)) =>
    NoDup (map fst entries)
    /\ (forall id, In id (map fst entries) <-> In id (map placeId done))
    /\ Forall (fun entry =>
         fst entry = placeId (snd entry)
         /\ exists before after, done = before ++ snd entry :: after
                                 /\ ~ In (placeId (snd entry)) (map placeId before)) entries in
  inv done entries -> inv (done ++ arr) (fold_left step arr entries).
Proof.
  intros step inv. revert done entries.
  induction arr as [| obj arr IH]; intros done entries Hinv; simpl.
  - now rewrite app_nil_r.
  - replace (done ++ obj :: arr) with ((done ++ [obj]) ++ arr)
      by (rewrite <- app_assoc; reflexivity).
    apply IH. destruct Hinv as (Hnd & Hkeys & Hfirst). unfold step.
    destruct (mapHas (placeId obj) entries) eqn:Hhas.
    + apply mapHas_In in Hhas. split; [exact Hnd | split].
      * intros id. rewrite map_app, in_app_iff, <- Hkeys. simpl. split; [auto |].
        intros [Hin | [<- | []]]; assumption.
      * revert Hfirst. apply Forall_impl.
        intros entry (Hkey & before & after & Hdone & Hnew). split; [exact Hkey |].
        exists before, (after ++ [obj]). rewrite Hdone, <- app_assoc. auto.
    + assert (Hfresh : ~ In (placeId obj) (map fst entries)).
      { intros Hin. apply mapHas_In in Hin. congruence. }
      split; [| split].
      * rewrite map_app. simpl. apply NoDup_app; [exact Hnd | repeat constructor; intros [] |].
        intros id Hin [<- | []]. contradiction.
      * intros id. rewrite !map_app, !in_app_iff, Hkeys. reflexivity.
      * apply Forall_app. split.
        -- revert Hfirst. apply Forall_impl.
           intros entry (Hkey & before & after & Hdone & Hnew). split; [exact Hkey |].
           exists before, (after ++ [obj]). rewrite Hdone, <- app_assoc. auto.
        -- constructor; [| constructor]. split; [reflexivity |].
           exists done, []. split; [reflexivity |]. simpl. now rewrite <- Hkeys.
Qed.

Lemma dedupe_distinct (arr : list Place) (entries : list (string * Place)) :
  NoDup (map fst entries ++ map placeId arr) ->
  fold_left (fun entries obj =>
               if mapHas (placeId obj) entries then entries
               else entries ++ [ (placeId obj, obj) ]) arr entries
  = entries ++ map (fun obj => (placeId obj, obj)) arr.
Proof.
  revert entries. induction arr as [| obj arr IH]; intros entries Hnd; simpl.
  - now rewrite app_nil_r.
  - assert (Hfresh : mapHas (placeId obj) entries = false).
    { destruct (mapHas (placeId obj) entries) eqn:Hhas; [| reflexivity].
      apply mapHas_In in Hhas. apply NoDup_remove_2 in Hnd.
      destruct Hnd. apply in_or_app. now left. }
    rewrite Hfresh, IH.
    + rewrite <- app_assoc. reflexivity.
    + rewrite map_app, <- app_assoc. simpl.
      apply (Permutation_NoDup (l := map fst entries ++ placeId obj :: map placeId arr));
        [| exact Hnd].
      apply Permutation_app_head. constructor. reflexivity.
Qed.

Lemma map_fst_ids (entries : list (string * Place)) :
  Forall (fun entry => fst entry = placeId (snd entry)) entries ->
  map placeId (map snd entries) = map fst entries.
Proof.
  induction 1 as [| entry entries Hkey _ IH]; simpl; [reflexivity |].
  now rewrite IH, Hkey.
Qed.

Lemma dedupePlaces_spec (arr : list Place) :
  NoDup (map placeId (dedupePlaces arr))
  /\ (forall id, In id (map placeId (dedupePlaces arr)) <-> In id (map placeId arr))
  /\ (forall obj, In obj (dedupePlaces arr) ->
        exists before after, arr = before ++ obj :: after
                             /\ ~ In (placeId obj) (map placeId before)).
Proof.
  pose proof (@dedupe_invariant arr [] []) as H. cbv zeta in H. simpl app in H.
  destruct H as (Hnd & Hkeys & Hfirst).
  { split; [constructor | split; [reflexivity | constructor]]. }
  unfold dedupePlaces.
  assert (Hids : map placeId (map snd
                   (fold_left (fun entries obj =>
                      if mapHas (placeId obj) entries then entries
                      else entries ++ [ (placeId obj, obj) ]) arr []))
                 = map fst (fold_left (fun entries obj =>
                      if mapHas (placeId obj) entries then entries
                      else entries ++ [ (placeId obj, obj) ]) arr [])).
  { apply map_fst_ids. revert Hfirst. apply Forall_impl. now intros entry [Hkey _]. }
  rewrite Hids. split; [exact Hnd | split; [exact Hkeys |]].
  intros obj Hin. apply in_map_iff in Hin as (entry & <- & Hin).
  now destruct (proj1 (Forall_forall _ _) Hfirst entry Hin) as [_ Hocc].
Qed.

(** X22.  [dedupePlaces] returns one place for each place id of its
    input, no id twice; the place kept for an id is the first of the input
    with that id; an input without a repeated id is returned as it is; and
    deduplicating twice is deduplicating once. *)
Theorem dedupePlaces_keeps_first_of_each_id (arr : list Place) :
  NoDup (map placeId (dedupePlaces arr))
  /\ (forall id, In id (map placeId (dedupePlaces arr)) <-> In id (map placeId arr))
  /\ (forall obj, In obj (dedupePlaces arr) ->
        exists before after, arr = before ++ obj :: after
                             /\ ~ In (placeId obj) (map placeId before))
  /\ (NoDup (map placeId arr) -> dedupePlaces arr = arr)
  /\ dedupePlaces (dedupePlaces arr) = dedupePlaces arr.
Proof.
  destruct (dedupePlaces_spec arr) as (Hnd & Hkeys & Hfirst).
  assert (Hsame : forall l, NoDup (map placeId l) -> dedupePlaces l = l).
  { intros l Hl. unfold dedupePlaces. rewrite dedupe_distinct by exact Hl.
    simpl. rewrite map_map. simpl. apply map_id. }
  split; [exact Hnd | split; [exact Hkeys | split; [exact Hfirst | split]]].
  - apply Hsame.
  - now apply Hsame.
Qed.

Lemma ceilDiv_step (n size : nat) :
  1 <= size -> 1 <= n -> ceilDiv n size = S (ceilDiv (n - size) size).
Proof.
  intros Hs Hn. unfold ceilDiv.
  destruct (Nat.le_gt_cases size n) as [Hbig | Hsmall].
  - replace (n + (size - 1)) with ((n - size + (size - 1)) + 1 * size) by lia.
    rewrite Nat.div_add by lia. lia.
  - replace (n - size) with 0 by lia. simpl.
    rewrite (Nat.div_small (size - 1) size) by lia.
    symmetry. apply (Nat.div_unique _ _ 1 (n - 1)); lia.
Qed.

Lemma chunkLoop_ends (A : Type) (arr : list A) (size : nat) :
  1 <= size ->
  forall fuel i out,
    List.length arr - i <= fuel ->
    exists rest,
      chunkLoop fuel arr size i out = Some (out ++ rest)
      /\ List.concat rest = skipn i arr
      /\ Forall (fun c => 1 <= List.length c <= size) rest
      /\ List.length rest = ceilDiv (List.length arr - i) size.
Proof.
  intros Hs. induction fuel as [| fuel IH]; intros i out Hfuel.
  - exists []. simpl. replace (List.length arr <=? i) with true
      by (symmetry; apply Nat.leb_le; lia).
    rewrite app_nil_r, skipn_all2 by lia.
    replace (List.length arr - i) with 0 by lia.
    unfold ceilDiv. rewrite Nat.div_small by lia. auto.
  - simpl. destruct (List.length arr <=? i) eqn:Hend.
    + apply Nat.leb_le in Hend. exists []. rewrite app_nil_r, skipn_all2 by lia.
      replace (List.length arr - i) with 0 by lia.
      unfold ceilDiv. rewrite Nat.div_small by lia. auto.
    + apply Nat.leb_gt in Hend.
      destruct (IH (i + size) (out ++ [slice i (i + size) arr])) as (rest & Hrun & Hcat & Hlen & Hcount);
        [lia |].
      exists (slice i (i + size) arr :: rest). rewrite Hrun, <- app_assoc.
      unfold slice. replace (i + size - i) with size by lia.
      split; [reflexivity | split; [| split]].
      * simpl. rewrite Hcat. replace (i + size) with (size + i) by lia.
        rewrite <- skipn_skipn. apply firstn_skipn.
      * constructor; [| exact Hlen]. rewrite length_firstn, length_skipn. lia.
      * simpl. rewrite Hcount, (ceilDiv_step (n := List.length arr - i) Hs) by lia.
        f_equal. f_equal. lia.
Qed.

(** X23.  For a size of one or more, the loop of [chunk] ends (within as
    many iterations as the array has elements) and returns
    ceil(length / size) chunks, each of one to [size] elements, whose
    concatenation is the array.  For a size of zero and a non-empty array
    the loop never ends: the index does not advance. *)
Theorem chunk_splits_or_spins (A : Type) (arr : list A) (size : nat) :
  (1 <= size ->
   forall fuel, List.length arr <= fuel ->
     exists chunks,
       chunk fuel arr size = Some chunks
       /\ List.concat chunks = arr
       /\ Forall (fun c => 1 <= List.length c <= size) chunks
       /\ List.length chunks = ceilDiv (List.length arr) size)
  /\ (size = 0 -> arr <> [] -> forall fuel, chunk fuel arr size = None).
Proof.
  split.
  - intros Hs fuel Hfuel.
    destruct (@chunkLoop_ends A arr size Hs fuel 0 []) as (rest & Hrun & Hcat & Hlen & Hcount);
      [lia |].
    exists rest. unfold chunk. rewrite Hrun. rewrite Nat.sub_0_r in Hcount. auto.
  - intros -> Hne fuel. unfold chunk. generalize (@nil (list A)).
    induction fuel as [| fuel IH]; intros out; simpl.
    + destruct arr; [contradiction | reflexivity].
    + destruct arr as [| x arr]; [contradiction |]. simpl. apply IH.
Qed.

End HelperFacts.

(* ================================================================= *)
Section SmartleadFacts.
Import Js Smartlead.












End SmartleadFacts.

